(** * The per-module event runtime of bbot: [bbot/modules/base.py]

    A shallow embedding of [BaseModule]: its admission filters
    ([_event_precheck], [_event_postcheck]), its queues, the batch and
    single-event dispatch arms of [_worker], the setup protocol, the
    quarantine of [set_error_state] and event minting.

    Python objects are embedded as records, the instance attributes of a
    module as the record [BaseModule], and every method as a computation in
    a state, exception and trace monad [M].  The trace lists what a method
    does to its collaborators: log records, statistics, user callbacks
    entered and left, task-counter movements, notifications. *)

From stdpp Require Import base strings gmap list pretty.
From Stdlib Require Import ZArith Lia.

Set Warnings "-register-all".

Local Open Scope string_scope.
Local Open Scope list_scope.
Local Open Scope Z_scope.

(** ** Python values

    The values user callbacks hand back to the runtime ([setup] and
    [filter_event] return a boolean, [None], or a pair of a status and a
    message) and the values of keyword arguments. *)

Inductive atom :=
| ANone
| ABool (b : bool)
| AInt (z : Z)
| AStr (s : string).

Inductive pyval :=
| PAtom (a : atom)
| PTuple (items : list atom).

Definition PNone : pyval := PAtom ANone.
Definition PTrue : pyval := PAtom (ABool true).
Definition PFalse : pyval := PAtom (ABool false).

(** [bool(v)]. *)
Definition atom_truthy (a : atom) : bool :=
  match a with
  | ANone => false
  | ABool b => b
  | AInt z => negb (z =? 0)
  | AStr s => negb (String.eqb s "")
  end.

Definition truthy (v : pyval) : bool :=
  match v with
  | PAtom a => atom_truthy a
  | PTuple items => negb (Nat.eqb (length items) 0)
  end.

(** [str(v)] on atoms. *)
Definition atom_str (a : atom) : string :=
  match a with
  | ANone => "None"
  | ABool true => "True"
  | ABool false => "False"
  | AInt z => pretty z
  | AStr s => s
  end.

(** The exceptions the runtime distinguishes.  [Exception_] stands for any
    other subclass of [Exception] raised by user code; each carries the
    text [f"{e}"] renders. *)
Inductive exn :=
| ValidationError (msg : string)
| WordlistError (msg : string)
| Exception_ (msg : string)
| KeyError (msg : string)
| TypeError (msg : string)
| ValueError (msg : string)
| AttributeError (msg : string)
| QueueEmpty.

Definition exn_str (e : exn) : string :=
  match e with
  | ValidationError m | WordlistError m | Exception_ m
  | KeyError m | TypeError m | ValueError m | AttributeError m => m
  | QueueEmpty => ""
  end.

(** ** Events *)

Inductive event := Event {
  uid : nat;                       (* object identity *)
  type : string;
  scope_distance : Z;
  tags : gset string;
  source : option event;
  module : option string;          (* name of the attributed module, if any *)
  priority : Z
}.

(** [getattr(event.source, "type", "")] *)
Definition source_type (e : event) : string :=
  match source e with
  | Some s => type s
  | None => ""
  end.

(** [str(event.module)] *)
Definition module_str (e : event) : string :=
  match module e with
  | Some n => n
  | None => "None"
  end.

Definition set_module (n : string) (e : event) : event :=
  {| uid := uid e; type := type e; scope_distance := scope_distance e;
     tags := tags e; source := source e; module := Some n;
     priority := priority e |}.

Definition kwargs := gmap string pyval.

(** An entry of the outgoing queue: the tuple [(event, kwargs)].  The event
    is whatever [make_event] returned, which may be [None]. *)
Definition out_item : Type := option event * kwargs.

(** ** Declarative configuration: the class attributes of a module *)

Record config := Config {
  watched_events : list string;
  flags : list string;
  scope_distance_modifier : option Z;
  target_only : bool;
  in_scope_only : bool;
  max_event_handlers : nat;
  batch_size : Z;
  batch_wait : Z;
  _qsize : Z;
  _name : string;
  _type : string
}.

(** [name] property *)
Definition name (c : config) : string := _name c.

(** ** The scan controller, as far as a module uses it *)

Inductive minted :=
| Minted (e : event)
| Invalid (msg : string).          (* scan.make_event raised ValidationError *)

Record Scan := {
  stopping : bool;
  scope_search_distance : Z;
  whitelist : event -> bool;       (* event in scan.whitelist *)
  scan_make_event : list pyval -> kwargs -> minted
}.

(** ** Runtime state: the instance attributes of a module *)

(** The attribute [_incoming_event_queue] holds [None] until first use, a
    priority queue afterwards, and [False] once the module is quarantined.
    A queue is the list of its items in the order [get] returns them. *)
Inductive queue_slot :=
| QNone
| QFalse
| QLive (q : list event).

Inductive cond_id := EventReceived | EventQueued | EventDequeued.

Record BaseModule := {
  errored : bool;
  _incoming_event_queue : queue_slot;
  _outgoing_event_queue : option (list out_item);
  _last_submitted_batch : option Z;
  _cleanedup : bool;
  _watched_events : option (gset string);
  _task_counter : Z;               (* TaskCounter.value *)
  _request_failures : Z;
  received_waiters : nat;          (* tasks suspended in _event_received.wait() *)
  dequeued_waiters : nat;          (* tasks suspended in _event_dequeued.wait() *)
  stats_recorded : gset nat        (* uids of the events whose _stats_recorded latch is set *)
}.

(** [__init__] *)
Definition init : BaseModule :=
  {| errored := false;
     _incoming_event_queue := QNone;
     _outgoing_event_queue := None;
     _last_submitted_batch := None;
     _cleanedup := false;
     _watched_events := None;
     _task_counter := 0;
     _request_failures := 0;
     received_waiters := 0;
     dequeued_waiters := 0;
     stats_recorded := ∅ |}.

(** ** Observable actions *)

Inductive callback := CbSetup | CbHandleEvent | CbHandleBatch | CbFilterEvent
                    | CbFinish | CbReport | CbCleanup.

Inductive level := LDebug | LWarning.

(** Log records; the ones that render an event keep the event itself. *)
Inductive logmsg :=
| Text (s : string)
| Got (e : event)                            (* "Got {event} from {module}" *)
| NotAccepting (e : event) (reason : string) (* "Not accepting {event} because {reason}" *)
| PassedPostCheck (e : event)                (* "{event} passed post-check" *)
| HandlingBatch (n : nat).                   (* "Handling batch of {n} events" *)

Inductive action :=
| Log (l : level) (msg : logmsg)
| Enter (c : callback) (args : list event)   (* a user callback starts running *)
| Leave (c : callback) (ok : bool)           (* it returned (true) or raised (false) *)
| CounterInc                                 (* TaskCounter.__enter__ *)
| CounterDec                                 (* TaskCounter.__exit__ *)
| Caught (context : string) (e : exn)        (* scan.acatch suppressed e *)
| EventConsumed (e : event)                  (* scan.stats.event_consumed *)
| EventProduced (e : event)                  (* scan.stats.event_produced *)
| Notified (c : cond_id) (woken : nat).      (* Condition.notify() *)

(** ** User code

    A module overrides [setup], [handle_event], [handle_batch],
    [filter_event], [finish], [report] and [cleanup].  The runtime sees of a
    call: whether it returned or raised, the state [U] the user code keeps
    between calls, and whether the call put the module in error state (user
    code reaches [set_error_state] directly or through
    [request_with_fail_count]). *)

Record reply (U A : Type) := Reply {
  quarantine : option (option string);   (* Some m: called set_error_state(m) *)
  outcome : A + exn;                     (* returned a value or raised *)
  next : U
}.
Arguments Reply {U A}.
Arguments quarantine {U A}.
Arguments outcome {U A}.
Arguments next {U A}.

Record callbacks (U : Type) := {
  setup : U -> reply U pyval;
  handle_event : event -> U -> reply U unit;
  handle_batch : list event -> U -> reply U unit;
  filter_event : event -> U -> reply U pyval;
  finish : U -> reply U unit;
  report : U -> reply U unit;
  cleanup : U -> reply U unit;
  cleanup_callbacks : list (U -> reply U unit)
}.
Arguments setup {U}.
Arguments handle_event {U}.
Arguments handle_batch {U}.
Arguments filter_event {U}.
Arguments finish {U}.
Arguments report {U}.
Arguments cleanup {U}.
Arguments cleanup_callbacks {U}.

(** ** The monad of methods *)

Record world (U : Type) := World { self : BaseModule; user : U }.
Arguments World {U}.
Arguments self {U}.
Arguments user {U}.

(** Where a coroutine can be left suspended. *)
Inductive wait_point :=
| WaitCondition (c : cond_id)     (* Condition.wait() *)
| WaitIncoming                    (* incoming_event_queue.get() on an empty queue *)
| WaitOutgoing.                   (* outgoing_event_queue.get() on an empty queue *)

Inductive result (A : Type) :=
| Return (a : A)
| Raise (e : exn)
| Suspend (p : wait_point)
| OutOfFuel.
Arguments Return {A}.
Arguments Raise {A}.
Arguments Suspend {A}.
Arguments OutOfFuel {A}.

Definition M (U A : Type) : Type := world U -> result A * world U * list action.

Definition ret {U A} (a : A) : M U A := fun w => (Return a, w, []).

Definition bind {U A B} (m : M U A) (f : A -> M U B) : M U B :=
  fun w =>
    match m w with
    | (Return a, w1, t1) => let '(r, w2, t2) := f a w1 in (r, w2, t1 ++ t2)
    | (Raise e, w1, t1) => (Raise e, w1, t1)
    | (Suspend p, w1, t1) => (Suspend p, w1, t1)
    | (OutOfFuel, w1, t1) => (OutOfFuel, w1, t1)
    end.

Notation "x <~ m ; f" := (bind m (fun x => f))
  (at level 20, m at level 100, f at level 200, only parsing).
Notation "' p <~ m ; f" := (bind m (fun p => f))
  (at level 20, p pattern, m at level 100, f at level 200, only parsing).
Notation "m ;; f" := (bind m (fun _ => f))
  (at level 100, f at level 200, only parsing, right associativity).

Definition raise {U A} (e : exn) : M U A := fun w => (Raise e, w, []).
Definition suspend {U A} (p : wait_point) : M U A := fun w => (Suspend p, w, []).
Definition out_of_fuel {U A} : M U A := fun w => (OutOfFuel, w, []).
Definition emit {U} (a : action) : M U unit := fun w => (Return tt, w, [a]).
Definition get_self {U} : M U BaseModule := fun w => (Return (self w), w, []).
Definition modify_self {U} (f : BaseModule -> BaseModule) : M U unit :=
  fun w => (Return tt, World (f (self w)) (user w), []).

(** [try: body except ...: handler], for the exceptions [handles] selects. *)
Definition try_except {U A} (body : M U A) (handles : exn -> bool)
    (handler : exn -> M U A) : M U A :=
  fun w =>
    match body w with
    | (Raise e, w1, t1) =>
        if handles e
        then let '(r, w2, t2) := handler e w1 in (r, w2, t1 ++ t2)
        else (Raise e, w1, t1)
    | other => other
    end.

(** [try: body finally: final]; [final] runs when the body is left, by a
    return or by an exception, and not while the body is parked at an
    [await]. *)
Definition try_finally {U A} (body : M U A) (final : M U unit) : M U A :=
  fun w =>
    let '(r, w1, t1) := body w in
    match r with
    | Return _ | Raise _ =>
        let '(_, w2, t2) := final w1 in
        (r, w2, t1 ++ t2)
    | Suspend _ | OutOfFuel => (r, w1, t1)
    end.

Definition state_of {U A} (x : result A * world U * list action) : BaseModule :=
  self (x.1.2).
Definition result_of {U A} (x : result A * world U * list action) : result A := x.1.1.
Definition trace_of {U A} (x : result A * world U * list action) : list action := x.2.

(** Attribute assignments. *)
Definition set_errored (b : bool) (m : BaseModule) : BaseModule :=
  {| errored := b;
     _incoming_event_queue := _incoming_event_queue m;
     _outgoing_event_queue := _outgoing_event_queue m;
     _last_submitted_batch := _last_submitted_batch m;
     _cleanedup := _cleanedup m;
     _watched_events := _watched_events m;
     _task_counter := _task_counter m;
     _request_failures := _request_failures m;
     received_waiters := received_waiters m;
     dequeued_waiters := dequeued_waiters m;
     stats_recorded := stats_recorded m |}.

Definition set_incoming (q : queue_slot) (m : BaseModule) : BaseModule :=
  {| errored := errored m;
     _incoming_event_queue := q;
     _outgoing_event_queue := _outgoing_event_queue m;
     _last_submitted_batch := _last_submitted_batch m;
     _cleanedup := _cleanedup m;
     _watched_events := _watched_events m;
     _task_counter := _task_counter m;
     _request_failures := _request_failures m;
     received_waiters := received_waiters m;
     dequeued_waiters := dequeued_waiters m;
     stats_recorded := stats_recorded m |}.

Definition set_outgoing (q : option (list out_item)) (m : BaseModule) : BaseModule :=
  {| errored := errored m;
     _incoming_event_queue := _incoming_event_queue m;
     _outgoing_event_queue := q;
     _last_submitted_batch := _last_submitted_batch m;
     _cleanedup := _cleanedup m;
     _watched_events := _watched_events m;
     _task_counter := _task_counter m;
     _request_failures := _request_failures m;
     received_waiters := received_waiters m;
     dequeued_waiters := dequeued_waiters m;
     stats_recorded := stats_recorded m |}.

Definition set_cleanedup (b : bool) (m : BaseModule) : BaseModule :=
  {| errored := errored m;
     _incoming_event_queue := _incoming_event_queue m;
     _outgoing_event_queue := _outgoing_event_queue m;
     _last_submitted_batch := _last_submitted_batch m;
     _cleanedup := b;
     _watched_events := _watched_events m;
     _task_counter := _task_counter m;
     _request_failures := _request_failures m;
     received_waiters := received_waiters m;
     dequeued_waiters := dequeued_waiters m;
     stats_recorded := stats_recorded m |}.

Definition set_watched (ws : option (gset string)) (m : BaseModule) : BaseModule :=
  {| errored := errored m;
     _incoming_event_queue := _incoming_event_queue m;
     _outgoing_event_queue := _outgoing_event_queue m;
     _last_submitted_batch := _last_submitted_batch m;
     _cleanedup := _cleanedup m;
     _watched_events := ws;
     _task_counter := _task_counter m;
     _request_failures := _request_failures m;
     received_waiters := received_waiters m;
     dequeued_waiters := dequeued_waiters m;
     stats_recorded := stats_recorded m |}.

Definition set_task_counter (c : Z) (m : BaseModule) : BaseModule :=
  {| errored := errored m;
     _incoming_event_queue := _incoming_event_queue m;
     _outgoing_event_queue := _outgoing_event_queue m;
     _last_submitted_batch := _last_submitted_batch m;
     _cleanedup := _cleanedup m;
     _watched_events := _watched_events m;
     _task_counter := c;
     _request_failures := _request_failures m;
     received_waiters := received_waiters m;
     dequeued_waiters := dequeued_waiters m;
     stats_recorded := stats_recorded m |}.

Definition set_waiters (c : cond_id) (n : nat) (m : BaseModule) : BaseModule :=
  {| errored := errored m;
     _incoming_event_queue := _incoming_event_queue m;
     _outgoing_event_queue := _outgoing_event_queue m;
     _last_submitted_batch := _last_submitted_batch m;
     _cleanedup := _cleanedup m;
     _watched_events := _watched_events m;
     _task_counter := _task_counter m;
     _request_failures := _request_failures m;
     received_waiters :=
       match c with EventReceived => n | _ => received_waiters m end;
     dequeued_waiters :=
       match c with EventDequeued => n | _ => dequeued_waiters m end;
     stats_recorded := stats_recorded m |}.

Definition set_stats_recorded (s : gset nat) (m : BaseModule) : BaseModule :=
  {| errored := errored m;
     _incoming_event_queue := _incoming_event_queue m;
     _outgoing_event_queue := _outgoing_event_queue m;
     _last_submitted_batch := _last_submitted_batch m;
     _cleanedup := _cleanedup m;
     _watched_events := _watched_events m;
     _task_counter := _task_counter m;
     _request_failures := _request_failures m;
     received_waiters := received_waiters m;
     dequeued_waiters := dequeued_waiters m;
     stats_recorded := s |}.

Definition waiters (c : cond_id) (m : BaseModule) : nat :=
  match c with
  | EventReceived => received_waiters m
  | EventDequeued => dequeued_waiters m
  | EventQueued => 0%nat
  end.

(** ** Collaborators that live outside [base.py] *)

(** Modelled from the spec: the order of [asyncio.PriorityQueue] on events,
    which [Event.__lt__] (not part of this file) decides.  Items are ordered
    by a priority key, lower first, and keep their arrival order within one
    priority.  [pq_put key x q] is the queue after [put_nowait(x)]. *)
Fixpoint pq_put {A : Type} (key : A -> Z) (x : A) (q : list A) : list A :=
  match q with
  | [] => [x]
  | y :: q' => if key x <? key y then x :: q else y :: pq_put key x q'
  end.

(** Modelled from the spec: the key of an outgoing tuple is the priority of
    its event.  The spec does not order a tuple without an event; the model
    files it under 0, and no statement below depends on where it lands. *)
Definition item_priority (i : out_item) : Z :=
  match i.1 with
  | Some e => priority e
  | None => 0
  end.

(** Modelled from the spec: [scan.acatch(context=...)], the error-catching
    context of the scan controller.  Any exception raised inside is
    captured, logged with the context, and suppressed; the statement after
    the block runs next.  [None] tells that the block was cut short. *)
Definition acatch {U A} (context : string) (body : M U A) : M U (option A) :=
  fun w =>
    match body w with
    | (Return a, w1, t1) => (Return (Some a), w1, t1)
    | (Raise e, w1, t1) => (Return None, w1, t1 ++ [Caught context e])
    | (Suspend p, w1, t1) => (Suspend p, w1, t1)
    | (OutOfFuel, w1, t1) => (OutOfFuel, w1, t1)
    end.

(** Modelled from the spec: [TaskCounter], a counter handle acquired for the
    extent of a block: incremented on entering, decremented on exit
    regardless of outcome. *)
Definition with_task_counter {U A} (body : M U A) : M U A :=
  modify_self (fun m => set_task_counter (_task_counter m + 1) m);;
  emit CounterInc;;
  try_finally body
    (modify_self (fun m => set_task_counter (_task_counter m - 1) m);;
     emit CounterDec).

(** [asyncio.Condition]: [notify()] wakes one waiting task if there is one. *)
Definition notify {U} (c : cond_id) : M U unit :=
  m <~ get_self;
  let woken := Nat.min 1 (waiters c m) in
  modify_self (set_waiters c (waiters c m - woken)%nat);;
  emit (Notified c woken).

(** [await condition.wait()]: the task is parked on the condition. *)
Definition wait {U A} (c : cond_id) : M U A :=
  m <~ get_self;
  modify_self (set_waiters c (S (waiters c m)));;
  suspend (WaitCondition c).

(** [async with condition: body].  The lock of a condition is free whenever
    a task reaches it here, since no task suspends while holding it except
    inside [wait], which releases it. *)
Definition async_with_condition {U A} (c : cond_id) (body : M U A) : M U A := body.

(** [with condition: body].  An [asyncio.Condition] implements the
    asynchronous context-manager protocol only ([__aenter__], [__aexit__]);
    entering it with a plain [with] statement raises before the body runs
    (a [TypeError] since Python 3.11, an [AttributeError] in 3.9 and 3.10). *)
Definition with_condition {U A} (c : cond_id) (body : M U A) : M U A :=
  raise (TypeError "'Condition' object does not support the context manager protocol").

Definition is_QueueEmpty (e : exn) : bool :=
  match e with QueueEmpty => true | _ => false end.
Definition is_AttributeError (e : exn) : bool :=
  match e with AttributeError _ => true | _ => false end.
Definition is_WordlistError (e : exn) : bool :=
  match e with WordlistError _ => true | _ => false end.

(** Truth value of the object in the incoming slot.  An asyncio queue
    defines neither [__bool__] nor [__len__]: it is true even when empty. *)
Definition slot_truthy (q : queue_slot) : bool :=
  match q with
  | QLive _ => true
  | QNone | QFalse => false
  end.

Definition slot_size (q : queue_slot) : nat :=
  match q with
  | QLive l => length l
  | QNone | QFalse => 0%nat
  end.

(** ** The methods of [BaseModule] *)

Section Methods.
Context {U : Type}.
Variable cfg : config.
Variable scan : Scan.
Variable cb : callbacks U.
(** Python's [repr], which renders the key of a [KeyError]. *)
Variable py_repr : pyval -> string.

Definition debug (m : logmsg) : M U unit := emit (Log LDebug m).
Definition warning (m : logmsg) : M U unit := emit (Log LWarning m).

(** [incoming_event_queue] property: the queue is created on first use. *)
Definition incoming_event_queue : M U queue_slot :=
  m <~ get_self;
  match _incoming_event_queue m with
  | QNone => modify_self (set_incoming (QLive []));; ret (QLive [])
  | q => ret q
  end.

(** [outgoing_event_queue] property *)
Definition outgoing_event_queue : M U (list out_item) :=
  m <~ get_self;
  match _outgoing_event_queue m with
  | None => modify_self (set_outgoing (Some []));; ret []
  | Some q => ret q
  end.

(** [self.incoming_event_queue.get_nowait()] *)
Definition incoming_get_nowait : M U event :=
  q <~ incoming_event_queue;
  match q with
  | QLive (e :: rest) => modify_self (set_incoming (QLive rest));; ret e
  | QLive [] => raise QueueEmpty
  | _ => raise (AttributeError "'bool' object has no attribute 'get_nowait'")
  end.

(** [await self.incoming_event_queue.get()] *)
Definition incoming_get : M U event :=
  q <~ incoming_event_queue;
  match q with
  | QLive (e :: rest) => modify_self (set_incoming (QLive rest));; ret e
  | QLive [] => suspend WaitIncoming
  | _ => raise (AttributeError "'bool' object has no attribute 'get'")
  end.

(** [self.incoming_event_queue.put_nowait(event)] *)
Definition incoming_put_nowait (e : event) : M U unit :=
  q <~ incoming_event_queue;
  match q with
  | QLive l => modify_self (set_incoming (QLive (pq_put priority e l)))
  | _ => raise (AttributeError "'bool' object has no attribute 'put_nowait'")
  end.

(** [while 1: self.incoming_event_queue.get_nowait()] *)
Fixpoint get_nowait_forever (fuel : nat) : M U unit :=
  match fuel with
  | O => out_of_fuel
  | S fuel' => incoming_get_nowait;; get_nowait_forever fuel'
  end.

Definition set_error_state (message : option string) : M U unit :=
  m <~ get_self;
  if negb (errored m) then
    match message with
    | Some s => warning (Text s)
    | None => ret tt
    end;;
    debug (Text ("Setting error state for module " +:+ name cfg));;
    modify_self (set_errored true);;
    (* clear incoming queue *)
    q <~ incoming_event_queue;
    if slot_truthy q then
      debug (Text "Emptying event_queue");;
      try_except (get_nowait_forever (S (slot_size q)))
        is_QueueEmpty (fun _ => ret tt);;
      modify_self (set_incoming QFalse)
    else ret tt
  else ret tt.

(** The runtime awaits a user callback. *)
Definition call_user {A} (c : callback) (args : list event)
    (f : U -> reply U A) : M U A :=
  emit (Enter c args);;
  r <~ (fun w => (Return (f (user w)), World (self w) (next (f (user w))), []));
  match quarantine r with
  | Some message => set_error_state message
  | None => ret tt
  end;;
  match outcome r with
  | inl a => emit (Leave c true);; ret a
  | inr e => emit (Leave c false);; raise e
  end.

(** [get_watched_events] *)
Definition get_watched_events : M U (gset string) :=
  m <~ get_self;
  match _watched_events m with
  | None =>
      let ws : gset string := list_to_set (watched_events cfg) in
      modify_self (set_watched (Some ws));; ret ws
  | Some ws => ret ws
  end.

(** [num_incoming_events] property *)
Definition num_incoming_events : M U Z :=
  q <~ incoming_event_queue;
  if slot_truthy q then ret (Z.of_nat (slot_size q)) else ret 0.

(** [max_scope_distance] property; [None] when adding the modifier [None] to
    the search distance raises. *)
Definition max_scope_distance : option Z :=
  if in_scope_only cfg || target_only cfg then Some 0
  else match scope_distance_modifier cfg with
       | Some k => Some (Z.max 0 (scope_search_distance scan + k))
       | None => None
       end.

(** [_event_precheck] *)
Definition _event_precheck (e : event) : M U (bool * string) :=
  (* special signal event types *)
  if String.eqb (type e) "FINISHED" then ret (true, "") else
  m <~ get_self;
  if errored m then ret (false, "module is in error state") else
  (* exclude non-watched types *)
  ws <~ get_watched_events;
  if negb (bool_decide ("*" ∈ ws) || bool_decide (type e ∈ ws))
  then ret (false, "its type is not in watched_events") else
  if target_only cfg && negb (bool_decide ("target" ∈ tags e))
  then ret (false, "it did not meet target_only filter criteria") else
  (* exclude certain URLs *)
  if String.prefix "URL" (type e) && negb (String.eqb (name cfg) "httpx")
     && bool_decide ("httpx-only" ∈ tags e)
  then ret (false, "its extension was listed in url_extension_httpx_only") else
  (* if event is an IP address that was speculated from a CIDR *)
  let source_is_range := String.eqb (source_type e) "IP_RANGE" in
  if source_is_range && String.eqb (type e) "IP_ADDRESS"
     && String.eqb (module_str e) "speculate"
     && negb (String.eqb (name cfg) "speculate")
     && forallb (fun x => bool_decide (x ∈ watched_events cfg))
          ["IP_RANGE"; "IP_ADDRESS"]
  then ret (false, "module consumes IP ranges directly")
  else ret (true, "").

(** The scope-distance part of [_event_postcheck]. *)
Inductive gate := Pass | Reject (reason : string) | Crash (e : exn).

Definition scope_gate (e : event) : gate :=
  if negb (String.eqb (_type cfg) "output") then
    if in_scope_only cfg && (0 <? scope_distance e)
    then Reject "it did not meet in_scope_only filter criteria"
    else
      match scope_distance_modifier cfg with
      | Some k =>
          if scope_distance e <? 0
          then Reject ("its scope_distance (" +:+ pretty (scope_distance e)
                       +:+ ") is invalid.")
          else
            match max_scope_distance with
            | Some d =>
                if d <? scope_distance e
                then Reject ("its scope_distance (" +:+ pretty (scope_distance e)
                       +:+ ") exceeds the maximum allowed by the scan ("
                       +:+ pretty (scope_search_distance scan)
                       +:+ ") + the module (" +:+ pretty k +:+ ") == "
                       +:+ pretty d)
                else Pass
            | None => Crash (TypeError "unsupported operand type(s) for +")
            end
      | None => Pass
      end
  else Pass.

(** [filter_result, reason = filter_result] under
    [suppress(ValueError, TypeError)]: a pair (or a string of two characters)
    unpacks; anything else is left as it is. *)
Definition unpack_filter_result (msg : string) (v : pyval) : pyval * string :=
  match v with
  | PTuple [r; reason] => (PAtom r, msg +:+ ": " +:+ atom_str reason)
  | PAtom (AStr (String a (String b EmptyString))) =>
      (PAtom (AStr (String a EmptyString)),
       msg +:+ ": " +:+ String b EmptyString)
  | _ => (v, msg)
  end.

Definition _custom_filter_criteria_msg : string :=
  "it did not meet custom filter criteria".

(** The statements of [_event_postcheck] after the custom filter: an output
    module records the event as produced, once per event. *)
Definition _event_postcheck_accept (e : event) : M U (bool * string) :=
  m <~ get_self;
  (if String.eqb (_type cfg) "output"
      && negb (bool_decide (uid e ∈ stats_recorded m))
   then modify_self (set_stats_recorded ({[uid e]} ∪ stats_recorded m));;
        emit (EventProduced e)
   else ret tt);;
  debug (PassedPostCheck e);;
  ret (true, "").

(** [_event_postcheck] *)
Definition _event_postcheck (e : event) : M U (bool * string) :=
  (* special exception for "FINISHED" event *)
  if String.eqb (type e) "FINISHED" then ret (true, "") else
  (* reject out-of-scope events for active modules *)
  if bool_decide ("active" ∈ flags cfg) && bool_decide ("target" ∈ tags e)
     && negb (whitelist scan e)
  then ret (false, "it is not in whitelist and module has active flag") else
  (* check scope distance *)
  match scope_gate e with
  | Reject reason => ret (false, reason)
  | Crash x => raise x
  | Pass =>
      (* custom filtering; [Some (Some v)] is a return from inside the block *)
      r <~ acatch "filter_event"
             (filter_result <~ call_user CbFilterEvent [e] (filter_event cb e);
              let '(filter_result, msg) :=
                unpack_filter_result _custom_filter_criteria_msg filter_result in
              if negb (truthy filter_result) then ret (Some (false, msg))
              else ret None);
      match r with
      | Some (Some verdict) => ret verdict
      | _ => _event_postcheck_accept e
      end
  end.

(** One pass of the loop of [events_waiting]; [inl] carries the locals to
    the next pass, [inr] leaves the loop. *)
Definition events_waiting_pass (events : list event) (finish : bool)
    : M U (list event * bool + list event * bool) :=
  q <~ incoming_event_queue;
  if slot_truthy q then
    if batch_size cfg <? Z.of_nat (length events) then ret (inr (events, finish))
    else
      try_except
        (event <~ incoming_get_nowait;
         debug (Got event);;
         '(acceptable, reason) <~ _event_postcheck event;
         if acceptable then
           if String.eqb (type event) "FINISHED" then ret (inl (events, true))
           else emit (EventConsumed event);; ret (inl (events ++ [event], finish))
         else if negb (String.eqb reason "")
         then debug (NotAccepting event reason);; ret (inl (events, finish))
         else ret (inl (events, finish)))
        is_QueueEmpty (fun _ => ret (inr (events, finish)))
  else ret (inr (events, finish)).

Fixpoint events_waiting_loop (fuel : nat) (events : list event) (finish : bool)
    : M U (list event * bool) :=
  match fuel with
  | O => out_of_fuel
  | S fuel' =>
      r <~ events_waiting_pass events finish;
      match r with
      | inl (events', finish') => events_waiting_loop fuel' events' finish'
      | inr out => ret out
      end
  end.

(** [events_waiting]: all events in queue, up to maximum batch size.  Every
    pass but the last takes one item from the queue. *)
Definition events_waiting : M U (list event * bool * bool) :=
  m <~ get_self;
  let report := false in
  '(events, finish) <~
     events_waiting_loop (S (slot_size (_incoming_event_queue m))) [] false;
  ret (events, finish, report).

(** The [if events:] block of [_handle_batch]; the result is [submitted]. *)
Definition _handle_batch_submit (events : list event) : M U bool :=
  match events with
  | _ :: _ =>
      acatch (name cfg +:+ ".handle_batch")
        (with_task_counter
           (call_user CbHandleBatch events (handle_batch cb events)));;
      ret true
  | [] => ret false
  end.

(** The [if finish: ... elif report: ...] block of [_handle_batch] *)
Definition _handle_batch_wrapup (finish_ report_ : bool) : M U unit :=
  if finish_ then
    acatch (name cfg +:+ ".finish") (call_user CbFinish [] (finish cb));;
    ret tt
  else if report_ then
    acatch (name cfg +:+ ".report") (call_user CbReport [] (report cb));;
    ret tt
  else ret tt.

(** [_handle_batch]; [None] is the bare [return]. *)
Definition _handle_batch : M U (option bool) :=
  if batch_size cfg <=? 1 then ret None else
  n <~ num_incoming_events;
  if 0 <? n then
    '(events, finish_, report_) <~ events_waiting;
    m <~ get_self;
    if negb (errored m) then
      debug (HandlingBatch (length events));;
      submitted <~ _handle_batch_submit events;
      _handle_batch_wrapup finish_ report_;;
      ret (Some submitted)
    else ret (Some false)
  else ret (Some false).

(** [make_event]; the result is [None] when minting failed and the caller
    did not ask for the error. *)
Definition make_event (args : list pyval) (kw : kwargs) : M U (option event) :=
  let raise_error := truthy (default PFalse (kw !! "raise_error")) in
  let kw := delete "raise_error" kw in
  match scan_make_event scan args kw with
  | Invalid msg =>
      if raise_error then raise (ValidationError msg)
      else warning (Text msg);; ret None
  | Minted event =>
      match module event with
      | None => ret (Some (set_module (name cfg) event))
      | Some _ => ret (Some event)
      end
  end.

(** [queue_outgoing_event] *)
Definition queue_outgoing_event (event : option event) (kw : kwargs) : M U unit :=
  try_except
    (q <~ outgoing_event_queue;
     modify_self (set_outgoing (Some (pq_put item_priority (event, kw) q))))
    is_AttributeError
    (fun _ => debug (Text "Not in an acceptable state to queue outgoing event")).

(** The loop of [emit_event] that moves the emit options out of the event
    keyword arguments. *)
Definition split_kwargs (kw : kwargs) : kwargs * kwargs :=
  foldl (fun '(event_kwargs, emit_kwargs) o =>
           let v := default PNone (event_kwargs !! o) in
           let event_kwargs := delete o event_kwargs in
           match v with
           | PAtom ANone => (event_kwargs, emit_kwargs)
           | _ => (event_kwargs, <[o := v]> emit_kwargs)
           end)
        (kw, ∅) ["on_success_callback"; "abort_if"; "quick"].

(** [emit_event] *)
Definition emit_event (args : list pyval) (kw : kwargs) : M U unit :=
  let '(event_kwargs, emit_kwargs) := split_kwargs kw in
  event <~ make_event args event_kwargs;
  queue_outgoing_event event emit_kwargs.

(** [queue_event]: queue (incoming) event with module.  The property never
    answers [None]; a queue object equals neither [None] nor [False]. *)
Definition queue_event (event : event) : M U unit :=
  q <~ incoming_event_queue;
  if negb (slot_truthy q) then
    debug (Text "Not in an acceptable state to queue incoming event")
  else
    '(acceptable, reason) <~ _event_precheck event;
    if negb acceptable then
      if negb (String.eqb reason "")
         && negb (String.eqb reason "its type is not in watched_events")
      then debug (NotAccepting event reason)
      else ret tt
    else
      try_except
        (incoming_put_nowait event;;
         async_with_condition EventReceived (notify EventReceived))
        is_AttributeError
        (fun _ => debug (Text "Not in an acceptable state to queue incoming event")).

(** [dequeue_outgoing_event] *)
Definition dequeue_outgoing_event : M U unit :=
  q <~ outgoing_event_queue;
  match q with
  | [] => suspend WaitOutgoing
  | _ :: rest => modify_self (set_outgoing (Some rest))
  end;;
  with_condition EventDequeued (notify EventDequeued).

(** The dictionary [status_codes]; [None] is a [KeyError].  Keys compare as
    Python compares them: [0 == False] and [1 == True]. *)
Definition status_codes (status : pyval) : option string :=
  match status with
  | PAtom (ABool false) | PAtom (AInt 0) => Some "hard-fail"
  | PAtom ANone => Some "soft-fail"
  | PAtom (ABool true) | PAtom (AInt 1) => Some "success"
  | _ => None
  end.

(** The [except Exception] arm of [_setup], entered with the value [status]
    holds at that point. *)
Definition _setup_except (status : pyval) (e : exn) : M U (pyval * string) :=
  set_error_state None;;
  (* soft-fail if it's only a wordlist error *)
  let status := if is_WordlistError e then PNone else status in
  ret (status, exn_str e).

(** [_setup] *)
Definition _setup : M U (string * pyval * string) :=
  let status := PFalse in
  debug (Text ("Setting up module " +:+ name cfg));;
  '(status, msg) <~
     (r <~ try_except (result <~ call_user CbSetup [] (setup cb); ret (inl result))
             (fun _ => true) (fun e => ret (inr e));
      match r with
      | inr e => _setup_except status e
      | inl result =>
          match result with
          | PTuple [status; msg] =>
              debug (Text ("Finished setting up module " +:+ name cfg));;
              ret (PAtom status, atom_str msg)
          | _ =>
              let status := result in
              match status_codes status with
              | Some msg =>
                  debug (Text ("Finished setting up module " +:+ name cfg));;
                  ret (status, msg)
              | None => _setup_except status (KeyError (py_repr status))
              end
          end
      end);
  ret (name cfg, status, msg).

(** [_cleanup]; every registered callback is taken to be callable. *)
Definition _cleanup : M U unit :=
  m <~ get_self;
  if negb (_cleanedup m) then
    modify_self (set_cleanedup true);;
    foldr (fun callback rest =>
             acatch (name cfg)
               (with_task_counter (call_user CbCleanup [] callback));;
             rest)
          (ret tt) (cleanup cb :: cleanup_callbacks cb)
  else ret tt.

(** ** The worker *)

Inductive flow := Continue | Exit.

(** hold the reigns if our outgoing queue is full *)
Definition backpressure_gate : M U unit :=
  if 0 <? _qsize cfg then
    q <~ outgoing_event_queue;
    if _qsize cfg <=? Z.of_nat (length q)
    then async_with_condition EventDequeued (wait EventDequeued)
    else ret tt
  else ret tt.

(** The arm of [_worker] for [batch_size > 1] *)
Definition batch_arm : M U flow :=
  submitted <~ _handle_batch;
  if negb (default false submitted)
  then async_with_condition EventReceived (wait EventReceived)
  else ret Continue.

(** The arm of [_worker] for [batch_size <= 1] *)
Definition single_arm : M U flow :=
  r <~ try_except
         (q <~ incoming_event_queue;
          if slot_truthy q then event <~ incoming_get; ret (inl event)
          else debug (Text "Event queue is in bad state");; ret (inr Exit))
         is_QueueEmpty (fun _ => ret (inr Continue));
  match r with
  | inr f => ret f
  | inl event =>
      debug (Got event);;
      '(acceptable, reason) <~ _event_postcheck event;
      (if negb acceptable then debug (NotAccepting event reason) else ret tt);;
      if acceptable then
        if String.eqb (type event) "FINISHED" then
          acatch (name cfg +:+ ".finish")
            (with_task_counter (call_user CbFinish [] (finish cb)));;
          ret Continue
        else
          emit (EventConsumed event);;
          acatch (name cfg +:+ ".handle_event")
            (with_task_counter
               (call_user CbHandleEvent [event] (handle_event cb event)));;
          ret Continue
      else ret Continue
  end.

(** The body of the [while] loop of [_worker] *)
Definition _worker_iteration : M U flow :=
  backpressure_gate;;
  if 1 <? batch_size cfg then batch_arm else single_arm.

Fixpoint _worker_loop (fuel : nat) : M U unit :=
  if stopping scan then ret tt else
  match fuel with
  | O => out_of_fuel
  | S fuel' =>
      f <~ _worker_iteration;
      match f with
      | Continue => _worker_loop fuel'
      | Exit => ret tt
      end
  end.

(** [_worker], run for at most [fuel] iterations *)
Definition _worker (fuel : nat) : M U unit :=
  acatch "_worker" (_worker_loop fuel);; ret tt.

End Methods.

(** ** Vocabulary of the statements *)

(** The state a first call of [set_error_state] leaves, and what it logs. *)
Definition quarantined_state (m : BaseModule) : BaseModule :=
  set_incoming QFalse (set_errored true m).

Definition set_error_trace (cfg : config) (message : option string)
    (m : BaseModule) : list action :=
  match message with
  | Some s => [Log LWarning (Text s)]
  | None => []
  end
  ++ [Log LDebug (Text ("Setting error state for module " +:+ name cfg))]
  ++ match _incoming_event_queue m with
     | QFalse => []
     | _ => [Log LDebug (Text "Emptying event_queue")]
     end.

(** What a callback does to the module: nothing, unless it calls
    [set_error_state] on a module that is not yet in error state. *)
Definition user_effect {U A} (r : reply U A) (m : BaseModule) : BaseModule :=
  match quarantine r with
  | Some _ => if errored m then m else quarantined_state m
  | None => m
  end.

Definition user_trace {U A} (cfg : config) (r : reply U A) (m : BaseModule)
    : list action :=
  match quarantine r with
  | Some message => if errored m then [] else set_error_trace cfg message m
  | None => []
  end.

Definition outcome_result {A} (o : A + exn) : result A :=
  match o with
  | inl a => Return a
  | inr e => Raise e
  end.

Definition outcome_ok {A} (o : A + exn) : bool :=
  match o with
  | inl _ => true
  | inr _ => false
  end.

(** Post-check turns the event down before any user code runs. *)
Definition postcheck_rejects {U} (cfg : config) (scan : Scan) (cb : callbacks U)
    (e : event) (w : world U) : Prop :=
  exists reason,
    _event_postcheck cfg scan cb e w = (Return (false, reason), w, []).

(** The event is stopped by the whitelist rule for active modules. *)
Definition fails_whitelist (cfg : config) (scan : Scan) (e : event) : Prop :=
  "active" ∈ flags cfg /\ "target" ∈ tags e /\ whitelist scan e = false.

(** The set [get_watched_events] answers with. *)
Definition watched_now (cfg : config) (m : BaseModule) : gset string :=
  default (list_to_set (watched_events cfg)) (_watched_events m).

(** ** Concrete modules and events *)

(** A callback that returns [a] and leaves the module alone. *)
Definition quiet {A} (a : A) : unit -> reply unit A :=
  fun u => Reply None (inl a) u.

(** A callback that raises [e]. *)
Definition failing {A} (e : exn) : unit -> reply unit A :=
  fun u => Reply None (inr e) u.

(** The class attributes of [BaseModule] as declared. *)
Definition base_config : config :=
  {| watched_events := []; flags := []; scope_distance_modifier := Some 0;
     target_only := false; in_scope_only := false; max_event_handlers := 1;
     batch_size := 1; batch_wait := 10; _qsize := 0; _name := "base";
     _type := "scan" |}.

(** A module that keeps the coroutines [BaseModule] declares ([setup] and
    [filter_event] return [True], the others return [None]) and overrides
    [handle_batch] with a coroutine that returns [None]: the declared
    [handle_batch] is a plain [def], whose result cannot be awaited. *)
Definition base_callbacks : callbacks unit :=
  {| setup := quiet PTrue; handle_event := fun _ => quiet tt;
     handle_batch := fun _ => quiet tt; filter_event := fun _ => quiet PTrue;
     finish := quiet tt; report := quiet tt; cleanup := quiet tt;
     cleanup_callbacks := [] |}.

(** A scan that mints nothing: every [make_event] is invalid. *)
Definition strict_scan : Scan :=
  {| stopping := false; scope_search_distance := 0; whitelist := fun _ => true;
     scan_make_event := fun _ _ => Invalid "invalid event data" |}.

Definition plain_event (i : nat) (t : string) (d : Z) : event :=
  {| uid := i; type := t; scope_distance := d; tags := ∅; source := None;
     module := None; priority := 3 |}.

Definition fresh_world : world unit := World init tt.

Definition world_with_incoming (q : list event) : world unit :=
  World (set_incoming (QLive q) init) tt.

Definition in_scope_config : config :=
  {| watched_events := ["DNS_NAME"]; flags := ["passive"];
     scope_distance_modifier := Some 0;
     target_only := false; in_scope_only := true; max_event_handlers := 1;
     batch_size := 1; batch_wait := 10; _qsize := 0; _name := "scoped";
     _type := "scan" |}.

(** A port scanner that takes both ranges and single addresses. *)
Definition portscan_config : config :=
  {| watched_events := ["IP_RANGE"; "IP_ADDRESS"]; flags := ["active"];
     scope_distance_modifier := Some 0;
     target_only := false; in_scope_only := false; max_event_handlers := 1;
     batch_size := 1; batch_wait := 10; _qsize := 0; _name := "portscan";
     _type := "scan" |}.

Definition ip_range : event := plain_event 1 "IP_RANGE" 0.

(** An address that the speculation module derived from [ip_range]. *)
Definition speculated_ip : event :=
  {| uid := 2; type := "IP_ADDRESS"; scope_distance := 0; tags := ∅;
     source := Some ip_range; module := Some "speculate"; priority := 3 |}.

(** A module whose [filter_event] crashes. *)
Definition crashing_filter : callbacks unit :=
  {| setup := quiet PTrue; handle_event := fun _ => quiet tt;
     handle_batch := fun _ => quiet tt;
     filter_event := fun _ => failing (Exception_ "boom");
     finish := quiet tt; report := quiet tt; cleanup := quiet tt;
     cleanup_callbacks := [] |}.

(** The end of an accepting post-check: an output module counts the event
    once, and the acceptance is logged. *)
Definition produced_once (cfg : config) (e : event) (m : BaseModule) : bool :=
  String.eqb (_type cfg) "output" && negb (bool_decide (uid e ∈ stats_recorded m)).

Definition accept_state (cfg : config) (e : event) (m : BaseModule) : BaseModule :=
  if produced_once cfg e m
  then set_stats_recorded ({[uid e]} ∪ stats_recorded m) m
  else m.

Definition accept_trace (cfg : config) (e : event) (m : BaseModule) : list action :=
  (if produced_once cfg e m then [EventProduced e] else [])
  ++ [Log LDebug (PassedPostCheck e)].

(** The verdict of the custom filter on the value [filter_event] returned:
    [None] lets the event through. *)
Definition filter_verdict (v : pyval) : option (bool * string) :=
  let '(filter_result, msg) :=
    unpack_filter_result _custom_filter_criteria_msg v in
  if negb (truthy filter_result) then Some (false, msg) else None.
(** Python's [repr] on the values of the model, for concrete runs.  A string
    is put between single quotes, or between double quotes when it holds a
    single quote and no double quote; the backslash, the chosen quote and the
    control characters are escaped.  Bytes above 127 are taken to spell
    printable characters and are left as they are. *)
Definition squote : Ascii.ascii := Ascii.ascii_of_N 39.
Definition dquote : Ascii.ascii := Ascii.ascii_of_N 34.
Definition backslash : Ascii.ascii := Ascii.ascii_of_N 92.

Definition hex_digit (n : N) : Ascii.ascii :=
  Ascii.ascii_of_N (if (n <? 10)%N then 48 + n else 87 + n)%N.

Definition string_has (c : Ascii.ascii) (s : string) : bool :=
  existsb (Ascii.eqb c) (String.list_ascii_of_string s).

Definition repr_char (quote c : Ascii.ascii) : string :=
  let n := Ascii.N_of_ascii c in
  if Ascii.eqb c backslash then String backslash (String backslash EmptyString)
  else if Ascii.eqb c quote then String backslash (String quote EmptyString)
  else if (n =? 9)%N then String backslash "t"
  else if (n =? 10)%N then String backslash "n"
  else if (n =? 13)%N then String backslash "r"
  else if (n <? 32)%N || (n =? 127)%N
  then String backslash
         ("x" +:+ String (hex_digit (n / 16)%N)
                    (String (hex_digit (n mod 16)%N) EmptyString))
  else String c EmptyString.

Fixpoint repr_chars (quote : Ascii.ascii) (s : string) : string :=
  match s with
  | EmptyString => EmptyString
  | String c s' => repr_char quote c +:+ repr_chars quote s'
  end.

Definition str_repr (s : string) : string :=
  let quote :=
    if string_has squote s && negb (string_has dquote s) then dquote else squote in
  String quote (repr_chars quote s +:+ String quote EmptyString).

Definition atom_repr (a : atom) : string :=
  match a with
  | AStr s => str_repr s
  | ANone | ABool _ | AInt _ => atom_str a
  end.

Definition plain_repr (v : pyval) : string :=
  match v with
  | PAtom a => atom_repr a
  | PTuple [] => "()"
  | PTuple [a] => "(" +:+ atom_repr a +:+ ",)"
  | PTuple items => "(" +:+ String.concat ", " (map atom_repr items) +:+ ")"
  end.

(** A module whose [setup] returns [False]. *)
Definition refusing_setup : callbacks unit :=
  {| setup := quiet PFalse; handle_event := fun _ => quiet tt;
     handle_batch := fun _ => quiet tt; filter_event := fun _ => quiet PTrue;
     finish := quiet tt; report := quiet tt; cleanup := quiet tt;
     cleanup_callbacks := [] |}.

(** A module whose [setup] raises [WordlistError("missing list")]. *)
Definition missing_wordlist : callbacks unit :=
  {| setup := failing (WordlistError "missing list");
     handle_event := fun _ => quiet tt;
     handle_batch := fun _ => quiet tt; filter_event := fun _ => quiet PTrue;
     finish := quiet tt; report := quiet tt; cleanup := quiet tt;
     cleanup_callbacks := [] |}.

(** A module with one output waiting for the controller and one worker held
    at the backpressure gate. *)
Definition world_with_outgoing (q : list out_item) : world unit :=
  World (set_waiters EventDequeued 1 (set_outgoing (Some q) init)) tt.

(** ** Specifications of methods

    [obeys Q allowed counters R m]: run from a module that satisfies [Q], the
    computation [m] leaves a module that satisfies [Q], enters and leaves
    only the callbacks [allowed] selects, moves the task counter only if
    [counters] holds, and returns only values that satisfy [R]. *)

Definition permits (allowed : callback -> bool) (counters : bool) (a : action) : Prop :=
  match a with
  | Enter c _ | Leave c _ => allowed c = true
  | CounterInc | CounterDec => counters = true
  | _ => True
  end.

Definition obeys {U A} (Q : BaseModule -> Prop) (allowed : callback -> bool)
    (counters : bool) (R : A -> Prop) (m : M U A) : Prop :=
  forall w : world U,
    Q (self w) ->
    Q (state_of (m w))
    /\ Forall (permits allowed counters) (trace_of (m w))
    /\ (forall a, result_of (m w) = Return a -> R a).

(** The module is quarantined: in error state with its incoming queue
    disabled. *)
Definition quarantined (m : BaseModule) : Prop :=
  errored m = true /\ _incoming_event_queue m = QFalse.

(** A property of modules that only reads [errored] and the incoming slot,
    and that no change the runtime makes to them breaks. *)
Record stable (Q : BaseModule -> Prop) : Prop := {
  stable_frame : forall m m',
    errored m' = errored m ->
    _incoming_event_queue m' = _incoming_event_queue m -> Q m -> Q m';
  stable_quarantine : forall m, Q m -> Q (quarantined_state m);
  stable_create : forall m,
    Q m -> _incoming_event_queue m = QNone -> Q (set_incoming (QLive []) m);
  stable_live : forall m l l',
    Q m -> _incoming_event_queue m = QLive l -> Q (set_incoming (QLive l') m)
}.

Definition any_module (m : BaseModule) : Prop := True.
Definition any_value {A} (a : A) : Prop := True.

(** ** Calls from outside

    What the scan controller, the workers of the module and user code do to
    a module between two observations: they call its methods. *)

Inductive call :=
| CallSetErrorState (message : option string)
| CallQueueEvent (e : event)
| CallEmitEvent (args : list pyval) (kw : kwargs)
| CallDequeueOutgoingEvent
| CallSetup
| CallCleanup
| CallWorker (fuel : nat).

(** The world a computation leaves. *)
Definition after {U A} (m : M U A) (w : world U) : world U := (m w).1.2.

Definition run_call {U} (cfg : config) (scan : Scan) (cb : callbacks U)
    (py_repr : pyval -> string) (c : call) (w : world U) : world U :=
  match c with
  | CallSetErrorState message => after (set_error_state cfg message) w
  | CallQueueEvent e => after (queue_event cfg e) w
  | CallEmitEvent args kw => after (emit_event cfg scan args kw) w
  | CallDequeueOutgoingEvent => after dequeue_outgoing_event w
  | CallSetup => after (_setup cfg cb py_repr) w
  | CallCleanup => after (_cleanup cfg cb) w
  | CallWorker fuel => after (_worker cfg scan cb fuel) w
  end.

(** [later w w']: the module gets from [w] to [w'] by a sequence of calls. *)
Definition later {U} (cfg : config) (scan : Scan) (cb : callbacks U)
    (py_repr : pyval -> string) : world U -> world U -> Prop :=
  rtc (fun w w' => exists c, w' = run_call cfg scan cb py_repr c w).

Definition every_callback (c : callback) : bool := true.

(** A module with two events waiting. *)
Definition busy_world : world unit :=
  world_with_incoming [plain_event 1 "DNS_NAME" 0; plain_event 2 "DNS_NAME" 0].

(** ** Reading traces *)

Definition callback_eqb (c c' : callback) : bool :=
  match c, c' with
  | CbSetup, CbSetup | CbHandleEvent, CbHandleEvent
  | CbHandleBatch, CbHandleBatch | CbFilterEvent, CbFilterEvent
  | CbFinish, CbFinish | CbReport, CbReport | CbCleanup, CbCleanup => true
  | _, _ => false
  end.

(** The callback [c] was invoked in the course of the trace. *)
Definition invoked (c : callback) (t : list action) : bool :=
  existsb (fun a => match a with
                    | Enter c' _ => callback_eqb c c'
                    | _ => false
                    end) t.

(** The callbacks whose invocations the task counter is to count. *)
Definition counted (c : callback) : bool :=
  match c with
  | CbHandleEvent | CbHandleBatch | CbFinish | CbReport | CbCleanup => true
  | CbSetup | CbFilterEvent => false
  end.

(** Follows the value of the task counter and the number of counted
    invocations in flight along a trace.  The flag stays true as long as
    every counted invocation starts with the counter already raised for it:
    while it runs, the counter equals the number of invocations in flight. *)
Definition counter_step (s : Z * Z * bool) (a : action) : Z * Z * bool :=
  let '(value, inflight, ok) := s in
  match a with
  | CounterInc => (value + 1, inflight, ok)
  | CounterDec => (value - 1, inflight, ok)
  | Enter c _ =>
      if counted c then (value, inflight + 1, ok && (value =? inflight + 1))
      else s
  | Leave c _ => if counted c then (value, inflight - 1, ok) else s
  | _ => s
  end.

Definition counter_tracks (value : Z) (t : list action) : bool :=
  let '(value', inflight', ok) := foldl counter_step (value, value, true) t in
  ok && (value' =? inflight').

(** The batch module of the first end-to-end scenario. *)
Definition batch_config : config :=
  {| watched_events := ["DNS_NAME"]; flags := ["passive"];
     scope_distance_modifier := Some 0;
     target_only := false; in_scope_only := false; max_event_handlers := 1;
     batch_size := 3; batch_wait := 1; _qsize := 0; _name := "batchy";
     _type := "scan" |}.

Definition finished_event : event := plain_event 9 "FINISHED" 0.

(** What a batch may hold: at most [batch_size + 1] events, none of them
    FINISHED. *)
Definition batch_ok (cfg : config) (events : list event) : Prop :=
  Z.of_nat (length events) <= batch_size cfg + 1
  /\ Forall (fun e => type e <> "FINISHED") events.

Definition nonempty {A} (l : list A) : bool :=
  match l with
  | [] => false
  | _ :: _ => true
  end.

Definition only_filter (c : callback) : bool := callback_eqb CbFilterEvent c.

(** The first end-to-end scenario: events A and B, then FINISHED. *)
Definition scenario_batch : world unit :=
  world_with_incoming
    [plain_event 1 "DNS_NAME" 0; plain_event 2 "DNS_NAME" 0; finished_event].

(** An event beyond the search distance of [strict_scan]. *)
Definition far_event : event := plain_event 5 "DNS_NAME" 4.

Definition no_callback (c : callback) : bool := false.

(** An action that neither runs a callback nor moves the task counter. *)
Definition quiet_action (a : action) : Prop := permits no_callback false a.

(** The part of the trace of [_handle_batch] that submits the batch. *)
Definition batch_part (events : list event) (t : list action) : Prop :=
  match events with
  | [] => t = []
  | _ :: _ =>
      exists n1 ok n2,
        t = CounterInc :: Enter CbHandleBatch events
              :: n1 ++ Leave CbHandleBatch ok :: CounterDec :: n2
        /\ Forall quiet_action n1 /\ Forall quiet_action n2
  end.

(** The part that calls [finish] when the flag is set. *)
Definition finish_part (finish_ : bool) (t : list action) : Prop :=
  if finish_ then
    exists n1 ok n2,
      t = Enter CbFinish [] :: n1 ++ Leave CbFinish ok :: n2
      /\ Forall quiet_action n1 /\ Forall quiet_action n2
  else t = [].

(** An action that leaves the task counter and the counted invocations
    alone. *)
Definition uncounted_action (a : action) : Prop :=
  permits (fun c => negb (counted c)) false a.

(** A batch module with nothing but FINISHED in its queue. *)
Definition finishing_batch : world unit := world_with_incoming [finished_event].

(** A batch module whose only waiting event is out of scope. *)
Definition idle_batch : world unit := world_with_incoming [far_event].

Definition not_report (c : callback) : bool := negb (callback_eqb CbReport c).

(** The user callbacks a trace runs, in order, with their arguments. *)
Definition calls (t : list action) : list (callback * list event) :=
  omap (fun a => match a with
                 | Enter c args => Some (c, args)
                 | _ => None
                 end) t.

(** The second end-to-end scenario: events at scope distances 0, 0, 1, 2. *)
Definition scenario_scope : world unit :=
  world_with_incoming
    [plain_event 1 "DNS_NAME" 0; plain_event 2 "DNS_NAME" 0;
     plain_event 3 "DNS_NAME" 1; plain_event 4 "DNS_NAME" 2].

(** ** Further methods of [BaseModule] *)

Definition set_request_failures (n : Z) (m : BaseModule) : BaseModule :=
  {| errored := errored m;
     _incoming_event_queue := _incoming_event_queue m;
     _outgoing_event_queue := _outgoing_event_queue m;
     _last_submitted_batch := _last_submitted_batch m;
     _cleanedup := _cleanedup m;
     _watched_events := _watched_events m;
     _task_counter := _task_counter m;
     _request_failures := n;
     received_waiters := received_waiters m;
     dequeued_waiters := dequeued_waiters m;
     stats_recorded := stats_recorded m |}.

(** [is_spider_danger].  [scan_config] holds the integer options of
    [scan.config]; [source_distance] is the attribute [web_spider_distance]
    of the source event, if it has one; [url_depth] is what
    [helpers.url_depth(url)] answers. *)
Definition is_spider_danger (scan_config : gmap string Z)
    (source_distance : option Z) (url_depth : Z) : bool :=
  let web_spider_depth := default 1 (scan_config !! "web_spider_depth") in
  let spider_distance := default 0 source_distance + 1 in
  let web_spider_distance := default 0 (scan_config !! "web_spider_distance") in
  (web_spider_depth <? url_depth) || (web_spider_distance <? spider_distance).

(** The dictionary [status] answers with. *)
Record status_envelope := {
  status_incoming : Z;
  status_outgoing : Z;
  status_tasks : Z;
  status_errored : bool;
  status_running : bool
}.

Section MoreMethods.
Context {U : Type}.
Variable cfg : config.
(** The class attribute [failed_request_abort_threshold]. *)
Variable failed_request_abort_threshold : Z.
(** Python's [format(n, ",")], which renders the count in the warning. *)
Variable format_thousands : Z -> string.

(** [running] property *)
Definition running : M U bool :=
  m <~ get_self;
  ret (0 <? _task_counter m).

(** [finished] property; [and] evaluates its right operand only when the
    left one holds. *)
Definition finished : M U bool :=
  r <~ running;
  if negb r then
    n <~ num_incoming_events;
    if n <=? 0 then
      q <~ outgoing_event_queue;
      ret (Z.of_nat (length q) <=? 0)
    else ret false
  else ret false.

(** [status] property *)
Definition status : M U status_envelope :=
  incoming <~ num_incoming_events;
  q <~ outgoing_event_queue;
  m <~ get_self;
  r <~ running;
  ret {| status_incoming := incoming;
         status_outgoing := Z.of_nat (length q);
         status_tasks := _task_counter m;
         status_errored := errored m;
         status_running := r |}.

(** [request_with_fail_count], given what [helpers.request] answered *)
Definition request_with_fail_count {R : Type} (r : option R) : M U (option R) :=
  m <~ get_self;
  match r with
  | None => modify_self (set_request_failures (_request_failures m + 1))
  | Some _ => modify_self (set_request_failures 0)
  end;;
  m <~ get_self;
  (if failed_request_abort_threshold <=? _request_failures m then
     set_error_state cfg
       (Some ("Setting error state due to "
              +:+ format_thousands (_request_failures m)
              +:+ " failed HTTP requests"))
   else ret tt);;
  ret r.

(** A run of requests made one after the other. *)
Fixpoint requests_with_fail_count {R : Type} (rs : list (option R)) : M U unit :=
  match rs with
  | [] => ret tt
  | r :: rs' => request_with_fail_count r;; requests_with_fail_count rs'
  end.

End MoreMethods.

(** ** Vocabulary of the further statements *)

(** What every method keeps between the module it finds and the module it
    leaves: the error state and the disabled queue stay, the cleanup latch
    stays, and the task counter is back at its value. *)
Definition settled (m m' : BaseModule) : Prop :=
  (errored m = true -> errored m' = true)
  /\ (_incoming_event_queue m = QFalse -> _incoming_event_queue m' = QFalse)
  /\ (_cleanedup m = true -> _cleanedup m' = true)
  /\ _task_counter m' = _task_counter m.

Definition settles {U A} (c : M U A) : Prop :=
  forall w : world U, settled (self w) (state_of (c w)).

(** The computation is never left parked at an [await]: it returns or
    raises. *)
Definition completes {U A} (c : M U A) : Prop :=
  forall w : world U,
    match result_of (c w) with
    | Return _ | Raise _ => True
    | Suspend _ | OutOfFuel => False
    end.

(** The items waiting in the incoming slot. *)
Definition slot_items (q : queue_slot) : list event :=
  match q with
  | QLive l => l
  | QNone | QFalse => []
  end.

(** A module whose [cleanup] raises and which registered two more cleanup
    callbacks. *)
Definition untidy_callbacks : callbacks unit :=
  {| setup := quiet PTrue; handle_event := fun _ => quiet tt;
     handle_batch := fun _ => quiet tt; filter_event := fun _ => quiet PTrue;
     finish := quiet tt; report := quiet tt;
     cleanup := failing (Exception_ "disk full");
     cleanup_callbacks := [quiet tt; quiet tt] |}.

(** The keyword arguments [emit_event] keeps for the controller. *)
Definition emit_options : list string :=
  ["on_success_callback"; "abort_if"; "quick"].

(** A scan that mints a bare event of type DNS_NAME for whatever it is
    given. *)
Definition lenient_scan : Scan :=
  {| stopping := false; scope_search_distance := 0; whitelist := fun _ => true;
     scan_make_event := fun _ _ => Minted (plain_event 11 "DNS_NAME" 0) |}.

(** An output module. *)
Definition output_config : config :=
  {| watched_events := ["*"]; flags := ["passive"];
     scope_distance_modifier := None;
     target_only := false; in_scope_only := false; max_event_handlers := 1;
     batch_size := 1; batch_wait := 10; _qsize := 0; _name := "json";
     _type := "output" |}.

(** A module whose [filter_event] returns [(False, "too noisy")]. *)
Definition picky_filter : callbacks unit :=
  {| setup := quiet PTrue; handle_event := fun _ => quiet tt;
     handle_batch := fun _ => quiet tt;
     filter_event := fun _ => quiet (PTuple [ABool false; AStr "too noisy"]);
     finish := quiet tt; report := quiet tt; cleanup := quiet tt;
     cleanup_callbacks := [] |}.

(** A module with a bounded outgoing queue. *)
Definition bounded_config : config :=
  {| watched_events := ["DNS_NAME"]; flags := ["passive"];
     scope_distance_modifier := Some 0;
     target_only := false; in_scope_only := false; max_event_handlers := 1;
     batch_size := 1; batch_wait := 10; _qsize := 2; _name := "bounded";
     _type := "scan" |}.

(** A module whose incoming queue has been disabled. *)
Definition disabled_world : world unit := World (set_incoming QFalse init) tt.

(** An outgoing queue holding two events for the controller. *)
Definition full_outgoing : list out_item :=
  [(Some (plain_event 1 "DNS_NAME" 0), ∅); (Some (plain_event 2 "DNS_NAME" 0), ∅)].

(** Keyword arguments asking [emit_event] to re-raise. *)
Definition raising_kwargs : kwargs := {["raise_error" := PTrue]}.

(** A scan configuration that sets no spider option. *)
Definition default_scan_config : gmap string Z := ∅.

(** A scan configuration that lets the spider go two links away and three
    directories deep. *)
Definition spider_scan_config : gmap string Z :=
  {["web_spider_distance" := 2; "web_spider_depth" := 3]}.

(** A module whose [setup] returns the string "ok". *)
Definition chatty_setup : callbacks unit :=
  {| setup := quiet (PAtom (AStr "ok")); handle_event := fun _ => quiet tt;
     handle_batch := fun _ => quiet tt; filter_event := fun _ => quiet PTrue;
     finish := quiet tt; report := quiet tt; cleanup := quiet tt;
     cleanup_callbacks := [] |}.

(** ** The run of [events_waiting] *)

Definition is_finished (e : event) : bool := String.eqb (type e) "FINISHED".

(** The verdict of post-check, as [events_waiting] reads it. *)
Definition passed (r : result (bool * string)) : bool :=
  match r with
  | Return (acceptable, _) => acceptable
  | _ => false
  end.

(** The events a run took off the incoming queue, in the order it took
    them: each is logged ("Got ...") as it is taken. *)
Definition drained (t : list action) : list event :=
  omap (fun a => match a with
                 | Log _ (Got e) => Some e
                 | _ => None
                 end) t.

Section Runs.
Context {U : Type}.
Variable cfg : config.
Variable scan : Scan.
Variable cb : callbacks U.

(** The checks of a run that starts in [w] and takes the events [taken] off
    the queue, one after the other: each event with the world in which
    [_event_postcheck] is called on it, the event gone from the queue and
    the earlier checks done. *)
Fixpoint checked_in (taken : list event) (w : world U)
    : list (event * world U) :=
  match taken with
  | [] => []
  | e :: taken' =>
      let w0 := after incoming_get_nowait w in
      (e, w0) :: checked_in taken' (after (_event_postcheck cfg scan cb e) w0)
  end.

(** Post-check accepted the event in the world the run checked it in. *)
Definition passes (c : event * world U) : bool :=
  passed (result_of (_event_postcheck cfg scan cb c.1 c.2)).

(** The events among those checked that passed and are not FINISHED. *)
Definition batch_of (checks : list (event * world U)) : list event :=
  List.map fst
    (List.filter (fun c => passes c && negb (is_finished c.1)) checks).

End Runs.

(** A module that overrides [handle_batch] with a coroutine and whose
    [filter_event] turns down every event at scope distance 1 or more. *)
Definition choosy_batcher : callbacks unit :=
  {| setup := quiet PTrue; handle_event := fun _ => quiet tt;
     handle_batch := fun _ => quiet tt;
     filter_event := fun e => quiet (PAtom (ABool (scope_distance e <? 1)));
     finish := quiet tt; report := quiet tt; cleanup := quiet tt;
     cleanup_callbacks := [] |}.

(** A queue with an event the filter of [choosy_batcher] turns down, one it
    lets through, and FINISHED. *)
Definition mixed_batch : world unit :=
  world_with_incoming
    [plain_event 1 "DNS_NAME" 1; plain_event 2 "DNS_NAME" 0; finished_event].

(** A scan that searches one step beyond its targets. *)
Definition wide_scan : Scan :=
  {| stopping := false; scope_search_distance := 1; whitelist := fun _ => true;
     scan_make_event := fun _ _ => Invalid "invalid event data" |}.

(** * Verification *)

(** ** Attribute assignments commute with the reads they do not concern *)

Lemma set_incoming_same m :
  set_incoming (_incoming_event_queue m) m = m.
Proof. by destruct m. Qed.

Lemma set_incoming_twice q q' m :
  set_incoming q (set_incoming q' m) = set_incoming q m.
Proof. by destruct m. Qed.

(** Runs the monad as far as the primitives go. *)
Ltac msimpl :=
  repeat progress
    (cbv beta iota zeta delta
       [bind ret emit raise suspend out_of_fuel modify_self get_self warning
        debug self user slot_truthy];
     cbn [app negb andb orb]).

Section Quarantine.
Context {U : Type}.
Variable cfg : config.

Lemma incoming_event_queue_live l (m : BaseModule) (u : U) :
  _incoming_event_queue m = QLive l ->
  incoming_event_queue (World m u) = (Return (QLive l), World m u, []).
Proof. intros Hq. unfold incoming_event_queue, bind, get_self. cbn. by rewrite Hq. Qed.

Lemma incoming_event_queue_false (m : BaseModule) (u : U) :
  _incoming_event_queue m = QFalse ->
  incoming_event_queue (World m u) = (Return QFalse, World m u, []).
Proof. intros Hq. unfold incoming_event_queue, bind, get_self. cbn. by rewrite Hq. Qed.

Lemma incoming_event_queue_none (m : BaseModule) (u : U) :
  _incoming_event_queue m = QNone ->
  incoming_event_queue (World m u)
  = (Return (QLive []), World (set_incoming (QLive []) m) u, []).
Proof. intros Hq. unfold incoming_event_queue, bind, get_self. cbn. by rewrite Hq. Qed.

Lemma incoming_get_nowait_cons e l (m : BaseModule) (u : U) :
  _incoming_event_queue m = QLive (e :: l) ->
  incoming_get_nowait (World m u)
  = (Return e, World (set_incoming (QLive l) m) u, []).
Proof.
  intros Hq. unfold incoming_get_nowait, bind.
  by rewrite (incoming_event_queue_live _ _ _ Hq).
Qed.

Lemma incoming_get_nowait_nil (m : BaseModule) (u : U) :
  _incoming_event_queue m = QLive [] ->
  incoming_get_nowait (World m u) = (Raise QueueEmpty, World m u, []).
Proof.
  intros Hq. unfold incoming_get_nowait, bind.
  by rewrite (incoming_event_queue_live _ _ _ Hq).
Qed.

Lemma get_nowait_forever_S n (w : world U) :
  get_nowait_forever (S n) w = (incoming_get_nowait;; get_nowait_forever n) w.
Proof. reflexivity. Qed.

(** The loop that empties the queue takes every item and stops on
    [QueueEmpty]; the fuel [set_error_state] gives it is enough. *)
Lemma get_nowait_forever_empties (l : list event) (m : BaseModule) (u : U) :
  _incoming_event_queue m = QLive l ->
  get_nowait_forever (S (length l)) (World m u)
  = (Raise QueueEmpty, World (set_incoming (QLive []) m) u, []).
Proof.
  revert m. induction l as [|e l IH]; intros m Hq; cbn [length];
    rewrite get_nowait_forever_S; unfold bind.
  - rewrite (incoming_get_nowait_nil _ _ Hq).
    by rewrite <- Hq, set_incoming_same.
  - rewrite (incoming_get_nowait_cons _ _ _ _ Hq).
    rewrite (IH (set_incoming (QLive l) m)) by (by destruct m).
    by rewrite set_incoming_twice.
Qed.

Lemma set_error_state_eq (message : option string) (m : BaseModule) (u : U) :
  set_error_state cfg message (World m u)
  = if errored m then (Return tt, World m u, [])
    else (Return tt, World (quarantined_state m) u, set_error_trace cfg message m).
Proof.
  unfold set_error_state, quarantined_state, set_error_trace.
  unfold bind at 1. unfold get_self. cbn [self user].
  destruct (errored m) eqn:He; [reflexivity|]. cbn [negb].
  assert (Hdrain : forall l m',
    _incoming_event_queue m' = QLive l ->
    try_except (get_nowait_forever (S (slot_size (QLive l)))) is_QueueEmpty
      (fun _ => ret tt) (World m' u)
    = (Return tt, World (set_incoming (QLive []) m') u, [])).
  { intros l m' Hq. unfold try_except. cbn [slot_size].
    by rewrite (get_nowait_forever_empties _ _ _ Hq). }
  destruct (_incoming_event_queue m) as [| |l] eqn:Hq; destruct message; msimpl.
  1,2: rewrite incoming_event_queue_none by (by destruct m); msimpl;
       rewrite (Hdrain []) by (by destruct m); msimpl; by destruct m.
  1,2: rewrite incoming_event_queue_false by (by destruct m); msimpl;
       destruct m; cbn in *; by subst.
  1,2: rewrite (incoming_event_queue_live l) by (by destruct m); msimpl;
       rewrite (Hdrain l) by (by destruct m); msimpl; by destruct m.
Qed.

End Quarantine.

(** ** User callbacks in closed form *)

Section Admission.
Context {U : Type}.
Variable cfg : config.
Variable scan : Scan.
Variable cb : callbacks U.

Lemma call_user_eq {A} (c : callback) (args : list event) (f : U -> reply U A)
    (m : BaseModule) (u : U) :
  call_user cfg c args f (World m u)
  = (outcome_result (outcome (f u)),
     World (user_effect (f u) m) (next (f u)),
     Enter c args :: user_trace cfg (f u) m ++ [Leave c (outcome_ok (outcome (f u)))]).
Proof.
  unfold call_user, user_effect, user_trace. msimpl.
  destruct (f u) as [[message|] o u']; cbn [quarantine outcome next].
  - rewrite set_error_state_eq.
    destruct (errored m), o; reflexivity.
  - destruct o; reflexivity.
Qed.

(** The gate never crashes: [max_scope_distance] is only read when the
    modifier is set. *)
Lemma scope_gate_no_crash (e : event) (x : exn) : scope_gate cfg scan e <> Crash x.
Proof.
  unfold scope_gate, max_scope_distance.
  repeat case_match; congruence.
Qed.

Lemma scope_gate_in_scope_only (e : event) :
  _type cfg <> "output" -> in_scope_only cfg = true -> 0 < scope_distance e ->
  scope_gate cfg scan e = Reject "it did not meet in_scope_only filter criteria".
Proof.
  intros Hty His Hsd. unfold scope_gate.
  apply String.eqb_neq in Hty. rewrite Hty, His. cbn.
  by rewrite (proj2 (Z.ltb_lt _ _) Hsd).
Qed.

Lemma scope_gate_distance (e : event) (k : Z) :
  _type cfg <> "output" -> scope_distance_modifier cfg = Some k ->
  scope_distance e < 0 \/
  scope_distance e > (if in_scope_only cfg || target_only cfg then 0
                      else Z.max 0 (scope_search_distance scan + k)) ->
  exists reason, scope_gate cfg scan e = Reject reason.
Proof.
  intros Hty Hk Hsd. unfold scope_gate, max_scope_distance.
  apply String.eqb_neq in Hty. rewrite Hty, Hk. cbn [negb].
  destruct (in_scope_only cfg && (0 <? scope_distance e)); [by eexists|].
  destruct (scope_distance e <? 0) eqn:Hneg; [by eexists|].
  apply Z.ltb_ge in Hneg.
  destruct Hsd as [Hsd|Hsd]; [lia|].
  destruct (in_scope_only cfg || target_only cfg).
  - rewrite (proj2 (Z.ltb_lt 0 (scope_distance e))) by lia. by eexists.
  - rewrite (proj2 (Z.ltb_lt _ (scope_distance e))) by lia. by eexists.
Qed.

End Admission.

Section AdmissionClaims.
Context {U : Type}.
Variable cfg : config.
Variable scan : Scan.
Variable cb : callbacks U.

Lemma whitelist_passes (e : event) :
  ~ fails_whitelist cfg scan e ->
  bool_decide ("active" ∈ flags cfg) && bool_decide ("target" ∈ tags e)
    && negb (whitelist scan e) = false.
Proof.
  intros Hw. apply not_true_is_false. intros H.
  apply andb_prop in H as [H H3]. apply andb_prop in H as [H1 H2].
  apply bool_decide_eq_true in H1, H2. apply negb_true_iff in H3.
  by apply Hw.
Qed.

(** C6.  Scope gating.  A non-FINISHED event dispatched to a module that is
    not an output module, and that the whitelist rule lets through, is
    rejected by post-check when the module is [in_scope_only] and the event's
    scope distance is positive; and when the module's
    [scope_distance_modifier] is set, it is rejected when its scope distance
    is negative or exceeds [max_scope_distance], which is 0 for an
    [in_scope_only] or [target_only] module and
    [max(0, scan.scope_search_distance + scope_distance_modifier)]
    otherwise.  The rejection happens before any user code runs and leaves
    the module as it was. *)
Theorem scope_gating (e : event) (w : world U) :
  type e <> "FINISHED" ->
  _type cfg <> "output" ->
  ~ fails_whitelist cfg scan e ->
  (in_scope_only cfg = true -> scope_distance e > 0 ->
   postcheck_rejects cfg scan cb e w)
  /\ (forall k : Z,
        scope_distance_modifier cfg = Some k ->
        let limit := if in_scope_only cfg || target_only cfg then 0
                     else Z.max 0 (scope_search_distance scan + k) in
        max_scope_distance cfg scan = Some limit
        /\ (scope_distance e < 0 \/ scope_distance e > limit ->
            postcheck_rejects cfg scan cb e w)).
Proof.
  intros Hfin Hty Hw.
  assert (Hred : forall reason,
    scope_gate cfg scan e = Reject reason -> postcheck_rejects cfg scan cb e w).
  { intros reason Hg. exists reason. unfold _event_postcheck.
    apply String.eqb_neq in Hfin. rewrite Hfin, (whitelist_passes e Hw), Hg.
    reflexivity. }
  split.
  - intros His Hsd. eapply Hred, scope_gate_in_scope_only; [done..|lia].
  - intros k Hk limit. split.
    + unfold max_scope_distance, limit. rewrite Hk.
      by destruct (in_scope_only cfg || target_only cfg).
    + intros Hsd. destruct (scope_gate_distance cfg scan e k Hty Hk Hsd) as [r Hr].
      by eapply Hred.
Qed.

(** C7.  CIDR de-duplication.  An [IP_ADDRESS] event whose source is an
    [IP_RANGE] and whose producing module is "speculate" is rejected by
    pre-check, with reason "module consumes IP ranges directly", by every
    module other than "speculate" that is not in error state, watches the
    event's type, is not stopped by the [target_only] rule, and lists both
    "IP_RANGE" and "IP_ADDRESS" in [watched_events]. *)
Theorem cidr_dedup (e : event) (w : world U) :
  type e = "IP_ADDRESS" ->
  source_type e = "IP_RANGE" ->
  module_str e = "speculate" ->
  errored (self w) = false ->
  name cfg <> "speculate" ->
  "*" ∈ watched_now cfg (self w) \/ "IP_ADDRESS" ∈ watched_now cfg (self w) ->
  (target_only cfg = true -> "target" ∈ tags e) ->
  "IP_RANGE" ∈ watched_events cfg ->
  "IP_ADDRESS" ∈ watched_events cfg ->
  result_of (_event_precheck cfg e w)
  = Return (false, "module consumes IP ranges directly").
Proof.
  intros Hty Hsrc Hmod Herr Hname Hwatch Htarget Hrange Haddr.
  destruct w as [m u]. cbn [self] in *.
  unfold _event_precheck. rewrite Hty, Hsrc, Hmod. cbn [String.eqb Ascii.eqb Bool.eqb].
  msimpl. rewrite Herr.
  assert (Hws : exists m', get_watched_events cfg (World m u)
                           = (Return (watched_now cfg m), World m' u, [])).
  { unfold get_watched_events, watched_now. msimpl.
    destruct (_watched_events m); by eexists. }
  destruct Hws as [m' ->].
  assert (bool_decide ("*" ∈ watched_now cfg m)
          || bool_decide ("IP_ADDRESS" ∈ watched_now cfg m) = true) as ->.
  { apply orb_true_iff. destruct Hwatch; [left|right]; by apply bool_decide_eq_true. }
  assert (target_only cfg && negb (bool_decide ("target" ∈ tags e)) = false) as ->.
  { destruct (target_only cfg); [|done].
    cbn. by rewrite (bool_decide_eq_true_2 _ (Htarget eq_refl)). }
  apply String.eqb_neq in Hname. rewrite Hname.
  cbn [forallb negb andb].
  rewrite (bool_decide_eq_true_2 _ Hrange), (bool_decide_eq_true_2 _ Haddr).
  reflexivity.
Qed.

End AdmissionClaims.

Lemma scope_gating_witness :
  postcheck_rejects in_scope_config strict_scan base_callbacks
    (plain_event 7 "DNS_NAME" 1) fresh_world.
Proof.
  apply (scope_gating in_scope_config strict_scan base_callbacks
           (plain_event 7 "DNS_NAME" 1) fresh_world).
  - discriminate.
  - discriminate.
  - intros [H _]. apply (bool_decide_pack _) in H. by vm_compute in H.
  - reflexivity.
  - reflexivity.
Defined.

Lemma cidr_dedup_witness :
  result_of (_event_precheck portscan_config speculated_ip fresh_world)
  = Return (false, "module consumes IP ranges directly").
Proof.
  apply (cidr_dedup portscan_config speculated_ip fresh_world).
  - reflexivity.
  - reflexivity.
  - reflexivity.
  - reflexivity.
  - discriminate.
  - right. apply (bool_decide_unpack _). by vm_compute.
  - discriminate.
  - apply (bool_decide_unpack _). by vm_compute.
  - apply (bool_decide_unpack _). by vm_compute.
Defined.

Section PostCheck.
Context {U : Type}.
Variable cfg : config.
Variable scan : Scan.
Variable cb : callbacks U.

(** Post-check on an event that reaches the custom filter, in closed form. *)
Lemma postcheck_filter_eq (e : event) (m : BaseModule) (u : U) :
  type e <> "FINISHED" ->
  ~ fails_whitelist cfg scan e ->
  scope_gate cfg scan e = Pass ->
  _event_postcheck cfg scan cb e (World m u)
  = let r := filter_event cb e u in
    let m1 := user_effect r m in
    let t1 := Enter CbFilterEvent [e] :: user_trace cfg r m
              ++ [Leave CbFilterEvent (outcome_ok (outcome r))] in
    match outcome r with
    | inr x =>
        (Return (true, ""), World (accept_state cfg e m1) (next r),
         t1 ++ Caught "filter_event" x :: accept_trace cfg e m1)
    | inl v =>
        match filter_verdict v with
        | Some verdict => (Return verdict, World m1 (next r), t1)
        | None =>
            (Return (true, ""), World (accept_state cfg e m1) (next r),
             t1 ++ accept_trace cfg e m1)
        end
    end.
Proof.
  intros Hfin Hw Hg. unfold _event_postcheck.
  apply String.eqb_neq in Hfin. rewrite Hfin, (whitelist_passes cfg scan e Hw), Hg.
  unfold bind at 1. unfold acatch. unfold bind at 1. rewrite call_user_eq.
  cbv zeta.
  assert (Htail : forall m' (u' : U),
    _event_postcheck_accept cfg e (World m' u')
    = (Return (true, ""), World (accept_state cfg e m') u', accept_trace cfg e m')).
  { intros m' u'.
    unfold _event_postcheck_accept, accept_state, accept_trace, produced_once.
    msimpl.
    by destruct (String.eqb (_type cfg) "output"
                 && negb (bool_decide (uid e ∈ stats_recorded m'))). }
  destruct (outcome (filter_event cb e u)) as [v|x]; cbn [outcome_result outcome_ok].
  - unfold filter_verdict.
    destruct (unpack_filter_result _custom_filter_criteria_msg v) as [fr msg].
    destruct (negb (truthy fr)); cbv beta iota zeta delta [ret].
    + by rewrite !app_nil_r.
    + by rewrite Htail, !app_nil_r.
  - rewrite Htail. by rewrite <- app_assoc.
Qed.

(** C10.  A crashing filter accepts.  For a non-FINISHED event that passes
    the whitelist rule and the scope checks, if the user's [filter_event]
    raises, the error-catching context suppresses the exception,
    [_event_postcheck] skips the rejection branch and returns [(True, "")],
    and the single-event arm hands the event to [handle_event] as if the
    filter had passed. *)
Theorem crashing_filter_accepts (e : event) (w : world U) (x : exn) :
  type e <> "FINISHED" ->
  ~ fails_whitelist cfg scan e ->
  scope_gate cfg scan e = Pass ->
  outcome (filter_event cb e (user w)) = inr x ->
  result_of (_event_postcheck cfg scan cb e w) = Return (true, "")
  /\ Caught "filter_event" x ∈ trace_of (_event_postcheck cfg scan cb e w)
  /\ (forall rest,
        _incoming_event_queue (self w) = QLive (e :: rest) ->
        Enter CbHandleEvent [e] ∈ trace_of (single_arm cfg scan cb w)).
Proof.
  intros Hfin Hw Hg Hx. destruct w as [m u]. cbn [self user] in *.
  rewrite (postcheck_filter_eq e m u Hfin Hw Hg). cbv zeta. rewrite Hx.
  split; [reflexivity|]. split.
  - unfold trace_of. cbn [snd]. set_solver.
  - intros rest Hq. unfold single_arm, try_except, incoming_get. msimpl.
    rewrite (incoming_event_queue_live _ _ _ Hq). msimpl.
    rewrite (incoming_event_queue_live _ _ _ Hq). msimpl.
    rewrite (postcheck_filter_eq e _ u Hfin Hw Hg). cbv zeta. rewrite Hx.
    apply String.eqb_neq in Hfin. rewrite Hfin.
    unfold acatch, with_task_counter, try_finally. msimpl.
    rewrite call_user_eq.
    destruct (outcome (handle_event cb e _)); cbn [outcome_result]; msimpl;
      unfold trace_of; cbn [snd]; set_solver.
Qed.

End PostCheck.

Lemma crashing_filter_accepts_witness :
  result_of (_event_postcheck base_config strict_scan crashing_filter
               (plain_event 7 "DNS_NAME" 0) (world_with_incoming [plain_event 7 "DNS_NAME" 0]))
  = Return (true, "").
Proof.
  apply (crashing_filter_accepts base_config strict_scan crashing_filter
           (plain_event 7 "DNS_NAME" 0)
           (world_with_incoming [plain_event 7 "DNS_NAME" 0]) (Exception_ "boom")).
  - discriminate.
  - intros [H _]. apply (bool_decide_pack _) in H. by vm_compute in H.
  - reflexivity.
  - reflexivity.
Defined.

Section Minting.
Context {U : Type}.
Variable cfg : config.
Variable scan : Scan.

(** A failed minting is re-raised exactly when the caller asked for it, and
    is otherwise answered with [None] after a warning. *)
Lemma make_event_invalid (args : list pyval) (kw : kwargs) (msg : string)
    (w : world U) :
  scan_make_event scan args (delete "raise_error" kw) = Invalid msg ->
  make_event cfg scan args kw w
  = if truthy (default PFalse (kw !! "raise_error"))
    then (Raise (ValidationError msg), w, [])
    else (Return None, w, [Log LWarning (Text msg)]).
Proof.
  intros Hm. unfold make_event. rewrite Hm.
  by destruct (truthy (default PFalse (kw !! "raise_error"))).
Qed.

(** A minted event without attribution is attributed to the minting module. *)
Lemma make_event_minted (args : list pyval) (kw : kwargs) (ev : event)
    (w : world U) :
  scan_make_event scan args (delete "raise_error" kw) = Minted ev ->
  make_event cfg scan args kw w
  = (Return (Some (match module ev with
                   | None => set_module (name cfg) ev
                   | Some _ => ev
                   end)), w, []).
Proof.
  intros Hm. unfold make_event. rewrite Hm. by destruct (module ev).
Qed.

(** C9.  Event-minting errors, at the input where the code departs from the
    claim.  When [scan.make_event] raises a [ValidationError] and the caller
    of [emit_event] did not pass [raise_error], [make_event] returns [None],
    and [emit_event] goes on to put the tuple [(None, emit_kwargs)] on the
    outgoing queue: the event is dropped, but the queue is not left alone. *)
Theorem emit_event_failed_mint (args : list pyval) (kw : kwargs) (msg : string)
    (w : world U) :
  scan_make_event scan args (delete "raise_error" (split_kwargs kw).1) = Invalid msg ->
  truthy (default PFalse ((split_kwargs kw).1 !! "raise_error")) = false ->
  default [] (_outgoing_event_queue (self w)) = [] ->
  result_of (emit_event cfg scan args kw w) = Return tt
  /\ _outgoing_event_queue (state_of (emit_event cfg scan args kw w))
     = Some [(None, (split_kwargs kw).2)].
Proof.
  intros Hm Hr Hq. destruct w as [m u]. cbn [self] in Hq.
  assert (Heq : emit_event cfg scan args kw (World m u)
                = (Return tt,
                   World (set_outgoing (Some [(None, (split_kwargs kw).2)]) m) u,
                   [Log LWarning (Text msg)])).
  { unfold emit_event. destruct (split_kwargs kw) as [event_kwargs emit_kwargs].
    cbn [fst snd] in *.
    unfold bind at 1. rewrite (make_event_invalid _ _ _ _ Hm), Hr.
    unfold queue_outgoing_event, try_except, outgoing_event_queue. msimpl.
    destruct (_outgoing_event_queue m) as [q|]; cbn in Hq; subst; msimpl.
    all: by destruct m. }
  rewrite Heq. split; [reflexivity|]. by destruct m.
Qed.

(** C8.  The outgoing drain, at the input where the code departs from the
    claim.  [dequeue_outgoing_event] on a non-empty outgoing queue removes
    the first item and then raises: it enters the condition with a plain
    [with], which an [asyncio.Condition] refuses.  [notify] is never reached,
    so no waiting worker is woken. *)
Theorem dequeue_outgoing_event_raises (x : out_item) (rest : list out_item)
    (w : world U) :
  _outgoing_event_queue (self w) = Some (x :: rest) ->
  exists msg,
    dequeue_outgoing_event w
    = (Raise (TypeError msg), World (set_outgoing (Some rest) (self w)) (user w), [])
    /\ waiters EventDequeued (set_outgoing (Some rest) (self w))
       = waiters EventDequeued (self w).
Proof.
  intros Hq. destruct w as [m u]. cbn [self user] in *.
  eexists. unfold dequeue_outgoing_event, outgoing_event_queue, with_condition.
  msimpl. rewrite Hq. msimpl. split; [reflexivity|]. by destruct m.
Qed.

End Minting.

Lemma emit_event_failed_mint_witness :
  result_of (emit_event base_config strict_scan [] ∅ fresh_world) = Return tt
  /\ _outgoing_event_queue (state_of (emit_event base_config strict_scan [] ∅ fresh_world))
     = Some [(None, (split_kwargs ∅).2)].
Proof.
  apply (emit_event_failed_mint base_config strict_scan [] ∅ "invalid event data"
           fresh_world).
  - reflexivity.
  - reflexivity.
  - reflexivity.
Defined.

Lemma dequeue_outgoing_event_raises_witness :
  exists msg,
    dequeue_outgoing_event (world_with_outgoing [(Some ip_range, ∅)])
    = (Raise (TypeError msg),
       World (set_outgoing (Some []) (self (world_with_outgoing [(Some ip_range, ∅)])))
         (user (world_with_outgoing [(Some ip_range, ∅)])), [])
    /\ waiters EventDequeued
         (set_outgoing (Some []) (self (world_with_outgoing [(Some ip_range, ∅)])))
       = waiters EventDequeued (self (world_with_outgoing [(Some ip_range, ∅)])).
Proof.
  apply (dequeue_outgoing_event_raises (Some ip_range, ∅) []
           (world_with_outgoing [(Some ip_range, ∅)])).
  reflexivity.
Defined.

Section Setup.
Context {U : Type}.
Variable cfg : config.
Variable cb : callbacks U.
Variable py_repr : pyval -> string.

(** [_setup] when [setup] returns a value the dictionary knows. *)
Lemma _setup_returned (v : pyval) (msg : string) (m : BaseModule) (u : U) :
  outcome (setup cb u) = inl v ->
  (forall a b, v <> PTuple [a; b]) ->
  status_codes v = Some msg ->
  exists t,
    _setup cfg cb py_repr (World m u)
    = (Return (name cfg, v, msg),
       World (user_effect (setup cb u) m) (next (setup cb u)), t).
Proof.
  intros Ho Hv Hs. unfold _setup, try_except.
  unfold bind at 1, debug at 1, emit at 1.
  unfold bind at 1. unfold bind at 1. unfold bind at 1.
  rewrite call_user_eq, Ho. cbn [outcome_result]. msimpl.
  destruct v as [a|[|a [|b [|c l]]]]; try (by destruct (Hv a b));
    rewrite Hs; msimpl; by eexists.
Qed.

(** [_setup] when [setup] raises. *)
Lemma _setup_raised (e : exn) (m : BaseModule) (u : U) :
  outcome (setup cb u) = inr e ->
  exists t,
    _setup cfg cb py_repr (World m u)
    = (Return (name cfg, if is_WordlistError e then PNone else PFalse, exn_str e),
       World (let m1 := user_effect (setup cb u) m in
              if errored m1 then m1 else quarantined_state m1)
         (next (setup cb u)), t).
Proof.
  intros Ho. unfold _setup, try_except.
  unfold bind at 1, debug at 1, emit at 1.
  unfold bind at 1. unfold bind at 1. unfold bind at 1.
  rewrite call_user_eq, Ho. cbn [outcome_result]. msimpl.
  unfold _setup_except. msimpl. rewrite set_error_state_eq.
  destruct (errored (user_effect (setup cb u) m)); msimpl; by eexists.
Qed.

Lemma user_effect_quarantines {A} (r : reply U A) (m : BaseModule) :
  errored m = false ->
  errored (user_effect r m) = true ->
  _incoming_event_queue (user_effect r m) = QFalse.
Proof.
  unfold user_effect. intros He. rewrite He.
  destruct (quarantine r); [by destruct m|congruence].
Qed.

(** C1, as the code has it.  [_setup] maps a return of [True] to "success",
    [False] to "hard-fail" and [None] to "soft-fail"; a [WordlistError]
    thrown by [setup] yields status [None] and any other exception status
    [False].  When [setup] raises, the module is put in error state and, on a
    module that was not in error state before, its incoming queue is
    disabled.  When [setup] returns, [_setup] adds nothing to what [setup]
    itself did to the module. *)
Theorem setup_protocol (w : world U) :
  let r := _setup cfg cb py_repr w in
  let o := outcome (setup cb (user w)) in
  (o = inl PTrue -> result_of r = Return (name cfg, PTrue, "success"))
  /\ (o = inl PFalse -> result_of r = Return (name cfg, PFalse, "hard-fail"))
  /\ (o = inl PNone -> result_of r = Return (name cfg, PNone, "soft-fail"))
  /\ (forall msg, o = inr (WordlistError msg) ->
        result_of r = Return (name cfg, PNone, msg))
  /\ (forall e, o = inr e -> is_WordlistError e = false ->
        result_of r = Return (name cfg, PFalse, exn_str e))
  /\ (forall e, o = inr e ->
        errored (state_of r) = true
        /\ (errored (self w) = false ->
            _incoming_event_queue (state_of r) = QFalse))
  /\ (forall v, o = inl v -> v = PTrue \/ v = PFalse \/ v = PNone ->
        state_of r = user_effect (setup cb (user w)) (self w)).
Proof.
  destruct w as [m u]. cbn [self user]. cbv zeta.
  assert (Hret : forall v msg,
    outcome (setup cb u) = inl v -> (forall a b, v <> PTuple [a; b]) ->
    status_codes v = Some msg ->
    result_of (_setup cfg cb py_repr (World m u)) = Return (name cfg, v, msg)
    /\ state_of (_setup cfg cb py_repr (World m u)) = user_effect (setup cb u) m).
  { intros v msg Ho Hv Hs.
    by destruct (_setup_returned v msg m u Ho Hv Hs) as [t ->]. }
  assert (Hexc : forall e,
    outcome (setup cb u) = inr e ->
    result_of (_setup cfg cb py_repr (World m u))
    = Return (name cfg, if is_WordlistError e then PNone else PFalse, exn_str e)
    /\ state_of (_setup cfg cb py_repr (World m u))
       = (let m1 := user_effect (setup cb u) m in
          if errored m1 then m1 else quarantined_state m1)).
  { intros e Ho. by destruct (_setup_raised e m u Ho) as [t ->]. }
  repeat split.
  - intros Ho. by apply (Hret PTrue "success" Ho).
  - intros Ho. by apply (Hret PFalse "hard-fail" Ho).
  - intros Ho. by apply (Hret PNone "soft-fail" Ho).
  - intros msg Ho. by destruct (Hexc _ Ho) as [-> _].
  - intros e Ho He. destruct (Hexc _ Ho) as [-> _]. by rewrite He.
  - destruct (Hexc _ H) as [_ ->]. cbv zeta.
    destruct (errored (user_effect (setup cb u) m)) eqn:He; [done|by destruct m].
  - intros Hm. destruct (Hexc _ H) as [_ ->]. cbv zeta.
    destruct (errored (user_effect (setup cb u) m)) eqn:He.
    + by apply user_effect_quarantines.
    + unfold quarantined_state. by destruct (user_effect (setup cb u) m).
  - intros v Ho Hv.
    destruct Hv as [->|[->| ->]]; by eapply (Hret _ _ Ho).
Qed.

End Setup.

(** C1 as stated fails: a [setup] that returns [False] hard-fails, yet
    [_setup] leaves the module out of error state, its incoming queue not
    disabled. *)
Lemma setup_returned_false_not_quarantined :
  let r := _setup base_config refusing_setup plain_repr fresh_world in
  result_of r = Return ("base", PFalse, "hard-fail")
  /\ errored (state_of r) = false
  /\ _incoming_event_queue (state_of r) <> QFalse.
Proof. cbv zeta. split; [|split]; [reflexivity|reflexivity|discriminate]. Qed.

Lemma setup_protocol_witness :
  result_of (_setup base_config missing_wordlist plain_repr fresh_world)
  = Return ("base", PNone, "missing list")
  /\ errored (state_of (_setup base_config missing_wordlist plain_repr fresh_world)) = true
  /\ _incoming_event_queue
       (state_of (_setup base_config missing_wordlist plain_repr fresh_world)) = QFalse.
Proof.
  pose proof (setup_protocol base_config missing_wordlist plain_repr fresh_world) as H.
  cbv zeta in H. destruct H as (_ & _ & _ & Hw & _ & Hq & _).
  split; [|split].
  - apply (Hw "missing list"). reflexivity.
  - apply (Hq (WordlistError "missing list")). reflexivity.
  - apply (Hq (WordlistError "missing list")); reflexivity.
Defined.

(** ** Rules for [obeys] *)

Section Rules.
Context {U : Type}.
Variable Q : BaseModule -> Prop.
Variable allowed : callback -> bool.
Variable counters : bool.
Hypothesis Q_stable : stable Q.

Local Abbreviation obeys := (obeys (U:=U) Q allowed counters).

Lemma obeys_weaken {A} (R R' : A -> Prop) (m : M U A) :
  (forall a, R a -> R' a) -> obeys R m -> obeys R' m.
Proof.
  intros HR Hm w Hw. destruct (Hm w Hw) as (HQ & HT & Hr). eauto.
Qed.

Lemma obeys_ret {A} (R : A -> Prop) (a : A) : R a -> obeys R (ret a).
Proof.
  intros Ha w Hw. repeat split; [done|constructor|].
  intros a' [= <-]. done.
Qed.

Lemma obeys_raise {A} (R : A -> Prop) (e : exn) : obeys R (raise e).
Proof. intros w Hw. repeat split; [done|constructor|done]. Qed.

Lemma obeys_suspend {A} (R : A -> Prop) (p : wait_point) : obeys R (suspend p).
Proof. intros w Hw. repeat split; [done|constructor|done]. Qed.

Lemma obeys_out_of_fuel {A} (R : A -> Prop) : obeys R (out_of_fuel (A:=A)).
Proof. intros w Hw. repeat split; [done|constructor|done]. Qed.

Lemma obeys_emit (a : action) :
  permits allowed counters a -> obeys any_value (emit a).
Proof. intros Ha w Hw. repeat split; [done|by repeat constructor]. Qed.

Lemma obeys_get_self : obeys any_value get_self.
Proof. intros w Hw. repeat split; [done|constructor]. Qed.

Lemma obeys_modify_self (f : BaseModule -> BaseModule) :
  (forall m, Q m -> Q (f m)) -> obeys any_value (modify_self f).
Proof. intros Hf w Hw. repeat split; [by apply Hf|constructor]. Qed.

Lemma obeys_bind {A B} (R1 : A -> Prop) (R2 : B -> Prop) (m : M U A)
    (f : A -> M U B) :
  obeys R1 m -> (forall a, R1 a -> obeys R2 (f a)) -> obeys R2 (bind m f).
Proof.
  intros Hm Hf w Hw. destruct (Hm w Hw) as (HQ & HT & Hr).
  unfold bind, state_of, trace_of, result_of in *.
  destruct (m w) as [[[a|e|p|] w1] t1]; cbn [fst snd] in *; try done.
  destruct (Hf a (Hr a eq_refl) w1 HQ) as (HQ2 & HT2 & Hr2).
  unfold state_of, trace_of, result_of in *.
  destruct (f a w1) as [[r w2] t2]; cbn [fst snd] in *.
  repeat split; [done|by apply Forall_app|done].
Qed.

Lemma obeys_try_except {A} (R : A -> Prop) (body : M U A) (handles : exn -> bool)
    (handler : exn -> M U A) :
  obeys R body -> (forall e, obeys R (handler e)) ->
  obeys R (try_except body handles handler).
Proof.
  intros Hb Hh w Hw. destruct (Hb w Hw) as (HQ & HT & Hr).
  unfold try_except, state_of, trace_of, result_of in *.
  destruct (body w) as [[[a|e|p|] w1] t1]; cbn [fst snd] in *; try done.
  destruct (handles e); [|done].
  destruct (Hh e w1 HQ) as (HQ2 & HT2 & Hr2).
  unfold state_of, trace_of, result_of in *.
  destruct (handler e w1) as [[r w2] t2]; cbn [fst snd] in *.
  repeat split; [done|by apply Forall_app|done].
Qed.

Lemma obeys_try_finally {A} (R : A -> Prop) (body : M U A) (final : M U unit) :
  obeys R body -> obeys any_value final -> obeys R (try_finally body final).
Proof.
  intros Hb Hf w Hw. destruct (Hb w Hw) as (HQ & HT & Hr).
  unfold try_finally, state_of, trace_of, result_of in *.
  destruct (body w) as [[r w1] t1]; cbn [fst snd] in *.
  destruct (Hf w1 HQ) as (HQ2 & HT2 & _).
  unfold state_of, trace_of, result_of in *.
  destruct (final w1) as [[r2 w2] t2]; cbn [fst snd] in *.
  destruct r; cbn [fst snd]; [| |done..];
    (repeat split; [done|by apply Forall_app|done]).
Qed.

Lemma obeys_acatch {A} (R : A -> Prop) (context : string) (body : M U A) :
  obeys R body ->
  obeys (fun o => forall a, o = Some a -> R a) (acatch context body).
Proof.
  intros Hb w Hw. destruct (Hb w Hw) as (HQ & HT & Hr).
  unfold acatch, state_of, trace_of, result_of in *.
  destruct (body w) as [[[a|e|p|] w1] t1]; cbn [fst snd] in *.
  - repeat split; [done..|]. intros o [= <-] a' [= <-]. by apply Hr.
  - repeat split; [done| |].
    + apply Forall_app. split; [done|]. by repeat constructor.
    + by intros o [= <-] a'.
  - done.
  - done.
Qed.

Lemma obeys_with_task_counter {A} (R : A -> Prop) (body : M U A) :
  counters = true -> obeys R body -> obeys R (with_task_counter body).
Proof.
  intros Hc Hb. unfold with_task_counter.
  assert (Hmove : forall d, obeys any_value
            (modify_self (fun m => set_task_counter (_task_counter m + d) m))).
  { intros d. apply obeys_modify_self. intros m.
    apply (stable_frame Q Q_stable); by destruct m. }
  eapply obeys_bind; [apply (Hmove 1)|]. intros _ _.
  eapply obeys_bind; [by apply obeys_emit|]. intros _ _.
  apply obeys_try_finally; [done|].
  eapply obeys_bind; [apply (Hmove (-1))|]. intros _ _.
  by apply obeys_emit.
Qed.

Lemma obeys_any {A} (R : A -> Prop) (m : M U A) : obeys R m -> obeys any_value m.
Proof. by apply obeys_weaken. Qed.

Lemma obeys_ret_any {A} (a : A) : obeys any_value (ret a).
Proof. by apply obeys_ret. Qed.

Lemma obeys_bind_any {A B} (R : B -> Prop) (m : M U A) (f : A -> M U B) :
  obeys any_value m -> (forall a, obeys R (f a)) -> obeys R (bind m f).
Proof. intros Hm Hf. eapply obeys_bind; [exact Hm|]. intros a _. apply Hf. Qed.

Lemma obeys_acatch_any {A} (context : string) (body : M U A) :
  obeys any_value body -> obeys any_value (acatch context body).
Proof. intros Hb. eapply obeys_any, obeys_acatch, Hb. Qed.

Lemma obeys_frame (f : BaseModule -> BaseModule) :
  (forall m, errored (f m) = errored m) ->
  (forall m, _incoming_event_queue (f m) = _incoming_event_queue m) ->
  obeys any_value (modify_self f).
Proof.
  intros He Hq. apply obeys_modify_self. intros m.
  by apply (stable_frame Q Q_stable).
Qed.

End Rules.

(** One step of a proof of [obeys]: the rule for the construct at the head
    of the computation, or a case split on what it branches on. *)
Ltac obeys_step :=
  first
    [ solve [auto 2 with obeys]
    | apply obeys_ret_any
    | apply obeys_raise
    | apply obeys_suspend
    | apply obeys_out_of_fuel
    | apply obeys_get_self
    | apply obeys_emit; by cbn
    | apply obeys_frame; [done|by intros []..]
    | apply obeys_bind_any; [|intros ?]
    | apply obeys_try_except; [|intros ?]
    | apply obeys_try_finally
    | apply obeys_acatch_any
    | apply obeys_with_task_counter; [done..|]
    | progress case_match ].

Ltac obeys_auto := repeat obeys_step.

Create HintDb obeys.

Section MethodRules.
Context {U : Type}.
Variable Q : BaseModule -> Prop.
Variable allowed : callback -> bool.
Variable counters : bool.
Hypothesis Q_stable : stable Q.
Variable cfg : config.
Variable scan : Scan.
Variable cb : callbacks U.
Variable py_repr : pyval -> string.

Local Abbreviation obeys := (obeys (U:=U) Q allowed counters).

Lemma obeys_incoming_event_queue : obeys any_value (incoming_event_queue (U:=U)).
Proof.
  intros [m u] Hw. cbn [self] in Hw.
  destruct (_incoming_event_queue m) as [| |l] eqn:Hq.
  - rewrite incoming_event_queue_none by done.
    repeat split; [|constructor]. by apply (stable_create Q Q_stable).
  - rewrite incoming_event_queue_false by done. repeat split; [done|constructor].
  - rewrite (incoming_event_queue_live l) by done. repeat split; [done|constructor].
Qed.

(** Reading the slot and then replacing a live queue by another. *)
Lemma obeys_incoming_update {A} (k : queue_slot -> M U A) :
  (forall (m : BaseModule) (u : U) q,
     k q (World m u) = (Raise QueueEmpty, World m u, [])
     \/ (exists e, k q (World m u) = (Raise (AttributeError e), World m u, []))
     \/ k q (World m u) = (Suspend WaitIncoming, World m u, [])
     \/ (exists l l' a, q = QLive l /\
           k q (World m u) = (Return a, World (set_incoming (QLive l') m) u, []))) ->
  obeys any_value (q <~ incoming_event_queue; k q).
Proof.
  intros Hk [m u] Hw. cbn [self] in Hw. unfold bind.
  assert (Hcase : exists m' q,
    incoming_event_queue (World m u) = (Return q, World m' u, [])
    /\ Q m' /\ _incoming_event_queue m' = q).
  { destruct (_incoming_event_queue m) as [| |l] eqn:Hq.
    - rewrite incoming_event_queue_none by done.
      eexists _, _. split; [done|]. split; [by apply (stable_create Q Q_stable)|].
      by destruct m.
    - rewrite incoming_event_queue_false by done. by eexists _, _.
    - rewrite (incoming_event_queue_live l) by done. by eexists _, _. }
  destruct Hcase as (m' & q & -> & HQ & Hq).
  destruct (Hk m' u q) as [->|[[e ->]|[->|(l & l' & a & -> & ->)]]];
    unfold state_of, trace_of, result_of; cbn [fst snd self];
    repeat split; try done; try constructor.
  by apply (stable_live Q Q_stable _ l).
Qed.

Lemma obeys_incoming_get_nowait : obeys any_value (incoming_get_nowait (U:=U)).
Proof.
  apply obeys_incoming_update. intros m u q.
  destruct q as [| |[|e l]]; msimpl; eauto 10.
Qed.

Lemma obeys_incoming_get : obeys any_value (incoming_get (U:=U)).
Proof.
  apply obeys_incoming_update. intros m u q.
  destruct q as [| |[|e l]]; msimpl; eauto 10.
Qed.

Lemma obeys_incoming_put_nowait (e : event) :
  obeys any_value (incoming_put_nowait (U:=U) e).
Proof.
  apply obeys_incoming_update. intros m u q.
  destruct q as [| |l]; msimpl; eauto 10.
Qed.

Lemma obeys_set_error_state (message : option string) :
  obeys any_value (set_error_state (U:=U) cfg message).
Proof.
  intros [m u] Hw. cbn [self] in Hw. rewrite set_error_state_eq.
  destruct (errored m).
  - repeat split; [done|constructor].
  - repeat split; [by apply (stable_quarantine Q Q_stable)|].
    unfold trace_of, set_error_trace. cbn [snd].
    repeat (apply Forall_app; split); repeat case_match; by repeat constructor.
Qed.

#[local] Hint Resolve obeys_incoming_event_queue obeys_incoming_get_nowait
  obeys_incoming_get obeys_incoming_put_nowait obeys_set_error_state : obeys.

Lemma obeys_call_user {A} (c : callback) (args : list event) (f : U -> reply U A) :
  allowed c = true -> obeys any_value (call_user cfg c args f).
Proof.
  intros Hc. unfold call_user.
  apply obeys_bind_any; [by apply obeys_emit|]. intros _.
  apply obeys_bind_any.
  { intros w Hw. repeat split; [done|constructor]. }
  intros r. obeys_auto.
Qed.

#[local] Hint Resolve obeys_call_user : obeys.

Lemma obeys_outgoing_event_queue : obeys any_value (outgoing_event_queue (U:=U)).
Proof. unfold outgoing_event_queue. obeys_auto. Qed.

Lemma obeys_get_watched_events : obeys any_value (get_watched_events (U:=U) cfg).
Proof. unfold get_watched_events. obeys_auto. Qed.

#[local] Hint Resolve obeys_outgoing_event_queue obeys_get_watched_events : obeys.

Lemma obeys_notify (c : cond_id) : obeys any_value (notify (U:=U) c).
Proof. unfold notify. obeys_auto. Qed.

Lemma obeys_wait {A} (c : cond_id) : obeys any_value (wait (U:=U) (A:=A) c).
Proof. unfold wait. obeys_auto. Qed.

#[local] Hint Resolve obeys_notify obeys_wait : obeys.

Lemma obeys_num_incoming_events : obeys any_value (num_incoming_events (U:=U)).
Proof. unfold num_incoming_events. obeys_auto. Qed.

Lemma obeys__event_precheck (e : event) :
  obeys any_value (_event_precheck (U:=U) cfg e).
Proof. unfold _event_precheck. obeys_auto. Qed.

Lemma obeys__event_postcheck_accept (e : event) :
  obeys any_value (_event_postcheck_accept (U:=U) cfg e).
Proof. unfold _event_postcheck_accept. obeys_auto. Qed.

#[local] Hint Resolve obeys_num_incoming_events obeys__event_precheck
  obeys__event_postcheck_accept : obeys.

Lemma obeys__event_postcheck (e : event) :
  allowed CbFilterEvent = true ->
  obeys any_value (_event_postcheck cfg scan cb e).
Proof. intros Hf. unfold _event_postcheck. obeys_auto. Qed.

#[local] Hint Resolve obeys__event_postcheck : obeys.

Lemma obeys_events_waiting_pass (events : list event) (finish_ : bool) :
  allowed CbFilterEvent = true ->
  obeys any_value (events_waiting_pass cfg scan cb events finish_).
Proof. intros Hf. unfold events_waiting_pass. obeys_auto. Qed.

#[local] Hint Resolve obeys_events_waiting_pass : obeys.

Lemma obeys_events_waiting_loop (fuel : nat) (events : list event) (finish_ : bool) :
  allowed CbFilterEvent = true ->
  obeys any_value (events_waiting_loop cfg scan cb fuel events finish_).
Proof.
  intros Hf. revert events finish_.
  induction fuel as [|fuel IH]; intros events finish_; cbn [events_waiting_loop].
  - apply obeys_out_of_fuel.
  - apply obeys_bind_any; [auto with obeys|].
    intros [[ev fin]|out]; [apply IH|apply obeys_ret_any].
Qed.

(** [events_waiting] never asks for a report. *)
Lemma obeys_events_waiting :
  allowed CbFilterEvent = true ->
  obeys (fun r : list event * bool * bool => r.2 = false)
    (events_waiting cfg scan cb).
Proof.
  intros Hf. unfold events_waiting.
  apply obeys_bind_any; [apply obeys_get_self|]. intros m.
  apply obeys_bind_any; [by apply obeys_events_waiting_loop|].
  intros [ev fin]. by apply obeys_ret.
Qed.

Lemma obeys__handle_batch :
  allowed CbFilterEvent = true -> allowed CbHandleBatch = true ->
  allowed CbFinish = true -> counters = true ->
  obeys any_value (_handle_batch cfg scan cb).
Proof.
  intros Hf Hb Hfin Hc.
  unfold _handle_batch, _handle_batch_submit, _handle_batch_wrapup.
  destruct (batch_size cfg <=? 1); [apply obeys_ret_any|].
  apply obeys_bind_any; [auto with obeys|]. intros n.
  destruct (0 <? n); [|apply obeys_ret_any].
  eapply obeys_bind; [by apply obeys_events_waiting|].
  intros [[events fin] rep] Hrep. cbn [snd] in Hrep. subst rep.
  obeys_auto.
Qed.

Lemma obeys_single_arm :
  allowed CbFilterEvent = true -> allowed CbHandleEvent = true ->
  allowed CbFinish = true -> counters = true ->
  obeys any_value (single_arm cfg scan cb).
Proof. intros Hf Hh Hfin Hc. unfold single_arm. obeys_auto. Qed.

#[local] Hint Resolve obeys__handle_batch obeys_single_arm : obeys.

Lemma obeys__worker_iteration :
  allowed CbFilterEvent = true -> allowed CbHandleEvent = true ->
  allowed CbHandleBatch = true -> allowed CbFinish = true -> counters = true ->
  obeys any_value (_worker_iteration cfg scan cb).
Proof.
  intros Hf Hh Hb Hfin Hc.
  unfold _worker_iteration, backpressure_gate, batch_arm, async_with_condition.
  obeys_auto.
Qed.

Lemma obeys__worker (fuel : nat) :
  allowed CbFilterEvent = true -> allowed CbHandleEvent = true ->
  allowed CbHandleBatch = true -> allowed CbFinish = true -> counters = true ->
  obeys any_value (_worker cfg scan cb fuel).
Proof.
  intros Hf Hh Hb Hfin Hc. unfold _worker.
  apply obeys_bind_any; [|intros ?; apply obeys_ret_any].
  apply obeys_acatch_any.
  induction fuel as [|fuel IH]; cbn [_worker_loop].
  - destruct (stopping scan); [apply obeys_ret_any|apply obeys_out_of_fuel].
  - destruct (stopping scan); [apply obeys_ret_any|].
    apply obeys_bind_any; [by apply obeys__worker_iteration|].
    intros [|]; [apply IH|apply obeys_ret_any].
Qed.

Lemma obeys_queue_event (e : event) : obeys any_value (queue_event (U:=U) cfg e).
Proof. unfold queue_event, async_with_condition. obeys_auto. Qed.

Lemma obeys_make_event (args : list pyval) (kw : kwargs) :
  obeys any_value (make_event (U:=U) cfg scan args kw).
Proof. unfold make_event. obeys_auto. Qed.

Lemma obeys_queue_outgoing_event (ev : option event) (kw : kwargs) :
  obeys any_value (queue_outgoing_event (U:=U) ev kw).
Proof. unfold queue_outgoing_event. obeys_auto. Qed.

#[local] Hint Resolve obeys_make_event obeys_queue_outgoing_event : obeys.

Lemma obeys_emit_event (args : list pyval) (kw : kwargs) :
  obeys any_value (emit_event (U:=U) cfg scan args kw).
Proof. unfold emit_event. obeys_auto. Qed.

Lemma obeys_dequeue_outgoing_event :
  obeys any_value (dequeue_outgoing_event (U:=U)).
Proof. unfold dequeue_outgoing_event, with_condition. obeys_auto. Qed.

Lemma obeys__setup :
  allowed CbSetup = true -> obeys any_value (_setup cfg cb py_repr).
Proof. intros Hs. unfold _setup, _setup_except. obeys_auto. Qed.

Lemma obeys__cleanup :
  allowed CbCleanup = true -> counters = true ->
  obeys any_value (_cleanup (U:=U) cfg cb).
Proof.
  intros Hcl Hc. unfold _cleanup.
  apply obeys_bind_any; [apply obeys_get_self|]. intros m.
  destruct (negb (_cleanedup m)); [|apply obeys_ret_any].
  apply obeys_bind_any; [obeys_auto|]. intros _.
  induction (cleanup cb :: cleanup_callbacks cb) as [|f fs IH]; cbn [foldr].
  - apply obeys_ret_any.
  - apply obeys_bind_any; [obeys_auto|]. intros _. apply IH.
Qed.

End MethodRules.

Lemma stable_any_module : stable any_module.
Proof. by split. Qed.

Lemma stable_quarantined : stable quarantined.
Proof.
  split; unfold quarantined.
  - intros m m' -> ->. done.
  - intros m [He Hq]. by destruct m.
  - intros m [_ Hq] Hq'. congruence.
  - intros m l l' [_ Hq] Hq'. congruence.
Qed.

Section QuarantineClaims.
Context {U : Type}.
Variable cfg : config.
Variable scan : Scan.
Variable cb : callbacks U.
Variable py_repr : pyval -> string.

(** Quarantine survives every call. *)
Lemma quarantined_run_call (c : call) (w : world U) :
  quarantined (self w) -> quarantined (self (run_call cfg scan cb py_repr c w)).
Proof.
  intros Hq.
  assert (Hob : forall A (m : M U A),
    obeys quarantined every_callback true any_value m ->
    quarantined (self (after m w))).
  { intros A m Hm. by destruct (Hm w Hq) as [H _]. }
  destruct c; cbn [run_call]; apply Hob.
  - by apply obeys_set_error_state, stable_quarantined.
  - by apply obeys_queue_event, stable_quarantined.
  - by apply obeys_emit_event, stable_quarantined.
  - by apply obeys_dequeue_outgoing_event, stable_quarantined.
  - by apply obeys__setup; [apply stable_quarantined|].
  - by apply obeys__cleanup; [apply stable_quarantined|..].
  - by apply obeys__worker; [apply stable_quarantined|..].
Qed.

Lemma quarantined_later (w w' : world U) :
  later cfg scan cb py_repr w w' -> quarantined (self w) -> quarantined (self w').
Proof.
  induction 1 as [|w1 w2 w3 [c ->] _ IH]; [done|].
  intros Hq. by apply IH, quarantined_run_call.
Qed.

(** On a quarantined module [queue_event] only logs that it declines. *)
Lemma queue_event_quarantined (e : event) (w : world U) :
  quarantined (self w) ->
  queue_event cfg e w
  = (Return tt, w,
     [Log LDebug (Text "Not in an acceptable state to queue incoming event")]).
Proof.
  intros [He Hq]. destruct w as [m u]. cbn [self] in *.
  unfold queue_event. unfold bind at 1.
  by rewrite (incoming_event_queue_false _ _ Hq).
Qed.


End QuarantineClaims.


Section Batching.
Context {U : Type}.
Variable cfg : config.
Variable scan : Scan.
Variable cb : callbacks U.

Lemma slot_size_user_effect {A} (r : reply U A) (m : BaseModule) :
  (slot_size (_incoming_event_queue (user_effect r m))
   <= slot_size (_incoming_event_queue m))%nat.
Proof.
  unfold user_effect. destruct (quarantine r); [|done].
  destruct (errored m); [done|]. destruct m; cbn. lia.
Qed.

Lemma incoming_accept_state (e : event) (m : BaseModule) :
  _incoming_event_queue (accept_state cfg e m) = _incoming_event_queue m.
Proof. unfold accept_state. destruct (produced_once cfg e m); by destruct m. Qed.

(** Post-check always comes back with a verdict, and never adds to the
    incoming queue. *)
Lemma postcheck_cases (e : event) (m : BaseModule) (u : U) :
  exists b reason m' u' t,
    _event_postcheck cfg scan cb e (World m u)
    = (Return (b, reason), World m' u', t)
    /\ (slot_size (_incoming_event_queue m')
        <= slot_size (_incoming_event_queue m))%nat.
Proof.
  destruct (String.eqb (type e) "FINISHED") eqn:Hfin.
  { unfold _event_postcheck. rewrite Hfin. by eexists _, _, _, _, _. }
  destruct (bool_decide ("active" ∈ flags cfg) && bool_decide ("target" ∈ tags e)
            && negb (whitelist scan e)) eqn:Hw.
  { unfold _event_postcheck. rewrite Hfin, Hw. by eexists _, _, _, _, _. }
  destruct (scope_gate cfg scan e) as [|reason|x] eqn:Hg.
  - apply String.eqb_neq in Hfin.
    rewrite (postcheck_filter_eq cfg scan cb e m u Hfin); [|
      |done].
    2:{ intros (H1 & H2 & H3).
        by rewrite (bool_decide_eq_true_2 _ H1), (bool_decide_eq_true_2 _ H2), H3 in Hw. }
    cbv zeta.
    destruct (outcome (filter_event cb e u)) as [v|x].
    + destruct (filter_verdict v) as [[b reason]|]; eexists _, _, _, _, _.
      * split; [reflexivity|]. apply slot_size_user_effect.
      * split; [reflexivity|]. rewrite incoming_accept_state.
        apply slot_size_user_effect.
    + eexists _, _, _, _, _.
      split; [reflexivity|]. rewrite incoming_accept_state.
      apply slot_size_user_effect.
  - unfold _event_postcheck. rewrite Hfin, Hw, Hg. by eexists _, _, _, _, _.
  - by destruct (scope_gate_no_crash cfg scan e x).
Qed.

(** One pass of the loop either leaves it, or goes on with a shorter queue
    and a batch that is still in order. *)
Lemma events_waiting_pass_spec (events : list event) (finish_ : bool)
    (m : BaseModule) (u : U) :
  batch_ok cfg events ->
  exists r m' u' t,
    events_waiting_pass cfg scan cb events finish_ (World m u)
    = (Return r, World m' u', t)
    /\ match r with
       | inr out => out = (events, finish_)
       | inl (events', _) =>
           batch_ok cfg events'
           /\ (slot_size (_incoming_event_queue m')
               < slot_size (_incoming_event_queue m))%nat
       end.
Proof.
  intros [Hlen Hall]. unfold events_waiting_pass. unfold bind at 1.
  assert (Hslot : exists m0 q,
    incoming_event_queue (World m u) = (Return q, World m0 u, [])
    /\ _incoming_event_queue m0 = q
    /\ slot_size q = slot_size (_incoming_event_queue m)).
  { destruct (_incoming_event_queue m) as [| |l] eqn:Hq.
    - rewrite incoming_event_queue_none by done. eexists _, _.
      split; [done|]. by destruct m.
    - rewrite incoming_event_queue_false by done. by eexists _, _.
    - rewrite (incoming_event_queue_live l) by done. by eexists _, _. }
  destruct Hslot as (m0 & q & -> & Hq0 & Hsize). rewrite <- Hsize. clear Hsize.
  destruct q as [| |l]; cbn [slot_truthy];
    [by eexists _, _, _, _..|].
  destruct (batch_size cfg <? Z.of_nat (length events)) eqn:Hfull;
    [by eexists _, _, _, _|].
  apply Z.ltb_ge in Hfull.
  unfold try_except. unfold bind at 1.
  destruct l as [|e l].
  { rewrite (incoming_get_nowait_nil _ _ Hq0). by eexists _, _, _, _. }
  rewrite (incoming_get_nowait_cons _ _ _ _ Hq0).
  unfold bind at 1, debug at 1, emit at 1. unfold bind at 1.
  destruct (postcheck_cases e (set_incoming (QLive l) m0) u)
    as (b & reason & m' & u' & t & Heq & Hsz).
  rewrite Heq.
  assert (Hsz' : (slot_size (_incoming_event_queue m') < slot_size (QLive (e :: l)))%nat).
  { cbn [slot_size length]. destruct m0; cbn in *. lia. }
  destruct b.
  - destruct (String.eqb (type e) "FINISHED") eqn:Hfin; msimpl.
    + eexists _, _, _, _. split; [reflexivity|]. by split.
    + eexists _, _, _, _. split; [reflexivity|]. split; [|done]. split.
      * rewrite length_app. cbn [length]. lia.
      * apply Forall_app. split; [done|]. constructor; [|done].
        by apply String.eqb_neq.
  - destruct (negb (String.eqb reason "")); msimpl;
      eexists _, _, _, _; (split; [reflexivity|]); by split.
Qed.

(** With fuel above the length of the queue the loop comes back with a
    batch that is in order. *)
Lemma events_waiting_loop_spec (fuel : nat) (events : list event)
    (finish_ : bool) (m : BaseModule) (u : U) :
  (slot_size (_incoming_event_queue m) < fuel)%nat ->
  batch_ok cfg events ->
  exists events' finish' w' t,
    events_waiting_loop cfg scan cb fuel events finish_ (World m u)
    = (Return (events', finish'), w', t)
    /\ batch_ok cfg events'.
Proof.
  revert events finish_ m u.
  induction fuel as [|fuel IH]; intros events finish_ m u Hfuel Hok; [lia|].
  cbn [events_waiting_loop]. unfold bind.
  destruct (events_waiting_pass_spec events finish_ m u Hok)
    as (r & m' & u' & t & -> & Hr).
  destruct r as [[events' finish']|out].
  - destruct Hr as [Hok' Hsz].
    destruct (IH events' finish' m' u' ltac:(lia) Hok')
      as (ev2 & fin2 & w2 & t2 & -> & Hok2).
    by eexists _, _, _, _.
  - subst out. msimpl. by eexists _, _, _, _.
Qed.

(** [events_waiting] always returns: a batch in order, a finish flag, and
    no request for a report. *)
Lemma events_waiting_spec (w : world U) :
  -1 <= batch_size cfg ->
  exists events finish_ w' t,
    events_waiting cfg scan cb w = (Return (events, finish_, false), w', t)
    /\ batch_ok cfg events.
Proof.
  intros Hb. destruct w as [m u]. unfold events_waiting.
  unfold bind at 1, get_self at 1. cbn [self]. unfold bind at 1.
  destruct (events_waiting_loop_spec
              (S (slot_size (_incoming_event_queue m))) [] false m u)
    as (events & fin & w' & t & -> & Hok).
  { lia. }
  { split; [cbn; lia|constructor]. }
  msimpl. rewrite app_nil_r. by eexists _, _, _, _.
Qed.

End Batching.

(** ** Callbacks in traces *)

Lemma invoked_app (c : callback) (t1 t2 : list action) :
  invoked c (t1 ++ t2) = invoked c t1 || invoked c t2.
Proof. apply existsb_app. Qed.

Lemma callback_eqb_eq (c c' : callback) : callback_eqb c c' = true <-> c = c'.
Proof. by destruct c, c'. Qed.

Lemma invoked_permits (c : callback) (allowed : callback -> bool)
    (counters : bool) (t : list action) :
  allowed c = false ->
  Forall (permits allowed counters) t -> invoked c t = false.
Proof.
  intros Hc Ht. induction Ht as [|a t Ha _ IH]; [done|].
  cbn [invoked existsb]. fold (invoked c t). rewrite IH, orb_false_r.
  destruct a; try done. cbn in Ha.
  destruct (callback_eqb c c0) eqn:Heq; [|done].
  apply callback_eqb_eq in Heq. congruence.
Qed.

Lemma invoked_user_trace {U A} (c : callback) (cfg : config) (r : reply U A)
    (m : BaseModule) :
  invoked c (user_trace cfg r m) = false.
Proof.
  unfold user_trace, set_error_trace.
  repeat case_match; done.
Qed.

Lemma invoked_cons (c : callback) (a : action) (t : list action) :
  invoked c (a :: t)
  = match a with
    | Enter c' _ => callback_eqb c c'
    | _ => false
    end || invoked c t.
Proof. reflexivity. Qed.

Lemma invoked_nil (c : callback) : invoked c [] = false.
Proof. reflexivity. Qed.

Section BatchArm.
Context {U : Type}.
Variable cfg : config.
Variable scan : Scan.
Variable cb : callbacks U.

(** [events_waiting] runs no callback but the filter. *)
Lemma events_waiting_only_filter (c : callback) (w : world U) :
  c <> CbFilterEvent ->
  invoked c (trace_of (events_waiting cfg scan cb w)) = false.
Proof.
  intros Hc.
  destruct (obeys_events_waiting any_module only_filter false stable_any_module
              cfg scan cb eq_refl w I) as (_ & Ht & _).
  eapply invoked_permits; [|exact Ht].
  by destruct c.
Qed.

Lemma quiet_user_trace {A} (r : reply U A) (m : BaseModule) :
  Forall quiet_action (user_trace cfg r m).
Proof.
  unfold user_trace, set_error_trace.
  repeat case_match; repeat (apply Forall_app; split); by repeat constructor.
Qed.

(** What [_handle_batch] does once [events_waiting] has handed it a batch:
    nothing on a module in error state; otherwise it submits the batch, if
    there is one, under the task counter, and then calls [finish], if the
    flag is set, outside of it. *)
Lemma _handle_batch_after_assembly (l events : list event) (finish_ rep : bool)
    (m m1 : BaseModule) (u u1 : U) (t1 : list action) :
  1 < batch_size cfg ->
  _incoming_event_queue m = QLive l -> l <> [] ->
  events_waiting cfg scan cb (World m u)
  = (Return (events, finish_, rep), World m1 u1, t1) ->
  exists r w2 tb tf,
    _handle_batch cfg scan cb (World m u)
    = (r, w2,
       t1 ++ (if errored m1 then []
              else Log LDebug (HandlingBatch (length events)) :: tb ++ tf))
    /\ batch_part events tb /\ finish_part finish_ tf.
Proof.
  intros Hb Hq Hl Hew.
  assert (rep = false) as ->.
  { destruct (obeys_events_waiting any_module every_callback true stable_any_module
                cfg scan cb eq_refl (World m u) I) as (_ & _ & Hr).
    rewrite Hew in Hr. by apply (Hr _ eq_refl). }
  assert (Hfinish : forall (m' : BaseModule) (u' : U),
    exists w2 tf,
      _handle_batch_wrapup cfg cb finish_ false (World m' u') = (Return tt, w2, tf)
      /\ finish_part finish_ tf).
  { intros m' u'. unfold _handle_batch_wrapup.
    destruct finish_; [|eexists _, _; split; reflexivity].
    unfold bind, acatch. rewrite call_user_eq.
    destruct (outcome (finish cb u')); cbn [outcome_result outcome_ok]; msimpl;
      eexists _, _; (split; [reflexivity|]); rewrite app_nil_r.
    - eexists _, _, []. split; [reflexivity|]. split; [apply quiet_user_trace|done].
    - rewrite <- app_assoc. eexists _, _, _. split; [reflexivity|].
      split; [apply quiet_user_trace|by repeat constructor]. }
  assert (Hsubmit : forall (m' : BaseModule) (u' : U),
    exists b w2 tb,
      _handle_batch_submit cfg cb events (World m' u') = (Return b, w2, tb)
      /\ batch_part events tb).
  { intros m' u'. unfold _handle_batch_submit.
    destruct events as [|e events]; [by eexists _, _, _|].
    unfold bind, acatch, with_task_counter, try_finally, bind. msimpl.
    rewrite call_user_eq.
    destruct (outcome (handle_batch cb (e :: events) u'));
      cbn [outcome_result outcome_ok]; msimpl;
      rewrite ?app_nil_r, <- ?app_assoc; cbn [app];
      eexists _, _, _; (split; [reflexivity|]).
    - eexists _, _, [].
      split; [reflexivity|]. split; [apply quiet_user_trace|done].
    - eexists _, _, _.
      split; [reflexivity|]. split; [apply quiet_user_trace|by repeat constructor]. }
  unfold _handle_batch.
  rewrite (proj2 (Z.leb_gt _ _) Hb).
  unfold bind at 1. unfold num_incoming_events. unfold bind at 1.
  rewrite (incoming_event_queue_live _ _ _ Hq). cbn [slot_truthy slot_size].
  unfold ret at 1.
  assert ((0 <? Z.of_nat (length l)) = true) as ->.
  { apply Z.ltb_lt. destruct l; [done|]. cbn [length]. lia. }
  unfold bind at 1. rewrite Hew.
  unfold bind at 1, get_self at 1. cbn [self].
  destruct (errored m1) eqn:He; cbn [negb].
  { msimpl.
    destruct (Hsubmit m1 u1) as (_ & _ & tb & _ & Htb).
    destruct (Hfinish m1 u1) as (_ & tf & _ & Htf).
    by eexists _, _, tb, tf. }
  unfold bind at 1, debug at 1, emit at 1.
  unfold bind at 1.
  destruct (Hsubmit m1 u1) as (b & [m2 u2] & tb & -> & Htb).
  unfold bind at 1.
  destruct (Hfinish m2 u2) as (w3 & tf & -> & Htf).
  msimpl. rewrite app_nil_r.
  by eexists _, _, tb, tf.
Qed.

End BatchArm.

(** ** The task counter along traces *)

Lemma counter_step_uncounted (s : Z * Z * bool) (a : action) :
  uncounted_action a -> counter_step s a = s.
Proof.
  destruct s as [[v n] ok]. destruct a; cbn; try done.
  - intros Hc. apply negb_true_iff in Hc. by rewrite Hc.
  - intros Hc. apply negb_true_iff in Hc. by rewrite Hc.
Qed.

Lemma foldl_counter_step_uncounted (s : Z * Z * bool) (t : list action) :
  Forall uncounted_action t -> foldl counter_step s t = s.
Proof.
  intros Ht. induction Ht as [|a t Ha _ IH]; [done|].
  cbn [foldl]. by rewrite counter_step_uncounted.
Qed.

Lemma quiet_uncounted (t : list action) :
  Forall quiet_action t -> Forall uncounted_action t.
Proof. intros Ht. eapply Forall_impl; [exact Ht|]. by intros []. Qed.

(** Once an invocation has started without the counter, the trace is lost. *)
Lemma foldl_counter_step_lost (v n : Z) (t : list action) :
  (foldl counter_step (v, n, false) t).2 = false.
Proof.
  revert v n. induction t as [|a t IH]; intros v n; [done|].
  cbn [foldl]. destruct a; cbn [counter_step]; try apply IH.
  - destruct (counted c); apply IH.
  - destruct (counted c); apply IH.
Qed.

Lemma counter_tracks_lost (v : Z) (t1 t2 : list action) (v' n' : Z) :
  foldl counter_step (v, v, true) t1 = (v', n', false) ->
  counter_tracks v (t1 ++ t2) = false.
Proof.
  intros H1. unfold counter_tracks. rewrite foldl_app, H1.
  pose proof (foldl_counter_step_lost v' n' t2) as H2.
  destruct (foldl counter_step (v', n', false) t2) as [[a b] ok].
  cbn in H2. by subst ok.
Qed.

(** Submitting a batch keeps the counter in step. *)
Lemma foldl_counter_step_batch_part (v : Z) (events : list event)
    (t : list action) :
  batch_part events t -> foldl counter_step (v, v, true) t = (v, v, true).
Proof.
  destruct events as [|e events]; cbn [batch_part].
  - by intros ->.
  - intros (n1 & ok & n2 & -> & H1 & H2).
    cbn [foldl counter_step counted]. rewrite Z.eqb_refl. cbn [andb].
    rewrite foldl_app, (foldl_counter_step_uncounted _ n1) by by apply quiet_uncounted.
    cbn [foldl counter_step counted].
    rewrite (foldl_counter_step_uncounted _ n2) by by apply quiet_uncounted.
    f_equal. f_equal; lia.
Qed.

(** Calling [finish] from the batch arm does not. *)
Lemma foldl_counter_step_finish_part (v : Z) (t : list action) :
  finish_part true t ->
  exists v' n', foldl counter_step (v, v, true) t = (v', n', false).
Proof.
  intros (n1 & ok & n2 & -> & H1 & H2).
  cbn [foldl counter_step counted andb].
  rewrite (proj2 (Z.eqb_neq v (v + 1))) by lia.
  pose proof (foldl_counter_step_lost v (v + 1)
                (n1 ++ Leave CbFinish ok :: n2)) as H.
  destruct (foldl counter_step (v, v + 1, false) _) as [[v' n'] b].
  cbn in H. subst b. by eexists _, _.
Qed.

Lemma invoked_quiet (c : callback) (t : list action) :
  Forall quiet_action t -> invoked c t = false.
Proof. by apply invoked_permits. Qed.

Lemma invoked_batch_part (c : callback) (events : list event) (t : list action) :
  batch_part events t ->
  invoked c t = callback_eqb c CbHandleBatch && nonempty events.
Proof.
  destruct events as [|e events]; cbn [batch_part nonempty].
  - intros ->. by rewrite andb_false_r.
  - intros (n1 & ok & n2 & -> & H1 & H2).
    rewrite !invoked_cons, invoked_app, invoked_cons, invoked_cons.
    rewrite (invoked_quiet c n1 H1), (invoked_quiet c n2 H2).
    by destruct c.
Qed.

Lemma invoked_finish_part (c : callback) (finish_ : bool) (t : list action) :
  finish_part finish_ t ->
  invoked c t = callback_eqb c CbFinish && finish_.
Proof.
  destruct finish_; cbn [finish_part].
  - intros (n1 & ok & n2 & -> & H1 & H2).
    rewrite !invoked_cons, invoked_app, invoked_cons.
    rewrite (invoked_quiet c n1 H1), (invoked_quiet c n2 H2).
    by destruct c.
  - intros ->. by rewrite andb_false_r.
Qed.

Section BatchClaims.
Context {U : Type}.
Variable cfg : config.
Variable scan : Scan.
Variable cb : callbacks U.

Lemma events_waiting_uncounted (w : world U) :
  Forall uncounted_action (trace_of (events_waiting cfg scan cb w)).
Proof.
  destruct (obeys_events_waiting any_module only_filter false stable_any_module
              cfg scan cb eq_refl w I) as (_ & Ht & _).
  eapply Forall_impl; [exact Ht|]. intros [] Ha; try done.
  - cbn in *. by destruct c.
  - cbn in *. by destruct c.
Qed.

(** C3, at the input where the code departs from the claim.  When the batch
    arm has seen a FINISHED item and the module is not in error state,
    [_handle_batch] invokes [finish] without raising the task counter: along
    the trace of the iteration the counter does not follow the number of
    invocations in flight.  ([handle_batch] itself is counted.) *)
Theorem batch_finish_outside_counter (l events : list event) (w w1 : world U)
    (t1 : list action) :
  1 < batch_size cfg ->
  _incoming_event_queue (self w) = QLive l -> l <> [] ->
  events_waiting cfg scan cb w = (Return (events, true, false), w1, t1) ->
  errored (self w1) = false ->
  invoked CbFinish (trace_of (_handle_batch cfg scan cb w)) = true
  /\ counter_tracks (_task_counter (self w)) (trace_of (_handle_batch cfg scan cb w))
     = false.
Proof.
  intros Hb Hq Hl Hew He. destruct w as [m u], w1 as [m1 u1]. cbn [self] in *.
  destruct (_handle_batch_after_assembly cfg scan cb l events true false
              m m1 u u1 t1 Hb Hq Hl Hew) as (r & w2 & tb & tf & -> & Htb & Htf).
  rewrite He. unfold trace_of. cbn [snd]. split.
  - rewrite invoked_app, invoked_cons, invoked_app.
    rewrite (invoked_finish_part _ _ _ Htf). cbn. by rewrite !orb_true_r.
  - set (v := _task_counter m).
    destruct (foldl_counter_step_finish_part v tf Htf) as (v' & n' & Hlost).
    replace (t1 ++ Log LDebug (HandlingBatch (length events)) :: tb ++ tf)
      with ((t1 ++ Log LDebug (HandlingBatch (length events)) :: tb ++ tf) ++ [])
      by apply app_nil_r.
    apply (counter_tracks_lost v _ [] v' n').
    rewrite foldl_app.
    pose proof (events_waiting_uncounted (World m u)) as Hu.
    rewrite Hew in Hu. unfold trace_of in Hu. cbn [snd] in Hu.
    rewrite (foldl_counter_step_uncounted _ t1 Hu).
    cbn [foldl counter_step]. rewrite foldl_app.
    by rewrite (foldl_counter_step_batch_part v events tb Htb).
Qed.

(** The single-event arm does count [finish]. *)
Lemma single_arm_finish_counted (fin : event) (rest : list event) (w : world U) :
  type fin = "FINISHED" ->
  _incoming_event_queue (self w) = QLive (fin :: rest) ->
  invoked CbFinish (trace_of (single_arm cfg scan cb w)) = true
  /\ counter_tracks (_task_counter (self w)) (trace_of (single_arm cfg scan cb w))
     = true.
Proof.
  intros Hfin Hq. destruct w as [m u]. cbn [self] in *.
  assert (Heq : exists r w2 n1 ok n2,
    single_arm cfg scan cb (World m u)
    = (r, w2, Log LDebug (Got fin) :: CounterInc :: Enter CbFinish []
              :: n1 ++ Leave CbFinish ok :: CounterDec :: n2)
    /\ Forall quiet_action n1 /\ Forall quiet_action n2).
  { unfold single_arm, try_except, incoming_get. msimpl.
    rewrite (incoming_event_queue_live _ _ _ Hq). msimpl.
    rewrite (incoming_event_queue_live _ _ _ Hq). msimpl.
    unfold _event_postcheck. rewrite Hfin. cbn [String.eqb Ascii.eqb Bool.eqb].
    msimpl.
    unfold acatch, with_task_counter, try_finally. msimpl.
    rewrite call_user_eq.
    destruct (outcome (finish cb u)); cbn [outcome_result outcome_ok]; msimpl;
      rewrite ?app_nil_r, <- ?app_assoc; cbn [app].
    - eexists _, _, _, _, []. split; [reflexivity|].
      split; [apply quiet_user_trace|done].
    - eexists _, _, _, _, _. split; [reflexivity|].
      split; [apply quiet_user_trace|by repeat constructor]. }
  destruct Heq as (r & w2 & n1 & ok & n2 & -> & H1 & H2).
  unfold trace_of. cbn [snd]. split.
  - rewrite !invoked_cons. by cbn.
  - unfold counter_tracks. cbn [foldl counter_step counted].
    rewrite Z.eqb_refl. cbn [andb].
    rewrite foldl_app, (foldl_counter_step_uncounted _ n1) by by apply quiet_uncounted.
    cbn [foldl counter_step counted].
    rewrite (foldl_counter_step_uncounted _ n2) by by apply quiet_uncounted.
    cbn [andb]. apply Z.eqb_eq. lia.
Qed.

End BatchClaims.

Lemma batch_finish_outside_counter_witness :
  invoked CbFinish
    (trace_of (_handle_batch batch_config strict_scan base_callbacks finishing_batch))
  = true
  /\ counter_tracks 0
       (trace_of (_handle_batch batch_config strict_scan base_callbacks finishing_batch))
     = false.
Proof.
  apply (batch_finish_outside_counter batch_config strict_scan base_callbacks
           [finished_event] [] finishing_batch
           (World (set_incoming (QLive []) init) tt)
           [Log LDebug (Got finished_event)]).
  - reflexivity.
  - reflexivity.
  - discriminate.
  - reflexivity.
  - reflexivity.
Defined.

(** C5 as stated fails: the batch is empty, no FINISHED item was seen, and
    an hour has passed on the wall clock since the last submission, far more
    than [batch_wait]; [report] is not invoked. *)
Lemma report_not_triggered :
  result_of (events_waiting batch_config strict_scan base_callbacks idle_batch)
  = Return ([], false, false)
  /\ 3600 - 0 > batch_wait batch_config
  /\ invoked CbReport
       (trace_of (_handle_batch batch_config strict_scan base_callbacks idle_batch))
     = false.
Proof. repeat split. Qed.

(** ** The end-to-end scenarios of the specification, run on the model *)

(** Batching and FINISHED: one [handle_batch(A, B)] and one [finish()]. *)
Example scenario_batching_and_finished :
  calls (trace_of (_handle_batch batch_config strict_scan base_callbacks scenario_batch))
  = [(CbFilterEvent, [plain_event 1 "DNS_NAME" 0]);
     (CbFilterEvent, [plain_event 2 "DNS_NAME" 0]);
     (CbHandleBatch, [plain_event 1 "DNS_NAME" 0; plain_event 2 "DNS_NAME" 0]);
     (CbFinish, [])].
Proof. reflexivity. Qed.

(** Scope gating: only the two events at distance 0 reach [handle_event];
    the worker is then left waiting on its empty queue. *)
Example scenario_scope_gating :
  List.filter (fun c => callback_eqb CbHandleEvent c.1)
    (calls (trace_of (_worker in_scope_config strict_scan base_callbacks 10
                        scenario_scope)))
  = [(CbHandleEvent, [plain_event 1 "DNS_NAME" 0]);
     (CbHandleEvent, [plain_event 2 "DNS_NAME" 0])]
  /\ result_of (_worker in_scope_config strict_scan base_callbacks 10 scenario_scope)
     = Suspend WaitIncoming.
Proof. split; reflexivity. Qed.

(** Setup soft-fail: [_setup] answers [(name, None, "missing list")]. *)
Example scenario_setup_soft_fail :
  result_of (_setup base_config missing_wordlist plain_repr fresh_world)
  = Return ("base", PNone, "missing list").
Proof. reflexivity. Qed.

(** * Further properties of the runtime *)

(** ** What every method keeps *)

Lemma settled_refl (m : BaseModule) : settled m m.
Proof. by repeat split. Qed.

Lemma settled_trans (m1 m2 m3 : BaseModule) :
  settled m1 m2 -> settled m2 m3 -> settled m1 m3.
Proof.
  intros (He & Hq & Hc & Ht) (He' & Hq' & Hc' & Ht').
  repeat split; [auto..|congruence].
Qed.

Section SettleRules.
Context {U : Type}.

Lemma settles_ret {A} (a : A) : settles (U:=U) (ret a).
Proof. intros w. apply settled_refl. Qed.

Lemma settles_raise {A} (e : exn) : settles (U:=U) (raise (A:=A) e).
Proof. intros w. apply settled_refl. Qed.

Lemma settles_suspend {A} (p : wait_point) : settles (U:=U) (suspend (A:=A) p).
Proof. intros w. apply settled_refl. Qed.

Lemma settles_out_of_fuel {A} : settles (U:=U) (out_of_fuel (A:=A)).
Proof. intros w. apply settled_refl. Qed.

Lemma settles_emit (a : action) : settles (U:=U) (emit a).
Proof. intros w. apply settled_refl. Qed.

Lemma settles_get_self : settles (U:=U) get_self.
Proof. intros w. apply settled_refl. Qed.

Lemma settles_modify_self (f : BaseModule -> BaseModule) :
  (forall m, settled m (f m)) -> settles (U:=U) (modify_self f).
Proof. intros Hf w. apply Hf. Qed.

Lemma settles_bind {A B} (c : M U A) (f : A -> M U B) :
  settles c -> (forall a, settles (f a)) -> settles (bind c f).
Proof.
  intros Hc Hf w. specialize (Hc w).
  unfold bind, state_of in *.
  destruct (c w) as [[[a|e|p|] w1] t1]; cbn [fst snd] in *; try done.
  specialize (Hf a w1). unfold state_of in Hf.
  destruct (f a w1) as [[r w2] t2]; cbn [fst snd] in *.
  by eapply settled_trans.
Qed.

Lemma settles_try_except {A} (body : M U A) (handles : exn -> bool)
    (handler : exn -> M U A) :
  settles body -> (forall e, settles (handler e)) ->
  settles (try_except body handles handler).
Proof.
  intros Hb Hh w. specialize (Hb w).
  unfold try_except, state_of in *.
  destruct (body w) as [[[a|e|p|] w1] t1]; cbn [fst snd] in *; try done.
  destruct (handles e); [|done].
  specialize (Hh e w1). unfold state_of in Hh.
  destruct (handler e w1) as [[r w2] t2]; cbn [fst snd] in *.
  by eapply settled_trans.
Qed.

Lemma settles_acatch {A} (context : string) (body : M U A) :
  settles body -> settles (acatch context body).
Proof.
  intros Hb w. specialize (Hb w). unfold acatch, state_of in *.
  by destruct (body w) as [[[a|e|p|] w1] t1].
Qed.

(** The counter a block is entered with is the counter it is left with,
    once the block has been left. *)
Lemma settles_with_task_counter {A} (body : M U A) :
  settles body -> completes body -> settles (with_task_counter body).
Proof.
  intros Hb Hc0 [m u]. unfold with_task_counter, try_finally. msimpl.
  specialize (Hb (World (set_task_counter (_task_counter m + 1) m) u)).
  specialize (Hc0 (World (set_task_counter (_task_counter m + 1) m) u)).
  unfold state_of, result_of in *.
  destruct (body _) as [[r [m1 u1]] t1]; cbn [fst snd self] in *.
  destruct Hb as (He & Hq & Hc & Ht).
  destruct r; [| |done..]; cbn [fst snd self];
    destruct m, m1; unfold settled; cbn in *; (repeat split; [auto..|lia]).
Qed.

End SettleRules.

Create HintDb settles.

Ltac settles_step :=
  first
    [ solve [auto 2 with settles]
    | apply settles_ret
    | apply settles_raise
    | apply settles_suspend
    | apply settles_out_of_fuel
    | apply settles_get_self
    | apply settles_emit
    | apply settles_with_task_counter; [|solve [auto 2 with settles]]
    | apply settles_modify_self; by intros []
    | apply settles_bind; [|intros ?]
    | apply settles_try_except; [|intros ?]
    | apply settles_acatch
    | progress case_match ].

Ltac settles_auto := repeat settles_step.

Section SettleMethods.
Context {U : Type}.
Variable cfg : config.
Variable scan : Scan.
Variable cb : callbacks U.
Variable py_repr : pyval -> string.

Lemma settles_incoming_event_queue : settles (incoming_event_queue (U:=U)).
Proof.
  intros [m u]. destruct (_incoming_event_queue m) as [| |l] eqn:Hq.
  - rewrite incoming_event_queue_none by done. destruct m; cbn in *.
    repeat split; cbn; congruence.
  - rewrite incoming_event_queue_false by done. apply settled_refl.
  - rewrite (incoming_event_queue_live l) by done. apply settled_refl.
Qed.

(** A method that reads the slot and replaces a live queue by another. *)
Lemma settles_incoming_update {A} (k : queue_slot -> M U A) :
  (forall (m : BaseModule) (u : U) l,
     (exists r, k (QLive l) (World m u) = (r, World m u, []))
     \/ (exists l' a,
           k (QLive l) (World m u)
           = (Return a, World (set_incoming (QLive l') m) u, []))) ->
  (forall (m : BaseModule) (u : U),
     exists r, k QFalse (World m u) = (r, World m u, [])) ->
  settles (q <~ incoming_event_queue; k q).
Proof.
  intros Hlive Hfalse [m u]. unfold bind, state_of.
  destruct (_incoming_event_queue m) as [| |l] eqn:Hq.
  - rewrite incoming_event_queue_none by done.
    destruct (Hlive (set_incoming (QLive []) m) u []) as [[r ->]|(l' & a & ->)];
      cbn [fst snd self]; destruct m; cbn in *; repeat split; cbn; congruence.
  - rewrite incoming_event_queue_false by done.
    destruct (Hfalse m u) as [r ->]. apply settled_refl.
  - rewrite (incoming_event_queue_live l) by done.
    destruct (Hlive m u l) as [[r ->]|(l' & a & ->)]; cbn [fst snd self].
    + apply settled_refl.
    + destruct m; cbn in *. repeat split; cbn; congruence.
Qed.

Lemma settles_incoming_get_nowait : settles (incoming_get_nowait (U:=U)).
Proof.
  apply settles_incoming_update.
  - intros m u [|e l]; msimpl; eauto.
  - intros m u. msimpl. eauto.
Qed.

Lemma settles_incoming_get : settles (incoming_get (U:=U)).
Proof.
  apply settles_incoming_update.
  - intros m u [|e l]; msimpl; eauto.
  - intros m u. msimpl. eauto.
Qed.

Lemma settles_incoming_put_nowait (e : event) :
  settles (incoming_put_nowait (U:=U) e).
Proof.
  apply settles_incoming_update.
  - intros m u l. msimpl. eauto.
  - intros m u. msimpl. eauto.
Qed.

Lemma settles_set_error_state (message : option string) :
  settles (set_error_state (U:=U) cfg message).
Proof.
  intros [m u]. rewrite set_error_state_eq.
  destruct (errored m) eqn:He; [apply settled_refl|].
  destruct m; cbn in *. by repeat split.
Qed.

#[local] Hint Resolve settles_incoming_event_queue settles_incoming_get_nowait
  settles_incoming_get settles_incoming_put_nowait settles_set_error_state
  : settles.

Lemma settles_call_user {A} (c : callback) (args : list event)
    (f : U -> reply U A) :
  settles (call_user cfg c args f).
Proof.
  unfold call_user.
  apply settles_bind; [apply settles_emit|]. intros _.
  apply settles_bind; [intros w; apply settled_refl|].
  intros r. settles_auto.
Qed.

(** User code runs to its end: it returns or raises. *)
Lemma completes_call_user {A} (c : callback) (args : list event)
    (f : U -> reply U A) :
  completes (call_user cfg c args f).
Proof.
  intros [m u]. rewrite call_user_eq. unfold result_of. cbn [fst].
  by destruct (outcome (f u)).
Qed.

#[local] Hint Resolve settles_call_user completes_call_user : settles.

Lemma settles_outgoing_event_queue : settles (outgoing_event_queue (U:=U)).
Proof. unfold outgoing_event_queue. settles_auto. Qed.

Lemma settles_get_watched_events : settles (get_watched_events (U:=U) cfg).
Proof. unfold get_watched_events. settles_auto. Qed.

Lemma settles_notify (c : cond_id) : settles (notify (U:=U) c).
Proof. unfold notify. settles_auto. Qed.

Lemma settles_wait {A} (c : cond_id) : settles (wait (U:=U) (A:=A) c).
Proof. unfold wait. settles_auto. Qed.

#[local] Hint Resolve settles_outgoing_event_queue settles_get_watched_events
  settles_notify settles_wait : settles.

Lemma settles_num_incoming_events : settles (num_incoming_events (U:=U)).
Proof. unfold num_incoming_events. settles_auto. Qed.

Lemma settles__event_precheck (e : event) :
  settles (_event_precheck (U:=U) cfg e).
Proof. unfold _event_precheck. settles_auto. Qed.

Lemma settles__event_postcheck (e : event) :
  settles (_event_postcheck cfg scan cb e).
Proof. unfold _event_postcheck, _event_postcheck_accept. settles_auto. Qed.

#[local] Hint Resolve settles_num_incoming_events settles__event_precheck
  settles__event_postcheck : settles.

Lemma settles_events_waiting : settles (events_waiting cfg scan cb).
Proof.
  unfold events_waiting.
  apply settles_bind; [apply settles_get_self|]. intros m.
  apply settles_bind; [|intros [? ?]; apply settles_ret].
  generalize (@nil event) false.
  induction (S (slot_size (_incoming_event_queue m))) as [|fuel IH];
    intros events fin; cbn [events_waiting_loop].
  - apply settles_out_of_fuel.
  - apply settles_bind.
    + unfold events_waiting_pass. settles_auto.
    + intros [[ev f]|out]; [apply IH|apply settles_ret].
Qed.

#[local] Hint Resolve settles_events_waiting : settles.

Lemma settles__handle_batch : settles (_handle_batch cfg scan cb).
Proof.
  unfold _handle_batch, _handle_batch_submit, _handle_batch_wrapup.
  settles_auto.
Qed.

Lemma settles_single_arm : settles (single_arm cfg scan cb).
Proof. unfold single_arm. settles_auto. Qed.

#[local] Hint Resolve settles__handle_batch settles_single_arm : settles.

Lemma settles__worker_iteration : settles (_worker_iteration cfg scan cb).
Proof.
  unfold _worker_iteration, backpressure_gate, batch_arm, async_with_condition.
  settles_auto.
Qed.

Lemma settles__worker (fuel : nat) : settles (_worker cfg scan cb fuel).
Proof.
  unfold _worker.
  apply settles_bind; [|intros ?; apply settles_ret].
  apply settles_acatch.
  induction fuel as [|fuel IH]; cbn [_worker_loop].
  - destruct (stopping scan); [apply settles_ret|apply settles_out_of_fuel].
  - destruct (stopping scan); [apply settles_ret|].
    apply settles_bind; [apply settles__worker_iteration|].
    intros [|]; [apply IH|apply settles_ret].
Qed.

Lemma settles_queue_event (e : event) : settles (queue_event (U:=U) cfg e).
Proof. unfold queue_event, async_with_condition. settles_auto. Qed.

Lemma settles_emit_event (args : list pyval) (kw : kwargs) :
  settles (emit_event (U:=U) cfg scan args kw).
Proof. unfold emit_event, make_event, queue_outgoing_event. settles_auto. Qed.

Lemma settles_dequeue_outgoing_event : settles (dequeue_outgoing_event (U:=U)).
Proof. unfold dequeue_outgoing_event, with_condition. settles_auto. Qed.

Lemma settles__setup : settles (_setup cfg cb py_repr).
Proof. unfold _setup, _setup_except. settles_auto. Qed.

Lemma settles__cleanup : settles (_cleanup (U:=U) cfg cb).
Proof.
  unfold _cleanup.
  apply settles_bind; [apply settles_get_self|]. intros m.
  destruct (negb (_cleanedup m)); [|apply settles_ret].
  apply settles_bind; [settles_auto|]. intros _.
  induction (cleanup cb :: cleanup_callbacks cb) as [|f fs IH]; cbn [foldr].
  - apply settles_ret.
  - apply settles_bind; [settles_auto|]. intros _. apply IH.
Qed.

Lemma settled_run_call (c : call) (w : world U) :
  settled (self w) (self (run_call cfg scan cb py_repr c w)).
Proof.
  destruct c; cbn [run_call]; unfold after.
  - apply (settles_set_error_state message w).
  - apply (settles_queue_event e w).
  - apply (settles_emit_event args kw w).
  - apply (settles_dequeue_outgoing_event w).
  - apply (settles__setup w).
  - apply (settles__cleanup w).
  - apply (settles__worker fuel w).
Qed.

Lemma settled_later (w w' : world U) :
  later cfg scan cb py_repr w w' -> settled (self w) (self w').
Proof.
  induction 1 as [|w1 w2 w3 [c ->] _ IH]; [apply settled_refl|].
  eapply settled_trans; [apply settled_run_call|exact IH].
Qed.

End SettleMethods.

Section Invariants.
Context {U : Type}.
Variable cfg : config.
Variable scan : Scan.
Variable cb : callbacks U.
Variable py_repr : pyval -> string.

(** X1.  Whatever sequence of calls is made on a module ([set_error_state],
    [queue_event], [emit_event], [dequeue_outgoing_event], [_setup],
    [_cleanup], runs of [_worker]), the task counter is afterwards back at
    the value it had: every increment is matched by a decrement, also when
    the callback under the counter raises. *)
Theorem task_counter_restored (w w' : world U) :
  later cfg scan cb py_repr w w' ->
  _task_counter (self w') = _task_counter (self w).
Proof. intros H. by destruct (settled_later cfg scan cb py_repr w w' H) as (_ & _ & _ & ?). Qed.

(** X2.  The latches of a module are one-way under every sequence of calls:
    once [errored] is true it stays true, once the incoming queue is the
    disabled sentinel it is never replaced by a queue again, and once
    [_cleanedup] is set it stays set. *)
Theorem latches_stay (w w' : world U) :
  later cfg scan cb py_repr w w' ->
  (errored (self w) = true -> errored (self w') = true)
  /\ (_incoming_event_queue (self w) = QFalse ->
      _incoming_event_queue (self w') = QFalse)
  /\ (_cleanedup (self w) = true -> _cleanedup (self w') = true).
Proof.
  intros H. destruct (settled_later cfg scan cb py_repr w w' H) as (? & ? & ? & _).
  done.
Qed.

End Invariants.

Lemma task_counter_restored_witness :
  _task_counter
    (self (run_call base_config strict_scan untidy_callbacks plain_repr
             CallCleanup busy_world))
  = _task_counter (self busy_world).
Proof.
  apply (task_counter_restored base_config strict_scan untidy_callbacks plain_repr
           busy_world).
  apply rtc_once. by exists CallCleanup.
Defined.

Lemma latches_stay_witness :
  errored
    (self (run_call base_config strict_scan base_callbacks plain_repr
             (CallQueueEvent ip_range)
             (run_call base_config strict_scan base_callbacks plain_repr
                (CallSetErrorState None) busy_world)))
  = true.
Proof.
  apply (latches_stay base_config strict_scan base_callbacks plain_repr
           (run_call base_config strict_scan base_callbacks plain_repr
              (CallSetErrorState None) busy_world)).
  - apply rtc_once. by exists (CallQueueEvent ip_range).
  - reflexivity.
Defined.

Section FailCount.
Context {U : Type}.
Variable cfg : config.
Variable threshold : Z.
Variable fmt : Z -> string.

(** One request, in closed form. *)
Lemma request_with_fail_count_eq {R} (r : option R) (m : BaseModule) (u : U) :
  let c := match r with
           | None => _request_failures m + 1
           | Some _ => 0
           end in
  let m1 := set_request_failures c m in
  exists m2 t,
    request_with_fail_count cfg threshold fmt r (World m u)
    = (Return r, World m2 u, t)
    /\ _request_failures m2 = c
    /\ errored m2 = errored m || (threshold <=? c)
    /\ (errored m2 = true -> errored m = false ->
        _incoming_event_queue m2 = QFalse)
    /\ (_incoming_event_queue m = QFalse -> _incoming_event_queue m2 = QFalse)
    /\ _outgoing_event_queue m2 = _outgoing_event_queue m.
Proof.
  cbv zeta. unfold request_with_fail_count.
  unfold bind at 1, get_self at 1. cbn [self].
  set (c := match r with None => _request_failures m + 1 | Some _ => 0 end).
  assert (Hstep : (match r with
                   | None => modify_self (set_request_failures (_request_failures m + 1))
                   | Some _ => modify_self (set_request_failures 0)
                   end : M U unit) (World m u)
                  = (Return tt, World (set_request_failures c m) u, [])).
  { unfold c. by destruct r. }
  unfold bind at 1. rewrite Hstep.
  unfold bind at 1, get_self at 1. cbn [self user].
  replace (_request_failures (set_request_failures c m)) with c by by destruct m.
  destruct (threshold <=? c) eqn:Hth.
  - unfold bind at 1. rewrite set_error_state_eq.
    replace (errored (set_request_failures c m)) with (errored m) by by destruct m.
    destruct (errored m) eqn:He; msimpl; eexists _, _; (split; [reflexivity|]).
    + destruct m; cbn in *. by repeat split.
    + destruct m; cbn in *. by repeat split.
  - msimpl. eexists _, _. split; [reflexivity|].
    rewrite orb_false_r. destruct m; cbn in *. repeat split; congruence.
Qed.

(** A run of [k] failed requests on a module that starts with some failures
    on its count. *)
Lemma failed_requests {R} (k : nat) (m : BaseModule) (u : U) :
  let w' := after (requests_with_fail_count cfg threshold fmt
                     (replicate k (None : option R))) (World m u) in
  _request_failures (self w') = _request_failures m + Z.of_nat k
  /\ errored (self w')
     = errored m
       || ((0 <? Z.of_nat k) && (threshold <=? _request_failures m + Z.of_nat k))
  /\ (errored (self w') = true -> errored m = false ->
      _incoming_event_queue (self w') = QFalse)
  /\ (_incoming_event_queue m = QFalse ->
      _incoming_event_queue (self w') = QFalse).
Proof.
  cbv zeta. revert m. induction k as [|k IH]; intros m.
  - cbn. rewrite orb_false_r, Z.add_0_r. repeat split; congruence.
  - cbn [replicate requests_with_fail_count]. unfold after, bind.
    destruct (request_with_fail_count_eq (None : option R) m u)
      as (m2 & t & -> & Hc & He & Hq & Hs & _).
    cbv zeta in *.
    specialize (IH m2). unfold after in IH.
    destruct (requests_with_fail_count cfg threshold fmt (replicate k None)
                (World m2 u)) as [[r [m3 u3]] t3].
    cbn [fst snd self] in *.
    destruct IH as (Hc3 & He3 & Hq3 & Hs3).
    split; [lia|]. split; [|split].
    + rewrite He3, He, Hc.
      destruct (errored m); [done|]. cbn [orb].
      destruct (Z.leb_spec threshold (_request_failures m + 1)),
               (Z.ltb_spec 0 (Z.of_nat k)),
               (Z.ltb_spec 0 (Z.of_nat (S k))),
               (Z.leb_spec threshold (_request_failures m + 1 + Z.of_nat k)),
               (Z.leb_spec threshold (_request_failures m + Z.of_nat (S k)));
        cbn; try done; lia.
    + intros He3' Hem.
      destruct (errored m2) eqn:He2; [apply Hs3; by apply Hq|by apply Hq3].
    + intros Hf. by apply Hs3, Hs.
Qed.

(** X3.  Fail-threshold quarantine.  On a module that is not in error state
    and has no failed request on its count, after [k] requests in a row that
    came back with no response, the count is [k], and the module is in error
    state exactly when [k] is positive and has reached
    [failed_request_abort_threshold]; from then on its incoming queue is
    disabled. *)
Theorem fail_count_threshold {R} (k : nat) (w : world U) :
  errored (self w) = false ->
  _request_failures (self w) = 0 ->
  let w' := after (requests_with_fail_count cfg threshold fmt
                     (replicate k (None : option R))) w in
  _request_failures (self w') = Z.of_nat k
  /\ errored (self w') = (0 <? Z.of_nat k) && (threshold <=? Z.of_nat k)
  /\ (errored (self w') = true -> _incoming_event_queue (self w') = QFalse).
Proof.
  intros He Hc. destruct w as [m u]. cbn [self] in *.
  destruct (failed_requests (R:=R) k m u) as (H1 & H2 & H3 & _).
  cbv zeta in *. rewrite Hc, He in *. cbn [orb] in *.
  rewrite Z.add_0_l in *. split; [done|]. split; [done|]. auto.
Qed.

(** X4.  A request that comes back with a response puts the failure count
    back to zero and is handed to the caller as it is.  It leaves the error
    state alone unless [failed_request_abort_threshold] is zero or negative,
    in which case even a successful request puts the module in error
    state. *)
Theorem request_success_resets {R} (r : R) (w : world U) :
  let x := request_with_fail_count cfg threshold fmt (Some r) w in
  result_of x = Return (Some r)
  /\ _request_failures (state_of x) = 0
  /\ errored (state_of x) = errored (self w) || (threshold <=? 0)
  /\ _outgoing_event_queue (state_of x) = _outgoing_event_queue (self w).
Proof.
  cbv zeta. destruct w as [m u].
  destruct (request_with_fail_count_eq (Some r) m u)
    as (m2 & t & -> & Hc & He & _ & _ & Ho).
  by repeat split.
Qed.

End FailCount.

Lemma fail_count_threshold_witness :
  errored
    (self (after (requests_with_fail_count base_config 3 pretty
                    (replicate 3 (None : option string))) busy_world))
  = true.
Proof.
  destruct (fail_count_threshold (R:=string) base_config 3 pretty 3 busy_world)
    as (_ & He & _).
  - reflexivity.
  - reflexivity.
  - exact He.
Defined.

(** ** Queues *)

Lemma pq_put_Permutation {A} (key : A -> Z) (x : A) (q : list A) :
  pq_put key x q ≡ₚ x :: q.
Proof.
  induction q as [|y q IH]; [done|]. cbn [pq_put].
  destruct (key x <? key y); [done|].
  rewrite IH. apply Permutation_swap.
Qed.

(** ** Reading the calls off a trace *)

Lemma calls_cons (a : action) (t : list action) :
  calls (a :: t)
  = match a with
    | Enter c args => (c, args) :: calls t
    | _ => calls t
    end.
Proof. by destruct a. Qed.

Lemma calls_app (t1 t2 : list action) : calls (t1 ++ t2) = calls t1 ++ calls t2.
Proof. apply omap_app. Qed.

Lemma calls_quiet (t : list action) : Forall quiet_action t -> calls t = [].
Proof.
  induction 1 as [|a t Ha _ IH]; [done|].
  rewrite calls_cons. by destruct a.
Qed.

Ltac calls_simpl :=
  repeat first
    [ rewrite calls_app | rewrite calls_cons
    | rewrite calls_quiet by apply quiet_user_trace ];
  cbn [app].

Section Progress.
Context {U : Type}.
Variable cfg : config.
Variable scan : Scan.
Variable cb : callbacks U.

(** X5.  Quarantine leaves nothing behind that could hold the scan up: once
    [set_error_state] has run on a module with no task in flight and nothing
    in its outgoing queue, [finished] is true and [status] reports no
    incoming event, whatever was waiting in the incoming queue before. *)
Theorem quarantine_finishes (message : option string) (w : world U) :
  errored (self w) = false ->
  _task_counter (self w) <= 0 ->
  default [] (_outgoing_event_queue (self w)) = [] ->
  let w1 := after (set_error_state cfg message) w in
  result_of (finished w1) = Return true
  /\ (exists s, result_of (status w1) = Return s
                /\ status_incoming s = 0 /\ status_errored s = true
                /\ status_running s = false).
Proof.
  intros He Hc Ho. destruct w as [m u]. cbn [self] in *. cbv zeta.
  unfold after. rewrite set_error_state_eq, He. cbn [fst snd].
  assert (Hnum : forall m', _incoming_event_queue m' = QFalse ->
                 num_incoming_events (World m' u) = (Return 0, World m' u, [])).
  { intros m' Hq. unfold num_incoming_events, bind.
    by rewrite (incoming_event_queue_false _ _ Hq). }
  assert (Hrun : (0 <? _task_counter (quarantined_state m)) = false).
  { apply Z.ltb_ge. by destruct m. }
  assert (Hout : exists m',
    outgoing_event_queue (World (quarantined_state m) u) = (Return [], World m' u, [])
    /\ _task_counter m' = _task_counter (quarantined_state m)
    /\ errored m' = true).
  { unfold outgoing_event_queue. msimpl.
    destruct m as [er iq [q|] lb cl we tc rf rw dw sr]; cbn in *; subst;
      by eexists. }
  destruct Hout as (m' & Hout & Htc & Her).
  split.
  - unfold finished, running. msimpl. rewrite Hrun. msimpl.
    rewrite Hnum by (by destruct m). msimpl. cbn [Z.leb Z.compare].
    by rewrite Hout.
  - unfold status, running. msimpl.
    rewrite Hnum by (by destruct m). msimpl. rewrite Hout. msimpl.
    eexists. split; [reflexivity|]. cbn. rewrite Htc, Hrun. by repeat split.
Qed.

(** The verdict of pre-check depends on the module only through its error
    state and the watched events it has cached; the call changes neither the
    queues nor who is waiting. *)
Lemma precheck_shape (e : event) (m1 m2 : BaseModule) (u : U) :
  errored m1 = errored m2 ->
  _watched_events m1 = _watched_events m2 ->
  exists acc reason m1' m2',
    _event_precheck cfg e (World m1 u) = (Return (acc, reason), World m1' u, [])
    /\ _event_precheck cfg e (World m2 u) = (Return (acc, reason), World m2' u, [])
    /\ _incoming_event_queue m2' = _incoming_event_queue m2
    /\ received_waiters m2' = received_waiters m2.
Proof.
  intros He Hw. unfold _event_precheck, get_watched_events.
  destruct (String.eqb (type e) "FINISHED"); [by eexists _, _, _, _|].
  msimpl. rewrite He.
  destruct (errored m2); [by eexists _, _, _, _|].
  msimpl. rewrite Hw.
  destruct (_watched_events m2) as [ws|];
    repeat (msimpl;
            match goal with
            | |- context [if ?b then _ else _] => destruct b
            end);
    msimpl;
    eexists _, _, _, _; (split; [reflexivity|]); (split; [reflexivity|]);
    by destruct m2.
Qed.

End Progress.

Section Delivery.
Context {U : Type}.
Variable cfg : config.
Variable scan : Scan.
Variable cb : callbacks U.

(** [queue_event] on a module whose queue is not disabled, in closed form. *)
Lemma queue_event_live (e : event) (m : BaseModule) (u : U) :
  _incoming_event_queue m <> QFalse ->
  exists acc reason m' t,
    result_of (_event_precheck cfg e (World m u)) = Return (acc, reason)
    /\ queue_event cfg e (World m u) = (Return tt, World m' u, t)
    /\ _incoming_event_queue m'
       = QLive (if acc then pq_put priority e (slot_items (_incoming_event_queue m))
                else slot_items (_incoming_event_queue m))
    /\ t = (if acc
            then [Notified EventReceived (Nat.min 1 (received_waiters m))]
            else if negb (String.eqb reason "")
                    && negb (String.eqb reason "its type is not in watched_events")
                 then [Log LDebug (NotAccepting e reason)] else [])
    /\ received_waiters m'
       = (if acc then received_waiters m - Nat.min 1 (received_waiters m)
          else received_waiters m)%nat.
Proof.
  intros Hq. unfold queue_event. unfold bind at 1.
  assert (Hprop : exists m0,
    incoming_event_queue (World m u)
    = (Return (QLive (slot_items (_incoming_event_queue m))), World m0 u, [])
    /\ _incoming_event_queue m0 = QLive (slot_items (_incoming_event_queue m))
    /\ errored m0 = errored m /\ _watched_events m0 = _watched_events m
    /\ received_waiters m0 = received_waiters m).
  { destruct (_incoming_event_queue m) as [| |l] eqn:Hs; [|done|].
    - rewrite incoming_event_queue_none by done. eexists.
      split; [reflexivity|]. by destruct m.
    - rewrite (incoming_event_queue_live l) by done. by eexists. }
  destruct Hprop as (m0 & -> & Hq0 & He0 & Hw0 & Hr0).
  cbn [slot_truthy negb].
  destruct (precheck_shape cfg e m m0 u (eq_sym He0) (eq_sym Hw0))
    as (acc & reason & m1 & m2 & Hp1 & Hp2 & Hq2 & Hr2).
  exists acc, reason. rewrite Hp1.
  unfold bind at 1. rewrite Hp2.
  destruct acc; cbn [negb].
  - unfold try_except, async_with_condition. unfold bind at 1.
    unfold incoming_put_nowait. unfold bind at 1.
    rewrite (incoming_event_queue_live (slot_items (_incoming_event_queue m)))
      by congruence.
    unfold notify. msimpl.
    eexists _, _. split; [reflexivity|]. split; [reflexivity|].
    destruct m2; cbn in *. rewrite Hr2, Hr0. by repeat split.
  - destruct (negb (String.eqb reason "")
              && negb (String.eqb reason "its type is not in watched_events"));
      msimpl; eexists _, _; (split; [reflexivity|]); (split; [reflexivity|]);
      rewrite Hq2, Hq0, Hr2, Hr0; by repeat split.
Qed.

(** X6.  [queue_event] enqueues exactly what pre-check accepts.  On a module
    whose incoming queue is not disabled it returns normally; if pre-check
    accepts the event, the queue afterwards holds the event and what it held
    before, and one task waiting on [event_received] (if any) is notified; if
    pre-check rejects it, the queue holds what it held before and nobody is
    notified. *)
Theorem queue_event_enqueues (e : event) (w : world U) :
  _incoming_event_queue (self w) <> QFalse ->
  exists acc reason,
    result_of (_event_precheck cfg e w) = Return (acc, reason)
    /\ result_of (queue_event cfg e w) = Return tt
    /\ slot_items (_incoming_event_queue (state_of (queue_event cfg e w)))
       ≡ₚ (if acc then e :: slot_items (_incoming_event_queue (self w))
           else slot_items (_incoming_event_queue (self w)))
    /\ (if acc
        then trace_of (queue_event cfg e w)
             = [Notified EventReceived (Nat.min 1 (received_waiters (self w)))]
        else forall c n, Notified c n ∉ trace_of (queue_event cfg e w)).
Proof.
  intros Hq. destruct w as [m u]. cbn [self] in *.
  destruct (queue_event_live e m u Hq)
    as (acc & reason & m' & t & Hp & -> & Hq' & -> & _).
  exists acc, reason. split; [done|]. split; [done|].
  unfold state_of, trace_of. cbn [fst snd self]. rewrite Hq'. cbn [slot_items].
  destruct acc.
  - split; [apply pq_put_Permutation|done].
  - split; [done|]. intros c n.
    destruct (negb (String.eqb reason "") && _); set_solver.
Qed.

(** X7.  FINISHED always gets through.  Whatever the module watches, and
    whether or not it is [target_only] or in error state, [queue_event] puts a
    FINISHED event on an incoming queue that is not disabled; a single-event
    worker that finds it at the head of the queue skips the filters and calls
    [finish], under the task counter. *)
Theorem finished_always_delivered (fin : event) (w : world U) :
  type fin = "FINISHED" ->
  _incoming_event_queue (self w) <> QFalse ->
  slot_items (_incoming_event_queue (self w)) = [] ->
  let w1 := after (queue_event cfg fin) w in
  _incoming_event_queue (self w1) = QLive [fin]
  /\ calls (trace_of (single_arm cfg scan cb w1)) = [(CbFinish, [])]
  /\ counter_tracks (_task_counter (self w1)) (trace_of (single_arm cfg scan cb w1))
     = true.
Proof.
  intros Hfin Hq Hempty. destruct w as [m u]. cbn [self] in *. cbv zeta.
  destruct (queue_event_live fin m u Hq)
    as (acc & reason & m' & t & Hp & Heq & Hq' & _ & _).
  assert (acc = true) as ->.
  { unfold _event_precheck in Hp. rewrite Hfin in Hp. by injection Hp. }
  unfold after. rewrite Heq. cbn [fst snd self].
  rewrite Hempty in Hq'. cbn [pq_put] in Hq'.
  split; [done|].
  split; [|by apply (single_arm_finish_counted cfg scan cb fin [] (World m' u))].
  unfold single_arm, try_except, incoming_get. msimpl.
  rewrite (incoming_event_queue_live _ _ _ Hq'). msimpl.
  rewrite (incoming_event_queue_live _ _ _ Hq'). msimpl.
  unfold _event_postcheck. rewrite Hfin. cbn [String.eqb Ascii.eqb Bool.eqb].
  msimpl. unfold acatch, with_task_counter, try_finally. msimpl.
  rewrite call_user_eq.
  destruct (outcome (finish cb u)); cbn [outcome_result outcome_ok]; msimpl;
    unfold trace_of; cbn [snd]; by calls_simpl.
Qed.

End Delivery.

Ltac invoked_simpl :=
  repeat first
    [ rewrite invoked_app | rewrite invoked_cons
    | rewrite invoked_user_trace | rewrite invoked_nil ];
  cbn [callback_eqb orb andb].

Lemma user_effect_cleanedup {U A} (r : reply U A) (m : BaseModule) :
  _cleanedup (user_effect r m) = _cleanedup m.
Proof.
  unfold user_effect. destruct (quarantine r); [|done].
  destruct (errored m); by destruct m.
Qed.

Section Worker.
Context {U : Type}.
Variable cfg : config.
Variable scan : Scan.
Variable cb : callbacks U.

Lemma postcheck_invokes_only_filter (c : callback) (e : event) (w : world U) :
  c <> CbFilterEvent ->
  invoked c (trace_of (_event_postcheck cfg scan cb e w)) = false.
Proof.
  intros Hc.
  destruct (obeys__event_postcheck any_module only_filter false stable_any_module
              cfg scan cb e eq_refl w I) as (_ & Ht & _).
  eapply invoked_permits; [|exact Ht]. by destruct c.
Qed.

(** X8.  The single-event arm hands an event to user code only if post-check
    accepts it.  With [e] at the head of the queue, one pass of the arm takes
    [e] off the queue and runs post-check on it; [handle_event] is invoked
    exactly when post-check accepts and [e] is not FINISHED, [finish] exactly
    when post-check accepts and [e] is FINISHED, and the pass always goes on
    to the next iteration. *)
Theorem single_arm_dispatch (e : event) (rest : list event) (w : world U) :
  _incoming_event_queue (self w) = QLive (e :: rest) ->
  let w1 := World (set_incoming (QLive rest) (self w)) (user w) in
  exists acc reason,
    result_of (_event_postcheck cfg scan cb e w1) = Return (acc, reason)
    /\ result_of (single_arm cfg scan cb w) = Return Continue
    /\ invoked CbHandleEvent (trace_of (single_arm cfg scan cb w))
       = acc && negb (String.eqb (type e) "FINISHED")
    /\ invoked CbFinish (trace_of (single_arm cfg scan cb w))
       = acc && String.eqb (type e) "FINISHED"
    /\ invoked CbHandleBatch (trace_of (single_arm cfg scan cb w)) = false.
Proof.
  intros Hq. destruct w as [m u]. cbn [self user] in *. cbv zeta.
  destruct (postcheck_cases cfg scan cb e (set_incoming (QLive rest) m) u)
    as (acc & reason & m' & u' & t & Hpc & _).
  pose proof (fun c H => postcheck_invokes_only_filter c e
                (World (set_incoming (QLive rest) m) u) H) as Hinv.
  rewrite Hpc in Hinv. unfold trace_of in Hinv. cbn [snd] in Hinv.
  exists acc, reason. rewrite Hpc. split; [done|].
  unfold single_arm, try_except, incoming_get. msimpl.
  rewrite (incoming_event_queue_live _ _ _ Hq). msimpl.
  rewrite (incoming_event_queue_live _ _ _ Hq). msimpl.
  rewrite Hpc.
  destruct acc; msimpl.
  - destruct (String.eqb (type e) "FINISHED"); msimpl;
      unfold acatch, with_task_counter, try_finally; msimpl;
      rewrite call_user_eq;
      match goal with
      | |- context [outcome_result ?o] => destruct o
      end; cbn [outcome_result outcome_ok]; msimpl;
      unfold result_of, trace_of; cbn [fst snd]; invoked_simpl;
      rewrite !Hinv by done; by repeat split.
  - unfold result_of, trace_of; cbn [fst snd]. invoked_simpl.
    rewrite !Hinv by done. by repeat split.
Qed.

(** The callbacks of [_cleanup], one after the other. *)
Lemma cleanup_loop (fs : list (U -> reply U unit)) (m : BaseModule) (u : U) :
  exists m' t,
    foldr (fun callback rest =>
             acatch (name cfg)
               (with_task_counter (call_user cfg CbCleanup [] callback));;
             rest)
          (ret tt) fs (World m u)
    = (Return tt, World m' (foldl (fun u f => next (f u)) u fs), t)
    /\ calls t = replicate (length fs) (CbCleanup, [])
    /\ _cleanedup m' = _cleanedup m.
Proof.
  revert m u. induction fs as [|f fs IH]; intros m u.
  - by eexists _, _.
  - cbn [foldr foldl length replicate].
    set (rest := foldr _ _ fs) in *.
    unfold bind at 1. unfold acatch, with_task_counter, try_finally.
    unfold bind at 1, modify_self at 1. cbn [self user].
    unfold bind at 1, emit at 1. rewrite call_user_eq.
    set (m1 := user_effect (f u) (set_task_counter (_task_counter m + 1) m)).
    destruct (IH (set_task_counter (_task_counter m1 - 1) m1) (next (f u)))
      as (m' & t & Heq & Hcalls & Hlatch).
    destruct (outcome (f u)); cbn [outcome_result outcome_ok]; msimpl;
      rewrite Heq; eexists _, _; (split; [reflexivity|]);
      (split; [calls_simpl; by rewrite Hcalls|]);
      rewrite Hlatch; subst m1;
      (transitivity (_cleanedup (user_effect (f u)
                                   (set_task_counter (_task_counter m + 1) m)));
       [by destruct (user_effect _ _)|]);
      rewrite user_effect_cleanedup; by destruct m.
Qed.

(** X9.  Cleanup runs once, and all of it.  The first [_cleanup] sets the
    latch and calls [cleanup] and then every registered cleanup callback,
    each exactly once and in registration order, going on to the next one
    also when one raises; a second [_cleanup] does nothing at all. *)
Theorem cleanup_once (w : world U) :
  _cleanedup (self w) = false ->
  let x := _cleanup cfg cb w in
  result_of x = Return tt
  /\ _cleanedup (state_of x) = true
  /\ calls (trace_of x)
     = replicate (S (length (cleanup_callbacks cb))) (CbCleanup, [])
  /\ user (after (_cleanup cfg cb) w)
     = foldl (fun u f => next (f u)) (user w) (cleanup cb :: cleanup_callbacks cb)
  /\ _cleanup cfg cb (after (_cleanup cfg cb) w)
     = (Return tt, after (_cleanup cfg cb) w, []).
Proof.
  intros Hl. destruct w as [m u]. cbn [self user] in *. cbv zeta.
  destruct (cleanup_loop (cleanup cb :: cleanup_callbacks cb)
              (set_cleanedup true m) u) as (m' & t & Heq & Hcalls & Hlatch).
  assert (Hfirst : _cleanup cfg cb (World m u)
                   = (Return tt,
                      World m' (foldl (fun u f => next (f u)) u
                                  (cleanup cb :: cleanup_callbacks cb)), t)).
  { unfold _cleanup. unfold bind at 1, get_self at 1. cbn [self].
    rewrite Hl. cbn [negb]. unfold bind at 1, modify_self at 1.
    cbn [self user]. by rewrite Heq. }
  assert (Hset : _cleanedup m' = true) by (rewrite Hlatch; by destruct m).
  unfold after. rewrite Hfirst. cbn [fst snd].
  split; [done|]. split; [done|]. split; [done|]. split; [done|].
  unfold _cleanup. unfold bind, get_self. cbn [self]. by rewrite Hset.
Qed.

(** X10.  Backpressure.  While the outgoing queue of a module with a finite
    [_qsize] holds [_qsize] items or more, a worker does nothing but wait on
    [event_dequeued]: it takes no event off the incoming queue and runs no
    user code. *)
Theorem backpressure_holds_worker (q : list out_item) (fuel : nat) (w : world U) :
  stopping scan = false ->
  0 < _qsize cfg ->
  _outgoing_event_queue (self w) = Some q ->
  _qsize cfg <= Z.of_nat (length q) ->
  _worker cfg scan cb (S fuel) w
  = (Suspend (WaitCondition EventDequeued),
     World (set_waiters EventDequeued (S (dequeued_waiters (self w))) (self w))
       (user w), []).
Proof.
  intros Hs Hsize Hq Hfull. destruct w as [m u]. cbn [self user] in *.
  unfold _worker, acatch. cbn [_worker_loop]. rewrite Hs.
  unfold bind at 1. unfold bind at 1.
  unfold _worker_iteration, backpressure_gate, async_with_condition.
  rewrite (proj2 (Z.ltb_lt _ _) Hsize).
  unfold outgoing_event_queue, wait. msimpl. rewrite Hq. msimpl.
  rewrite (proj2 (Z.leb_le _ _) Hfull). msimpl. reflexivity.
Qed.

(** X11.  How a worker ends.  When the scan is stopping, a worker returns at
    once.  Otherwise a single-event worker (with no backpressure configured)
    that finds the incoming queue disabled logs that the queue is in a bad
    state and returns, leaving the module as it is. *)
Theorem worker_returns (fuel : nat) (w : world U) :
  (stopping scan = true -> _worker cfg scan cb fuel w = (Return tt, w, []))
  /\ (stopping scan = false ->
      batch_size cfg <= 1 -> _qsize cfg <= 0 ->
      _incoming_event_queue (self w) = QFalse ->
      _worker cfg scan cb (S fuel) w
      = (Return tt, w, [Log LDebug (Text "Event queue is in bad state")])).
Proof.
  destruct w as [m u]. cbn [self]. split.
  - intros Hs. unfold _worker, acatch.
    destruct fuel; cbn [_worker_loop]; rewrite Hs; reflexivity.
  - intros Hs Hb Hsize Hq.
    unfold _worker, acatch. cbn [_worker_loop]. rewrite Hs.
    unfold bind at 1. unfold bind at 1.
    unfold _worker_iteration, backpressure_gate.
    rewrite (proj2 (Z.ltb_ge _ _) Hsize), (proj2 (Z.ltb_ge _ _) Hb).
    unfold bind at 1. unfold ret at 1.
    unfold single_arm, try_except. unfold bind at 1. unfold bind at 1.
    rewrite (incoming_event_queue_false _ _ Hq). msimpl. reflexivity.
Qed.

End Worker.

(** ** Emitting events *)

Lemma split_kwargs_closed (kw : kwargs) :
  let keep (o : string) (em : kwargs) : kwargs :=
    match kw !! o with
    | Some (PAtom ANone) | None => em
    | Some v => <[o := v]> em
    end in
  split_kwargs kw
  = (delete "quick" (delete "abort_if" (delete "on_success_callback" kw)),
     keep "quick" (keep "abort_if" (keep "on_success_callback" ∅))).
Proof.
  cbv zeta. unfold split_kwargs, kwargs in *. cbn [foldl].
  destruct (kw !! "on_success_callback") as [[[]|]|];
    cbv beta iota zeta delta [default from_option id PNone];
    rewrite (lookup_delete_ne kw "on_success_callback" "abort_if") by done;
    destruct (kw !! "abort_if") as [[[]|]|];
    cbv beta iota zeta;
    rewrite (lookup_delete_ne (delete "on_success_callback" kw)
               "abort_if" "quick") by done;
    rewrite (lookup_delete_ne kw "on_success_callback" "quick") by done;
    destruct (kw !! "quick") as [[[]|]|]; reflexivity.
Qed.

(** X12.  [emit_event] splits its keyword arguments cleanly.  The three emit
    options never reach [make_event]; every other keyword argument reaches it
    unchanged; and the controller is handed exactly the emit options that
    were given with a value other than [None]. *)
Theorem split_kwargs_spec (kw : kwargs) (k : string) :
  (split_kwargs kw).1 !! k
  = (if bool_decide (k ∈ emit_options) then None else kw !! k)
  /\ (split_kwargs kw).2 !! k
     = (if bool_decide (k ∈ emit_options)
        then match kw !! k with
             | Some (PAtom ANone) => None
             | other => other
             end
        else None).
Proof.
  rewrite split_kwargs_closed. cbn [fst snd]. unfold emit_options, kwargs in *.
  destruct (decide (k = "on_success_callback")) as [->|H1];
    [|destruct (decide (k = "abort_if")) as [->|H2];
      [|destruct (decide (k = "quick")) as [->|H3]]].
  - rewrite bool_decide_eq_true_2 by set_solver. split.
    + by rewrite !lookup_delete_ne, lookup_delete_eq by done.
    + destruct (kw !! "on_success_callback") as [[[]|]|] eqn:Ho;
        destruct (kw !! "abort_if") as [[[]|]|];
        destruct (kw !! "quick") as [[[]|]|];
        rewrite ?lookup_insert_ne by done;
        rewrite ?lookup_insert_eq, ?lookup_empty; done.
  - rewrite bool_decide_eq_true_2 by set_solver. split.
    + by rewrite lookup_delete_ne, lookup_delete_eq by done.
    + destruct (kw !! "on_success_callback") as [[[]|]|];
        destruct (kw !! "abort_if") as [[[]|]|] eqn:Ho;
        destruct (kw !! "quick") as [[[]|]|];
        rewrite ?lookup_insert_ne by done;
        rewrite ?lookup_insert_eq, ?lookup_insert_ne, ?lookup_empty by done; done.
  - rewrite bool_decide_eq_true_2 by set_solver. split.
    + by rewrite lookup_delete_eq.
    + destruct (kw !! "on_success_callback") as [[[]|]|];
        destruct (kw !! "abort_if") as [[[]|]|];
        destruct (kw !! "quick") as [[[]|]|] eqn:Ho;
        rewrite ?lookup_insert_eq, ?lookup_insert_ne, ?lookup_empty by done; done.
  - rewrite bool_decide_eq_false_2 by set_solver. split.
    + by rewrite !lookup_delete_ne by done.
    + destruct (kw !! "on_success_callback") as [[[]|]|];
        destruct (kw !! "abort_if") as [[[]|]|];
        destruct (kw !! "quick") as [[[]|]|];
        rewrite ?lookup_insert_ne, ?lookup_empty by done; done.
Qed.

Section Emitting.
Context {U : Type}.
Variable cfg : config.
Variable scan : Scan.


(** X14.  A caller who passes a true [raise_error] to [emit_event] gets the
    [ValidationError] of a failed minting, and nothing is queued or logged:
    the module is left exactly as it was. *)
Theorem emit_event_reraises (args : list pyval) (kw : kwargs) (v : pyval)
    (msg : string) (w : world U) :
  kw !! "raise_error" = Some v -> truthy v = true ->
  scan_make_event scan args (delete "raise_error" (split_kwargs kw).1) = Invalid msg ->
  emit_event cfg scan args kw w = (Raise (ValidationError msg), w, []).
Proof.
  intros Hv Ht Hm.
  assert (Hk : (split_kwargs kw).1 !! "raise_error" = kw !! "raise_error").
  { rewrite split_kwargs_closed. cbn [fst]. unfold kwargs in *.
    by rewrite !lookup_delete_ne by done. }
  unfold emit_event. destruct (split_kwargs kw) as [event_kwargs emit_kwargs].
  cbn [fst snd] in *.
  unfold bind. rewrite (make_event_invalid cfg scan _ _ _ _ Hm).
  rewrite Hk, Hv. cbv [default from_option id]. by rewrite Ht.
Qed.

End Emitting.

(** ** Pre-check and post-check *)

Lemma user_trace_logs {U A} (cfg : config) (r : reply U A) (m : BaseModule)
    (a : action) :
  a ∈ user_trace cfg r m -> exists l x, a = Log l x.
Proof.
  unfold user_trace, set_error_trace.
  destruct (quarantine r) as [[s|]|]; [| |set_solver];
    (destruct (errored m); [set_solver|]);
    destruct (_incoming_event_queue m);
    rewrite ?elem_of_app, ?elem_of_cons, ?elem_of_nil; naive_solver.
Qed.

Lemma user_effect_stats {U A} (r : reply U A) (m : BaseModule) :
  stats_recorded (user_effect r m) = stats_recorded m.
Proof.
  unfold user_effect. destruct (quarantine r); [|done].
  destruct (errored m); by destruct m.
Qed.

Section Checks.
Context {U : Type}.
Variable cfg : config.
Variable scan : Scan.
Variable cb : callbacks U.

(** X15.  What pre-check lets through.  An event other than FINISHED that
    pre-check accepts is accepted with an empty reason, by a module that is
    not in error state and that watches the type of the event (or "*"); it
    carries the tag "target" if the module is [target_only]; and if it is a
    URL tagged "httpx-only", the module is httpx. *)
Theorem precheck_accept_sound (e : event) (reason : string) (w : world U) :
  type e <> "FINISHED" ->
  result_of (_event_precheck cfg e w) = Return (true, reason) ->
  reason = ""
  /\ errored (self w) = false
  /\ ("*" ∈ watched_now cfg (self w) \/ type e ∈ watched_now cfg (self w))
  /\ (target_only cfg = true -> "target" ∈ tags e)
  /\ (String.prefix "URL" (type e) = true -> "httpx-only" ∈ tags e ->
      name cfg = "httpx").
Proof.
  intros Hfin. apply String.eqb_neq in Hfin. destruct w as [m u]. cbn [self].
  unfold _event_precheck, get_watched_events, watched_now. rewrite Hfin.
  msimpl. destruct (errored m); [done|]. msimpl.
  destruct (_watched_events m) as [ws|]; cbn [default]; msimpl.
  all: destruct (bool_decide ("*" ∈ _)) eqn:H1;
    destruct (bool_decide (type e ∈ _)) eqn:H2;
    destruct (target_only cfg);
    destruct (bool_decide ("target" ∈ tags e)) eqn:H3;
    destruct (String.prefix "URL" (type e));
    destruct (String.eqb (name cfg) "httpx") eqn:H4;
    destruct (bool_decide ("httpx-only" ∈ tags e)) eqn:H5;
    destruct (_ && forallb _ _);
    cbn [andb orb negb]; cbv beta iota zeta; unfold result_of; cbn [fst];
    intros Hr; try discriminate Hr; injection Hr as <-.
  all: repeat split; try done;
    try (apply bool_decide_eq_true in H1);
    try (apply bool_decide_eq_true in H2);
    try (apply bool_decide_eq_true in H3);
    try (apply bool_decide_eq_false in H5);
    try (apply String.eqb_eq in H4); naive_solver.
Qed.

(** X16.  The shapes of a [filter_event] result.  For an event that reaches
    the custom filter: a pair decides by its first item, and its second item
    is the reason of a rejection; a returned [None], [False] or empty tuple
    rejects with the plain message; and a tuple of any other length accepts,
    whatever it holds. *)
Theorem filter_result_shapes (e : event) (v : pyval) (w : world U) :
  type e <> "FINISHED" ->
  ~ fails_whitelist cfg scan e ->
  scope_gate cfg scan e = Pass ->
  outcome (filter_event cb e (user w)) = inl v ->
  let verdict := result_of (_event_postcheck cfg scan cb e w) in
  (forall r reason, v = PTuple [r; reason] ->
     verdict
     = Return (if truthy (PAtom r) then (true, "")
               else (false, (_custom_filter_criteria_msg +:+ ": "
                             +:+ atom_str reason))))
  /\ (v = PNone \/ v = PFalse \/ v = PTuple [] ->
      verdict = Return (false, _custom_filter_criteria_msg))
  /\ (forall items, v = PTuple items -> items <> [] -> length items <> 2%nat ->
      verdict = Return (true, "")).
Proof.
  intros Hfin Hw Hg Ho. destruct w as [m u]. cbn [user] in *. cbv zeta.
  rewrite (postcheck_filter_eq cfg scan cb e m u Hfin Hw Hg). cbv zeta.
  rewrite Ho. unfold filter_verdict.
  split; [|split].
  - intros r reason ->. cbn [unpack_filter_result].
    by destruct (truthy (PAtom r)).
  - by intros [->|[->| ->]].
  - intros items -> Hne Hlen.
    by destruct items as [|a [|b [|c l]]].
Qed.

(** X17.  Statistics are recorded once per event.  Post-check reports an
    event as produced only when the module is an output module, the event is
    accepted and it has not been recorded before; an event an output module
    accepts is recorded afterwards; and nothing recorded is ever forgotten.
    So no event is reported twice. *)
Theorem stats_recorded_once (e : event) (w : world U) :
  let x := _event_postcheck cfg scan cb e w in
  (forall e', EventProduced e' ∈ trace_of x ->
     e' = e /\ _type cfg = "output" /\ (uid e ∉ stats_recorded (self w))
     /\ result_of x = Return (true, ""))
  /\ (_type cfg = "output" -> type e <> "FINISHED" ->
      result_of x = Return (true, "") ->
      uid e ∈ stats_recorded (state_of x))
  /\ stats_recorded (self w) ⊆ stats_recorded (state_of x).
Proof.
  destruct w as [m u]. cbn [self]. cbv zeta.
  destruct (String.eqb (type e) "FINISHED") eqn:Hfin.
  { unfold _event_postcheck. rewrite Hfin.
    apply String.eqb_eq in Hfin.
    unfold trace_of, state_of, ret; cbn [fst snd self].
    split; [set_solver|]. split; [done|set_solver]. }
  destruct (bool_decide ("active" ∈ flags cfg) && bool_decide ("target" ∈ tags e)
            && negb (whitelist scan e)) eqn:Hw.
  { unfold _event_postcheck. rewrite Hfin, Hw.
    unfold trace_of, state_of, result_of, ret; cbn [fst snd self].
    split; [set_solver|]. split; [done|set_solver]. }
  destruct (scope_gate cfg scan e) as [|reason|x] eqn:Hg.
  - apply String.eqb_neq in Hfin.
    rewrite (postcheck_filter_eq cfg scan cb e m u Hfin); [| |done].
    2:{ intros (H1 & H2 & H3).
        by rewrite (bool_decide_eq_true_2 _ H1), (bool_decide_eq_true_2 _ H2), H3
          in Hw. }
    cbv zeta.
    set (r := filter_event cb e u).
    assert (Hacc : forall t0,
      (forall a, a ∈ t0 -> forall e', a <> EventProduced e') ->
      (forall e', EventProduced e' ∈ t0 ++ accept_trace cfg e (user_effect r m) ->
         e' = e /\ _type cfg = "output" /\ uid e ∉ stats_recorded m)
      /\ (_type cfg = "output" ->
          uid e ∈ stats_recorded (accept_state cfg e (user_effect r m)))
      /\ stats_recorded m ⊆ stats_recorded (accept_state cfg e (user_effect r m))).
    { intros t0 Ht0. unfold accept_trace, accept_state, produced_once.
      rewrite user_effect_stats.
      destruct (String.eqb (_type cfg) "output") eqn:Hty; cbn [andb].
      - apply String.eqb_eq in Hty.
        destruct (bool_decide (uid e ∈ stats_recorded m)) eqn:Hrec; cbn [negb].
        + apply bool_decide_eq_true in Hrec. rewrite user_effect_stats.
          split; [|done].
          intros e'. rewrite !elem_of_app, !elem_of_cons, elem_of_nil.
          intros [H|[[]|[H|[]]]]; [by destruct (Ht0 _ H e')|done].
        + apply bool_decide_eq_false in Hrec.
          split; [|split; [intros _|]].
          * intros e'. rewrite !elem_of_app, !elem_of_cons, !elem_of_nil.
            intros [H|[[H|[]]|[H|[]]]];
              [by destruct (Ht0 _ H e')|by injection H as ->|done].
          * destruct (user_effect r m); cbn. set_solver.
          * destruct (user_effect r m) eqn:Hue; cbn.
            pose proof (user_effect_stats r m) as Hs. rewrite Hue in Hs.
            cbn in Hs. set_solver.
      - apply String.eqb_neq in Hty. rewrite user_effect_stats.
        split; [|done].
        intros e'. rewrite !elem_of_app, !elem_of_cons, !elem_of_nil.
        intros [H|[[]|[H|[]]]]; [by destruct (Ht0 _ H e')|done]. }
    assert (Ht1 : forall a,
      a ∈ Enter CbFilterEvent [e] :: user_trace cfg r m
          ++ [Leave CbFilterEvent (outcome_ok (outcome r))] ->
      forall e', a <> EventProduced e').
    { intros a. rewrite elem_of_cons, elem_of_app, elem_of_cons, elem_of_nil.
      intros [->|[H|[->|[]]]] e'; [done| |done].
      by destruct (user_trace_logs cfg r m a H) as (l & y & ->). }
    destruct (outcome r) as [v|y].
    + destruct (filter_verdict v) as [[b reason]|] eqn:Hv.
      * unfold trace_of, state_of, result_of; cbn [fst snd self].
        rewrite user_effect_stats.
        split; [intros e' H; by destruct (Ht1 _ H e')|].
        split; [|done]. intros _ _ [= -> ->].
        unfold filter_verdict in Hv.
        destruct (unpack_filter_result _ v) as [fr msg].
        by destruct (negb (truthy fr)).
      * unfold trace_of, state_of, result_of; cbn [fst snd self].
        destruct (Hacc _ Ht1) as (H1 & H2 & H3).
        split; [|split; [auto|done]].
        intros e' H. destruct (H1 e' H) as (? & ? & ?). done.
    + unfold trace_of, state_of, result_of; cbn [fst snd self].
      assert (Ht2 : forall a,
        a ∈ (Enter CbFilterEvent [e] :: user_trace cfg r m
             ++ [Leave CbFilterEvent (@outcome_ok pyval (inr y))])
            ++ [Caught "filter_event" y] ->
        forall e', a <> EventProduced e').
      { intros a Ha e'. apply elem_of_app in Ha as [H|H]; [by apply Ht1|].
        apply elem_of_cons in H as [->|H]; [done|]. by apply elem_of_nil in H. }
      destruct (Hacc _ Ht2) as (H1 & H2 & H3).
      split; [|split; [auto|done]].
      intros e' H.
      rewrite (cons_middle (Caught "filter_event" y)), app_assoc in H.
      destruct (H1 e' H) as (? & ? & ?). done.
  - unfold _event_postcheck. rewrite Hfin, Hw, Hg.
    unfold trace_of, state_of, result_of, ret; cbn [fst snd self].
    split; [set_solver|]. split; [done|set_solver].
  - by destruct (scope_gate_no_crash cfg scan e x).
Qed.

End Checks.

Section SetupResults.
Context {U : Type}.
Variable cfg : config.
Variable cb : callbacks U.
Variable py_repr : pyval -> string.

(** X18.  What [_setup] makes of the other results of [setup].  A returned
    pair (status, message) is passed on as it is, and [_setup] does nothing
    to the module.  A returned value that is neither a pair nor a key of the
    status table puts the module in error state; [_setup] then reports that
    very value as the status, with the text of the [KeyError] as message. *)
Theorem setup_other_results (w : world U) :
  let r := _setup cfg cb py_repr w in
  let o := outcome (setup cb (user w)) in
  (forall s msg, o = inl (PTuple [s; msg]) ->
     result_of r = Return (name cfg, PAtom s, atom_str msg)
     /\ state_of r = user_effect (setup cb (user w)) (self w))
  /\ (forall v, o = inl v -> (forall a b, v <> PTuple [a; b]) ->
      status_codes v = None ->
      result_of r = Return (name cfg, v, py_repr v)
      /\ errored (state_of r) = true
      /\ (errored (self w) = false -> _incoming_event_queue (state_of r) = QFalse)).
Proof.
  destruct w as [m u]. cbn [self user]. cbv zeta. split.
  - intros s msg Ho.
    assert (Heq : exists t,
      _setup cfg cb py_repr (World m u)
      = (Return (name cfg, PAtom s, atom_str msg),
         World (user_effect (setup cb u) m) (next (setup cb u)), t)).
    { unfold _setup, try_except.
      unfold bind at 1, debug at 1, emit at 1.
      unfold bind at 1. unfold bind at 1. unfold bind at 1.
      rewrite call_user_eq, Ho. cbn [outcome_result]. msimpl. by eexists. }
    by destruct Heq as [t ->].
  - intros v Ho Hv Hs.
    set (m1 := user_effect (setup cb u) m).
    assert (Heq : exists t,
      _setup cfg cb py_repr (World m u)
      = (Return (name cfg, v, py_repr v),
         World (if errored m1 then m1 else quarantined_state m1)
           (next (setup cb u)), t)).
    { unfold _setup, try_except.
      unfold bind at 1, debug at 1, emit at 1.
      unfold bind at 1. unfold bind at 1. unfold bind at 1.
      rewrite call_user_eq, Ho. cbn [outcome_result]. msimpl.
      destruct v as [a|[|a [|b [|c l]]]]; try (by destruct (Hv a b));
        rewrite Hs; unfold _setup_except; msimpl; rewrite set_error_state_eq;
        fold m1; destruct (errored m1); msimpl; by eexists. }
    destruct Heq as [t ->]. unfold result_of, state_of; cbn [fst snd self].
    split; [done|].
    destruct (errored m1) eqn:He.
    + split; [done|]. intros Hm. by apply user_effect_quarantines.
    + split; [by destruct m1|]. intros _. by destruct m1.
Qed.

End SetupResults.

(** ** The spider *)

(** X19.  With [web_spider_distance] left unset, [is_spider_danger] answers
    true for every URL, however shallow, found on a source event whose own
    spider distance is not negative (or that has none). *)
Theorem spider_danger_by_default (scan_config : gmap string Z)
    (source_distance : option Z) (url_depth : Z) :
  scan_config !! "web_spider_distance" = None ->
  0 <= default 0 source_distance ->
  is_spider_danger scan_config source_distance url_depth = true.
Proof.
  intros Hc Hd. unfold is_spider_danger. rewrite Hc.
  apply orb_true_iff. right. apply Z.ltb_lt.
  destruct source_distance; cbv [default from_option id] in *; lia.
Qed.

(** X20.  [is_spider_danger] is monotone: a URL that is spider danger stays
    so when it lies deeper or when its source is further along the spider's
    path. *)
Theorem spider_danger_monotone (scan_config : gmap string Z)
    (d d' : option Z) (depth depth' : Z) :
  depth <= depth' ->
  default 0 d <= default 0 d' ->
  is_spider_danger scan_config d depth = true ->
  is_spider_danger scan_config d' depth' = true.
Proof.
  unfold is_spider_danger. intros Hdepth Hd.
  rewrite !orb_true_iff, !Z.ltb_lt. lia.
Qed.

(** ** Batches hold what the queue held *)

Lemma user_effect_incoming {U A} (r : reply U A) (m : BaseModule) :
  _incoming_event_queue (user_effect r m) = _incoming_event_queue m
  \/ _incoming_event_queue (user_effect r m) = QFalse.
Proof.
  unfold user_effect. destruct (quarantine r); [|by left].
  destruct (errored m); [by left|right; by destruct m].
Qed.

Section Conservation.
Context {U : Type}.
Variable cfg : config.
Variable scan : Scan.
Variable cb : callbacks U.

(** Post-check leaves the incoming queue as it is, unless the filter
    quarantines the module. *)
Lemma postcheck_queue (e : event) (m : BaseModule) (u : U) :
  exists b reason m' u' t,
    _event_postcheck cfg scan cb e (World m u)
    = (Return (b, reason), World m' u', t)
    /\ (_incoming_event_queue m' = _incoming_event_queue m
        \/ _incoming_event_queue m' = QFalse).
Proof.
  destruct (String.eqb (type e) "FINISHED") eqn:Hfin.
  { unfold _event_postcheck. rewrite Hfin. eexists _, _, _, _, _.
    split; [reflexivity|by left]. }
  destruct (bool_decide ("active" ∈ flags cfg) && bool_decide ("target" ∈ tags e)
            && negb (whitelist scan e)) eqn:Hw.
  { unfold _event_postcheck. rewrite Hfin, Hw. eexists _, _, _, _, _.
    split; [reflexivity|by left]. }
  destruct (scope_gate cfg scan e) as [|reason|x] eqn:Hg.
  - apply String.eqb_neq in Hfin.
    rewrite (postcheck_filter_eq cfg scan cb e m u Hfin); [| |done].
    2:{ intros (H1 & H2 & H3).
        by rewrite (bool_decide_eq_true_2 _ H1), (bool_decide_eq_true_2 _ H2), H3
          in Hw. }
    cbv zeta.
    destruct (outcome (filter_event cb e u)) as [v|x].
    + destruct (filter_verdict v) as [[b reason]|]; eexists _, _, _, _, _;
        (split; [reflexivity|]); rewrite ?incoming_accept_state;
        apply user_effect_incoming.
    + eexists _, _, _, _, _. split; [reflexivity|].
      rewrite incoming_accept_state. apply user_effect_incoming.
  - unfold _event_postcheck. rewrite Hfin, Hw, Hg. eexists _, _, _, _, _.
    split; [reflexivity|by left].
  - by destruct (scope_gate_no_crash cfg scan e x).
Qed.

(** One pass of the loop of [events_waiting]: it leaves the loop with the
    queue untouched, or takes the head of the queue and puts it on the batch,
    turns it into the finish flag, or drops it. *)
Lemma events_waiting_pass_takes (events : list event) (finish_ : bool)
    (m : BaseModule) (u : U) :
  _incoming_event_queue m <> QFalse ->
  exists r m' u' t,
    events_waiting_pass cfg scan cb events finish_ (World m u)
    = (Return r, World m' u', t)
    /\ match r with
       | inr out =>
           out = (events, finish_)
           /\ _incoming_event_queue m' = QLive (slot_items (_incoming_event_queue m))
       | inl (events', finish') =>
           exists e rest,
             slot_items (_incoming_event_queue m) = e :: rest
             /\ (_incoming_event_queue m' = QLive rest
                 \/ _incoming_event_queue m' = QFalse)
             /\ (events' = events \/ events' = events ++ [e])
             /\ (finish' = finish_ \/ (finish' = true /\ type e = "FINISHED"))
       end.
Proof.
  intros Hq. unfold events_waiting_pass. unfold bind at 1.
  assert (Hslot : exists m0,
    incoming_event_queue (World m u)
    = (Return (QLive (slot_items (_incoming_event_queue m))), World m0 u, [])
    /\ _incoming_event_queue m0 = QLive (slot_items (_incoming_event_queue m))).
  { destruct (_incoming_event_queue m) as [| |l] eqn:Hs; [|done|].
    - rewrite incoming_event_queue_none by done. eexists.
      split; [reflexivity|]. by destruct m.
    - rewrite (incoming_event_queue_live l) by done. by eexists. }
  destruct Hslot as (m0 & -> & Hq0).
  set (l := slot_items (_incoming_event_queue m)) in *. cbn [slot_truthy].
  destruct (batch_size cfg <? Z.of_nat (length events));
    [by eexists _, _, _, _|].
  unfold try_except. unfold bind at 1.
  destruct l as [|e l].
  { rewrite (incoming_get_nowait_nil _ _ Hq0). by eexists _, _, _, _. }
  rewrite (incoming_get_nowait_cons _ _ _ _ Hq0).
  unfold bind at 1, debug at 1, emit at 1. unfold bind at 1.
  destruct (postcheck_queue e (set_incoming (QLive l) m0) u)
    as (b & reason & m' & u' & t & Heq & Hq').
  rewrite Heq.
  assert (Hrest : _incoming_event_queue m' = QLive l
                  \/ _incoming_event_queue m' = QFalse).
  { destruct Hq' as [Hq'|Hq']; [left|by right].
    rewrite Hq'. by destruct m0. }
  destruct b.
  - destruct (String.eqb (type e) "FINISHED") eqn:Hfin; msimpl.
    + apply String.eqb_eq in Hfin. eexists _, _, _, _.
      split; [reflexivity|]. exists e, l. repeat split; auto.
    + eexists _, _, _, _. split; [reflexivity|]. exists e, l.
      repeat split; auto.
  - destruct (negb (String.eqb reason "")); msimpl;
      eexists _, _, _, _; (split; [reflexivity|]); exists e, l;
      repeat split; auto.
Qed.

(** The loop, with fuel above the length of the queue. *)
Lemma events_waiting_loop_takes (fuel : nat) (events : list event)
    (finish_ : bool) (m : BaseModule) (u : U) :
  (length (slot_items (_incoming_event_queue m)) < fuel)%nat ->
  exists events' finish' m' u' t taken rest added,
    events_waiting_loop cfg scan cb fuel events finish_ (World m u)
    = (Return (events', finish'), World m' u', t)
    /\ slot_items (_incoming_event_queue m) = taken ++ rest
    /\ events' = events ++ added
    /\ sublist added taken
    /\ (finish' = finish_
        \/ (finish' = true /\ exists e, e ∈ taken /\ type e = "FINISHED"))
    /\ (_incoming_event_queue m' = QLive rest
        \/ _incoming_event_queue m' = QFalse)
    /\ (_incoming_event_queue m = QFalse -> _incoming_event_queue m' = QFalse).
Proof.
  revert events finish_ m u.
  induction fuel as [|fuel IH]; intros events finish_ m u Hfuel; [lia|].
  cbn [events_waiting_loop]. unfold bind.
  assert (Hdec : _incoming_event_queue m = QFalse
                 \/ _incoming_event_queue m <> QFalse).
  { destruct (_incoming_event_queue m); [by right|by left|by right]. }
  destruct Hdec as [Hf|Hf].
  { unfold events_waiting_pass. unfold bind.
    rewrite (incoming_event_queue_false _ _ Hf). cbn [slot_truthy]. msimpl.
    exists events, finish_, m, u, [], [], [], []. rewrite Hf.
    split; [reflexivity|]. split; [done|]. split; [by rewrite app_nil_r|].
    split; [constructor|]. split; [by left|]. split; [by right|done]. }
  destruct (events_waiting_pass_takes events finish_ m u Hf)
    as (r & m' & u' & t & -> & Hr).
  destruct r as [[events' finish']|out].
  - destruct Hr as (e & rest & Hl & Hq' & Hev & Hfin).
    rewrite Hl in Hfuel. cbn [length] in Hfuel.
    destruct (IH events' finish' m' u') as
      (ev2 & fin2 & m2 & u2 & t2 & taken & rest2 & added & -> & Hl2 & -> & Hsub
       & Hfin2 & Hq2 & Hkeep).
    { destruct Hq' as [-> | ->]; cbn [slot_items length]; lia. }
    destruct Hq' as [Hq'|Hq'].
    + rewrite Hq' in Hl2. cbn [slot_items] in Hl2. subst rest.
      assert (Hfin' : fin2 = finish_
                      \/ (fin2 = true
                          /\ exists e0, e0 ∈ e :: taken /\ type e0 = "FINISHED")).
      { destruct Hfin2 as [->|[-> (e2 & Hin & Hty)]].
        - destruct Hfin as [->|[-> Hty]]; [by left|].
          right. split; [done|]. exists e.
          split; [apply elem_of_cons; by left|done].
        - right. split; [done|]. exists e2.
          split; [apply elem_of_cons; by right|done]. }
      destruct Hev as [-> | ->].
      * exists (events ++ added), fin2, m2, u2, (t ++ t2), (e :: taken), rest2, added.
        split; [reflexivity|]. split; [by rewrite Hl|]. split; [done|].
        split; [by apply sublist_cons|]. by repeat split.
      * exists ((events ++ [e]) ++ added), fin2, m2, u2, (t ++ t2), (e :: taken),
          rest2, (e :: added).
        split; [reflexivity|]. split; [by rewrite Hl|].
        split; [by rewrite <- app_assoc|].
        split; [by apply sublist_skip|]. by repeat split.
    + specialize (Hkeep Hq'). rewrite Hq' in Hl2. cbn [slot_items] in Hl2.
      symmetry in Hl2. apply app_eq_nil in Hl2 as [-> ->].
      apply sublist_nil_r in Hsub. subst added.
      assert (Hfin' : fin2 = finish_
                      \/ (fin2 = true
                          /\ exists e0, e0 ∈ [e] /\ type e0 = "FINISHED")).
      { destruct Hfin2 as [->|[_ (e2 & Hin & _)]]; [|by apply elem_of_nil in Hin].
        destruct Hfin as [->|[-> Hty]]; [by left|].
        right. split; [done|]. exists e.
        split; [apply elem_of_cons; by left|done]. }
      destruct Hev as [-> | ->].
      * exists (events ++ []), fin2, m2, u2, (t ++ t2), [e], rest, [].
        split; [reflexivity|]. split; [by rewrite Hl|]. split; [done|].
        split; [by apply sublist_cons|]. split; [done|]. by split; [right|].
      * exists ((events ++ [e]) ++ []), fin2, m2, u2, (t ++ t2), [e], rest, [e].
        split; [reflexivity|]. split; [by rewrite Hl|].
        split; [by rewrite app_nil_r|].
        split; [done|]. split; [done|]. by split; [right|].
  - destruct Hr as [-> Hq']. msimpl.
    exists events, finish_, m', u', t, [], (slot_items (_incoming_event_queue m)), [].
    split; [by rewrite ?app_nil_r|]. split; [done|]. split; [by rewrite app_nil_r|].
    split; [constructor|]. split; [by left|]. split; [by left|done].
Qed.

(** X21.  A batch holds what the queue held.  [events_waiting] takes events
    from the head of the incoming queue only: what it took and what it left
    make up the queue as it was, in order; the batch holds events it took, in
    queue order; the finish flag is set only if a FINISHED event was among
    them; and the queue afterwards holds exactly what was left, unless the
    filter quarantined the module and the queue is disabled. *)
Theorem events_waiting_conserves (w : world U) :
  let x := events_waiting cfg scan cb w in
  exists events finish_ taken rest,
    result_of x = Return (events, finish_, false)
    /\ slot_items (_incoming_event_queue (self w)) = taken ++ rest
    /\ sublist events taken
    /\ (finish_ = true -> exists e, e ∈ taken /\ type e = "FINISHED")
    /\ (_incoming_event_queue (state_of x) = QLive rest
        \/ _incoming_event_queue (state_of x) = QFalse).
Proof.
  destruct w as [m u]. cbn [self]. cbv zeta.
  destruct (events_waiting_loop_takes
              (S (slot_size (_incoming_event_queue m))) [] false m u)
    as (events & fin & m' & u' & t & taken & rest & added & Heq & Hl & -> & Hsub
        & Hfin & Hq & _).
  { destruct (_incoming_event_queue m); cbn [slot_items slot_size length]; lia. }
  assert (Hx : events_waiting cfg scan cb (World m u)
               = (Return ([] ++ added, fin, false), World m' u', t)).
  { unfold events_waiting. unfold bind at 1, get_self at 1. cbn [self].
    unfold bind at 1. rewrite Heq. msimpl. by rewrite app_nil_r. }
  rewrite Hx. unfold result_of, state_of. cbn [fst snd self app].
  exists added, fin, taken, rest.
  split; [done|]. split; [done|]. split; [done|]. split; [|done].
  intros ->. by destruct Hfin as [?|[_ ?]].
Qed.

End Conservation.

(** ** The run of [events_waiting], check by check *)

Lemma drained_app (t1 t2 : list action) :
  drained (t1 ++ t2) = drained t1 ++ drained t2.
Proof. apply omap_app. Qed.

Lemma drained_cons (a : action) (t : list action) :
  drained (a :: t)
  = match a with
    | Log _ (Got e) => e :: drained t
    | _ => drained t
    end.
Proof. by destruct a as [? []| | | | | | | |]. Qed.

Lemma drained_user_trace {U A} (cfg : config) (r : reply U A) (m : BaseModule) :
  drained (user_trace cfg r m) = [].
Proof.
  unfold user_trace, set_error_trace.
  destruct (quarantine r) as [[s|]|]; [| |done];
    (destruct (errored m); [done|]); by destruct (_incoming_event_queue m).
Qed.

Section Run.
Context {U : Type}.
Variable cfg : config.
Variable scan : Scan.
Variable cb : callbacks U.

(** FINISHED passes post-check at once. *)
Lemma postcheck_finished (e : event) (w : world U) :
  is_finished e = true ->
  _event_postcheck cfg scan cb e w = (Return (true, ""), w, []).
Proof. intros Hfin. unfold _event_postcheck. unfold is_finished in Hfin. by rewrite Hfin. Qed.

(** Post-check takes nothing off the queue. *)
Lemma drained_postcheck (e : event) (w : world U) :
  drained (trace_of (_event_postcheck cfg scan cb e w)) = [].
Proof.
  destruct w as [m u].
  destruct (String.eqb (type e) "FINISHED") eqn:Hfin.
  { unfold _event_postcheck. by rewrite Hfin. }
  destruct (bool_decide ("active" ∈ flags cfg) && bool_decide ("target" ∈ tags e)
            && negb (whitelist scan e)) eqn:Hw.
  { unfold _event_postcheck. by rewrite Hfin, Hw. }
  destruct (scope_gate cfg scan e) as [|reason|x] eqn:Hg.
  - apply String.eqb_neq in Hfin.
    rewrite (postcheck_filter_eq cfg scan cb e m u Hfin); [| |done].
    2:{ intros (H1 & H2 & H3).
        by rewrite (bool_decide_eq_true_2 _ H1), (bool_decide_eq_true_2 _ H2), H3
          in Hw. }
    cbv zeta. unfold accept_trace.
    destruct (outcome (filter_event cb e u)) as [v|x];
      [destruct (filter_verdict v) as [[b reason]|]|];
      unfold trace_of; cbn [snd];
      repeat first [ rewrite drained_app | rewrite drained_cons
                   | rewrite drained_user_trace ];
      try match goal with
          | |- context [produced_once ?c ?e0 ?m0] => destruct (produced_once c e0 m0)
          end; done.
  - unfold _event_postcheck. by rewrite Hfin, Hw, Hg.
  - by destruct (scope_gate_no_crash cfg scan e x).
Qed.

(** A pass of the loop that takes nothing: the queue is disabled or empty,
    or the batch is over its size. *)
Lemma events_waiting_pass_stops (events : list event) (finish_ : bool)
    (m : BaseModule) (u : U) :
  _incoming_event_queue m = QFalse
  \/ (batch_size cfg <? Z.of_nat (length events)) = true
  \/ slot_items (_incoming_event_queue m) = [] ->
  exists m',
    events_waiting_pass cfg scan cb events finish_ (World m u)
    = (Return (inr (events, finish_)), World m' u, [])
    /\ slot_items (_incoming_event_queue m')
       = slot_items (_incoming_event_queue m).
Proof.
  intros Hstop. unfold events_waiting_pass. unfold bind at 1.
  destruct (_incoming_event_queue m) as [| |l] eqn:Hq.
  - rewrite incoming_event_queue_none by done. cbn [slot_truthy].
    destruct (batch_size cfg <? Z.of_nat (length events)).
    + eexists. split; [reflexivity|]. by destruct m.
    + unfold try_except. unfold bind at 1.
      rewrite (incoming_get_nowait_nil (set_incoming (QLive []) m))
        by (by destruct m).
      eexists. split; [reflexivity|]. by destruct m.
  - rewrite incoming_event_queue_false by done. cbn [slot_truthy].
    eexists. split; [reflexivity|]. by rewrite Hq.
  - rewrite (incoming_event_queue_live l) by done. cbn [slot_truthy].
    destruct (batch_size cfg <? Z.of_nat (length events)) eqn:Hfull.
    + eexists. split; [reflexivity|]. by rewrite Hq.
    + destruct Hstop as [?|[?|Hl]]; [done..|]. cbn [slot_items] in Hl. subst l.
      unfold try_except. unfold bind at 1.
      rewrite (incoming_get_nowait_nil _ _ Hq).
      eexists. split; [reflexivity|]. by rewrite Hq.
Qed.

(** A pass of the loop that takes the head of the queue: post-check is
    called on it in the world it has just left the queue of, and its verdict
    decides between the batch, the finish flag and nothing. *)
Lemma events_waiting_pass_checks (events : list event) (finish_ : bool)
    (e : event) (l : list event) (m : BaseModule) (u : U) :
  _incoming_event_queue m = QLive (e :: l) ->
  (batch_size cfg <? Z.of_nat (length events)) = false ->
  let w0 := after incoming_get_nowait (World m u) in
  let x := _event_postcheck cfg scan cb e w0 in
  exists t,
    events_waiting_pass cfg scan cb events finish_ (World m u)
    = (Return (inl (if passed (result_of x)
                    then if is_finished e then (events, true)
                         else (events ++ [e], finish_)
                    else (events, finish_))),
       after (_event_postcheck cfg scan cb e) w0, t)
    /\ drained t = [e]
    /\ (_incoming_event_queue (self (after (_event_postcheck cfg scan cb e) w0))
        = QLive l
        \/ _incoming_event_queue (self (after (_event_postcheck cfg scan cb e) w0))
           = QFalse).
Proof.
  intros Hq Hfull. cbv zeta.
  assert (Hw0 : after incoming_get_nowait (World m u)
                = World (set_incoming (QLive l) m) u).
  { unfold after. by rewrite (incoming_get_nowait_cons _ _ _ _ Hq). }
  rewrite Hw0.
  pose proof (drained_postcheck e (World (set_incoming (QLive l) m) u)) as Hdr.
  destruct (postcheck_queue cfg scan cb e (set_incoming (QLive l) m) u)
    as (b & reason & m' & u' & t & Heq & Hq').
  unfold after. rewrite Heq in *. unfold result_of, trace_of in *.
  cbn [fst snd self passed] in *.
  assert (Hrest : _incoming_event_queue m' = QLive l
                  \/ _incoming_event_queue m' = QFalse).
  { destruct Hq' as [Hq'|Hq']; [left|by right]. rewrite Hq'. by destruct m. }
  unfold events_waiting_pass. unfold bind at 1.
  rewrite (incoming_event_queue_live _ _ _ Hq). cbn [slot_truthy].
  rewrite Hfull. unfold try_except. unfold bind at 1.
  rewrite (incoming_get_nowait_cons _ _ _ _ Hq).
  unfold bind at 1, debug at 1, emit at 1. unfold bind at 1.
  rewrite Heq. unfold is_finished.
  destruct b.
  - destruct (String.eqb (type e) "FINISHED"); msimpl;
      eexists; (split; [reflexivity|]); (split; [|done]);
      repeat first [ rewrite drained_app | rewrite drained_cons | rewrite Hdr ];
      done.
  - destruct (negb (String.eqb reason "")); msimpl;
      eexists; (split; [reflexivity|]); (split; [|done]);
      repeat first [ rewrite drained_app | rewrite drained_cons | rewrite Hdr ];
      done.
Qed.

(** The loop, with fuel above the length of the queue: what it took off
    the queue is what the trace says it got, the batch grows by the events
    that passed their check and are not FINISHED, and the flag is raised by
    a FINISHED among them. *)
Lemma events_waiting_loop_run (fuel : nat) (events : list event)
    (finish_ : bool) (m : BaseModule) (u : U) :
  (length (slot_items (_incoming_event_queue m)) < fuel)%nat ->
  exists events' finish' w' t rest,
    events_waiting_loop cfg scan cb fuel events finish_ (World m u)
    = (Return (events', finish'), w', t)
    /\ slot_items (_incoming_event_queue m) = drained t ++ rest
    /\ events' = events ++ batch_of cfg scan cb (checked_in cfg scan cb (drained t) (World m u))
    /\ finish' = finish_ || existsb is_finished (drained t).
Proof.
  revert events finish_ m u.
  induction fuel as [|fuel IH]; intros events finish_ m u Hfuel; [lia|].
  cbn [events_waiting_loop]. unfold bind.
  assert (Hcase :
    (_incoming_event_queue m = QFalse
     \/ (batch_size cfg <? Z.of_nat (length events)) = true
     \/ slot_items (_incoming_event_queue m) = [])
    \/ (exists e l, _incoming_event_queue m = QLive (e :: l)
                    /\ (batch_size cfg <? Z.of_nat (length events)) = false)).
  { destruct (_incoming_event_queue m) as [| |[|e l]]; [by left; right; right
      |by left; left|by left; right; right|].
    destruct (batch_size cfg <? Z.of_nat (length events));
      [by left; right; left|right; by exists e, l]. }
  destruct Hcase as [Hstop|(e & l & Hq & Hfull)].
  - destruct (events_waiting_pass_stops events finish_ m u Hstop)
      as (m' & -> & _).
    msimpl. exists events, finish_, (World m' u), [],
      (slot_items (_incoming_event_queue m)).
    split; [reflexivity|]. split; [done|].
    cbn. by rewrite app_nil_r, orb_false_r.
  - destruct (events_waiting_pass_checks events finish_ e l m u Hq Hfull)
      as (t & -> & Hdr & Hq').
    set (w0 := after incoming_get_nowait (World m u)) in *.
    set (x := _event_postcheck cfg scan cb e w0) in *.
    set (w1 := after (_event_postcheck cfg scan cb e) w0) in *.
    assert (Hpass : is_finished e = true -> passed (result_of x) = true).
    { intros Hfin. unfold x. by rewrite (postcheck_finished e w0 Hfin). }
    destruct w1 as [m1 u1] eqn:Hw1. cbn [self] in Hq'.
    set (acc := if passed (result_of x)
                then if is_finished e then (events, true)
                     else (events ++ [e], finish_)
                else (events, finish_)) in *.
    destruct (IH acc.1 acc.2 m1 u1)
      as (ev2 & fin2 & w2 & t2 & rest2 & Heq & Hl2 & Hev2 & Hfin2).
    { rewrite Hq in Hfuel. cbn [slot_items length] in Hfuel.
      destruct Hq' as [-> | ->]; cbn [slot_items length]; lia. }
    replace acc with (acc.1, acc.2) by by destruct acc.
    cbn [fst snd] in *. rewrite Heq.
    exists ev2, fin2, w2, (t ++ t2),
      (match _incoming_event_queue m1 with QFalse => l | _ => rest2 end).
    split; [reflexivity|].
    rewrite drained_app, Hdr. cbn [app checked_in]. fold w0. fold w1.
    rewrite Hw1.
    split; [|split].
    + rewrite Hq. cbn [slot_items]. f_equal.
      destruct Hq' as [Hq'|Hq']; rewrite Hq' in *; cbn [slot_items] in Hl2.
      * done.
      * symmetry in Hl2. by apply app_eq_nil in Hl2 as [-> _].
    + rewrite Hev2. unfold batch_of at 2. cbn [List.filter].
      unfold passes at 1. cbn [fst snd]. fold x. unfold acc.
      destruct (passed (result_of x)); cbn [andb];
        [destruct (is_finished e); cbn [negb List.map fst snd]|]; try done.
      by rewrite <- app_assoc.
    + rewrite Hfin2. cbn [existsb]. unfold acc.
      destruct (is_finished e) eqn:Hfin.
      * rewrite (Hpass eq_refl). cbn [snd]. by rewrite orb_true_r.
      * destruct (passed (result_of x)); cbn [snd orb]; done.
Qed.

(** [events_waiting], check by check. *)
Lemma events_waiting_run (w : world U) :
  -1 <= batch_size cfg ->
  exists events finish_ w1 t1 rest,
    events_waiting cfg scan cb w = (Return (events, finish_, false), w1, t1)
    /\ slot_items (_incoming_event_queue (self w)) = drained t1 ++ rest
    /\ events = batch_of cfg scan cb (checked_in cfg scan cb (drained t1) w)
    /\ finish_ = existsb is_finished (drained t1)
    /\ batch_ok cfg events.
Proof.
  intros Hsize.
  destruct (events_waiting_spec cfg scan cb w Hsize)
    as (events & fin & w1 & t1 & Hew & Hok).
  destruct w as [m u]. cbn [self].
  destruct (events_waiting_loop_run
              (S (slot_size (_incoming_event_queue m))) [] false m u)
    as (ev & fin' & w' & t & rest & Heq & Hl & Hev & Hfin).
  { destruct (_incoming_event_queue m); cbn [slot_items slot_size length]; lia. }
  assert (Hx : events_waiting cfg scan cb (World m u)
               = (Return (ev, fin', false), w', t)).
  { unfold events_waiting. unfold bind at 1, get_self at 1. cbn [self].
    unfold bind at 1. rewrite Heq. msimpl. by rewrite app_nil_r. }
  rewrite Hx in Hew. injection Hew as <- <- <- <-.
  cbn [app orb] in *. exists ev, fin', w', t, rest.
  split; [done|]. split; [done|]. split; [done|]. split; [done|]. exact Hok.
Qed.

(** Every event of the batch was checked in the run and passed. *)
Lemma batch_of_passed (checks : list (event * world U)) :
  Forall (fun e => exists w0, (e, w0) ∈ checks
                              /\ passes cfg scan cb (e, w0) = true)
    (batch_of cfg scan cb checks).
Proof.
  unfold batch_of. induction checks as [|[e w0] checks IH]; [constructor|].
  cbn [List.filter List.map].
  assert (Htail : Forall (fun e0 => exists w1, (e0, w1) ∈ (e, w0) :: checks
                                   /\ passes cfg scan cb (e0, w1) = true)
            (List.map fst
               (List.filter (fun c => passes cfg scan cb c && negb (is_finished c.1))
                  checks))).
  { eapply Forall_impl; [exact IH|]. intros e0 (w1 & Hin & Hp).
    exists w1. split; [by apply elem_of_cons; right|done]. }
  destruct (passes cfg scan cb (e, w0)) eqn:Hp; cbn [andb]; [|done].
  destruct (is_finished (e, w0).1); cbn [negb List.map fst]; [done|].
  constructor; [|done]. exists w0. split; [by apply elem_of_cons; left|done].
Qed.

(** C4.  Batch assembly.  [events_waiting] always returns.  The events it
    took off the queue are a prefix of the queue, and the batch it assembles
    consists of exactly those of them that passed [_event_postcheck] when
    the run called it on them and that are not FINISHED: so the batch holds
    no FINISHED event, every event of it passed post-check in this run, and
    it holds at most [batch_size + 1] events.  A FINISHED event taken off
    the queue sets the finish flag and nothing else does.  In the iteration
    of [_handle_batch] that assembled the batch, [handle_batch] is invoked,
    on exactly that batch, if and only if the batch is non-empty and the
    module is not in error state. *)
Theorem batch_assembly (w : world U) :
  -1 <= batch_size cfg ->
  exists events finish_ w1 t1 rest,
    events_waiting cfg scan cb w = (Return (events, finish_, false), w1, t1)
    /\ slot_items (_incoming_event_queue (self w)) = drained t1 ++ rest
    /\ events = batch_of cfg scan cb (checked_in cfg scan cb (drained t1) w)
    /\ Z.of_nat (length events) <= batch_size cfg + 1
    /\ Forall (fun e => exists w0,
                 (e, w0) ∈ checked_in cfg scan cb (drained t1) w
                 /\ passed (result_of (_event_postcheck cfg scan cb e w0)) = true)
         events
    /\ Forall (fun e => type e <> "FINISHED") events
    /\ finish_ = existsb is_finished (drained t1)
    /\ (forall l,
          1 < batch_size cfg ->
          _incoming_event_queue (self w) = QLive l -> l <> [] ->
          invoked CbHandleBatch (trace_of (_handle_batch cfg scan cb w))
          = nonempty events && negb (errored (self w1))
          /\ (nonempty events && negb (errored (self w1)) = true ->
              Enter CbHandleBatch events
              ∈ trace_of (_handle_batch cfg scan cb w))).
Proof.
  intros Hsize.
  destruct (events_waiting_run w Hsize)
    as (events & fin & w1 & t1 & rest & Hew & Hl & Hev & Hfin & Hlen & Hnf).
  exists events, fin, w1, t1, rest.
  split; [done|]. split; [done|]. split; [done|]. split; [done|].
  split; [rewrite Hev; apply batch_of_passed|].
  split; [done|]. split; [done|].
  intros l Hb Hq Hne. destruct w as [m u], w1 as [m1 u1]. cbn [self] in *.
  destruct (_handle_batch_after_assembly cfg scan cb l events fin false
              m m1 u u1 t1 Hb Hq Hne Hew) as (r & w2 & tb & tf & -> & Htb & Htf).
  pose proof (events_waiting_only_filter cfg scan cb CbHandleBatch (World m u)) as Ht1.
  rewrite Hew in Ht1. unfold trace_of in *. cbn [snd] in *.
  rewrite invoked_app, Ht1 by done. cbn [orb].
  destruct (errored m1); cbn [negb].
  - rewrite andb_false_r. split; [done|]. intros [=].
  - rewrite andb_true_r, invoked_cons, invoked_app.
    rewrite (invoked_batch_part _ _ _ Htb), (invoked_finish_part _ _ _ Htf).
    cbn [callback_eqb andb orb]. rewrite orb_false_r. split; [done|].
    intros Hne'. destruct events as [|e events]; [done|].
    destruct Htb as (n1 & ok & n2 & -> & _). set_solver.
Qed.

(** C5, as the code has it.  The batch arm never invokes [report]:
    [events_waiting] never asks for one, and no timer is involved.  After a
    batch has been assembled, [finish] is invoked if and only if a FINISHED
    event was among the events the assembly took off the queue and the
    module is not in error state; the finish flag [events_waiting] returns
    says exactly whether there was one. *)
Theorem batch_finish_and_report (w : world U) :
  invoked CbReport (trace_of (_handle_batch cfg scan cb w)) = false
  /\ (forall l events finish_ report_ w1 t1,
        1 < batch_size cfg ->
        _incoming_event_queue (self w) = QLive l -> l <> [] ->
        events_waiting cfg scan cb w = (Return (events, finish_, report_), w1, t1) ->
        report_ = false
        /\ (exists rest, l = drained t1 ++ rest)
        /\ finish_ = existsb is_finished (drained t1)
        /\ invoked CbFinish (trace_of (_handle_batch cfg scan cb w))
           = existsb is_finished (drained t1) && negb (errored (self w1))
        /\ invoked CbFinish (trace_of (_handle_batch cfg scan cb w))
           = finish_ && negb (errored (self w1))).
Proof.
  split.
  - destruct (obeys__handle_batch any_module not_report true stable_any_module
                cfg scan cb eq_refl eq_refl eq_refl eq_refl w I) as (_ & Ht & _).
    by eapply invoked_permits; [|exact Ht].
  - intros l events fin rep w1 t1 Hb Hq Hl Hew.
    destruct (events_waiting_run w ltac:(lia))
      as (ev & fin' & w' & t & rest & Hrun & Hrest & _ & Hfin & _).
    rewrite Hrun in Hew. injection Hew as <- <- <- <- <-.
    rewrite Hq in Hrest. cbn [slot_items] in Hrest.
    split; [done|]. split; [by exists rest|]. split; [done|].
    assert (Hinv : invoked CbFinish (trace_of (_handle_batch cfg scan cb w))
                   = fin' && negb (errored (self w'))).
    { destruct w as [m u], w' as [m1 u1]. cbn [self] in *.
      destruct (_handle_batch_after_assembly cfg scan cb l ev fin' false
                  m m1 u u1 t Hb Hq Hl Hrun)
        as (r & w2 & tb & tf & -> & Htb & Htf).
      pose proof (events_waiting_only_filter cfg scan cb CbFinish (World m u)) as Ht1.
      rewrite Hrun in Ht1. unfold trace_of in *. cbn [snd] in *.
      rewrite invoked_app, Ht1 by done. cbn [orb].
      destruct (errored m1); cbn [negb].
      + by rewrite andb_false_r.
      + rewrite andb_true_r, invoked_cons, invoked_app.
        rewrite (invoked_batch_part _ _ _ Htb), (invoked_finish_part _ _ _ Htf).
        done. }
    split; [by rewrite <- Hfin|done].
Qed.

End Run.

Lemma batch_assembly_witness :
  result_of (events_waiting batch_config wide_scan choosy_batcher mixed_batch)
  = Return ([plain_event 2 "DNS_NAME" 0], true, false)
  /\ invoked CbHandleBatch
       (trace_of (_handle_batch batch_config wide_scan choosy_batcher mixed_batch))
     = true.
Proof.
  destruct (batch_assembly batch_config wide_scan choosy_batcher mixed_batch)
    as (events & fin & w1 & t1 & rest & Hew & _ & Hev & _ & _ & _ & Hfin & Hhb).
  - cbn. lia.
  - assert (Ht1 : t1 = trace_of (events_waiting batch_config wide_scan
                                   choosy_batcher mixed_batch))
      by (by rewrite Hew).
    assert (Hw1 : w1 = after (events_waiting batch_config wide_scan choosy_batcher)
                         mixed_batch)
      by (unfold after; by rewrite Hew).
    destruct (Hhb [plain_event 1 "DNS_NAME" 1; plain_event 2 "DNS_NAME" 0;
                   finished_event]) as [Hinv _].
    + reflexivity.
    + reflexivity.
    + discriminate.
    + rewrite Hinv, Hew. unfold result_of. cbn [fst].
      rewrite Hev, Hfin, Hw1, Ht1. split; reflexivity.
Defined.

Lemma batch_finish_and_report_witness :
  existsb is_finished
    (drained (trace_of (events_waiting batch_config strict_scan base_callbacks
                          scenario_batch)))
  = true
  /\ invoked CbFinish
       (trace_of (_handle_batch batch_config strict_scan base_callbacks scenario_batch))
     = true.
Proof.
  destruct (batch_finish_and_report batch_config strict_scan base_callbacks
              scenario_batch) as [_ H].
  destruct (H [plain_event 1 "DNS_NAME" 0; plain_event 2 "DNS_NAME" 0; finished_event]
              [plain_event 1 "DNS_NAME" 0; plain_event 2 "DNS_NAME" 0] true false
              (after (events_waiting batch_config strict_scan base_callbacks)
                 scenario_batch)
              (trace_of (events_waiting batch_config strict_scan base_callbacks
                           scenario_batch)))
    as (_ & _ & Hfin & Hinv & _).
  - reflexivity.
  - reflexivity.
  - discriminate.
  - reflexivity.
  - rewrite Hinv, <- Hfin. split; reflexivity.
Defined.

(** ** The further statements at concrete modules *)

Lemma quarantine_finishes_witness :
  result_of (finished (after (set_error_state base_config None) busy_world))
  = Return true.
Proof.
  refine (proj1 (quarantine_finishes base_config None busy_world _ _ _)).
  - reflexivity.
  - cbn. lia.
  - reflexivity.
Defined.

Lemma queue_event_enqueues_witness :
  result_of (queue_event in_scope_config (plain_event 1 "DNS_NAME" 0) fresh_world)
  = Return tt.
Proof.
  destruct (queue_event_enqueues in_scope_config (plain_event 1 "DNS_NAME" 0)
              fresh_world) as (acc & reason & _ & H & _).
  - discriminate.
  - exact H.
Defined.

Lemma finished_always_delivered_witness :
  _incoming_event_queue
    (self (after (queue_event base_config finished_event) fresh_world))
  = QLive [finished_event].
Proof.
  refine (proj1 (finished_always_delivered base_config strict_scan base_callbacks
                   finished_event fresh_world _ _ _)).
  - reflexivity.
  - discriminate.
  - reflexivity.
Defined.

Lemma single_arm_dispatch_witness :
  result_of (single_arm in_scope_config strict_scan base_callbacks busy_world)
  = Return Continue.
Proof.
  destruct (single_arm_dispatch in_scope_config strict_scan base_callbacks
              (plain_event 1 "DNS_NAME" 0) [plain_event 2 "DNS_NAME" 0] busy_world)
    as (acc & reason & _ & H & _).
  - reflexivity.
  - exact H.
Defined.

Lemma cleanup_once_witness :
  _cleanedup (state_of (_cleanup base_config untidy_callbacks fresh_world)) = true.
Proof.
  refine (proj1 (proj2 (cleanup_once base_config untidy_callbacks fresh_world _))).
  reflexivity.
Defined.

Lemma backpressure_holds_worker_witness :
  result_of (_worker bounded_config strict_scan base_callbacks 1
               (world_with_outgoing full_outgoing))
  = Suspend (WaitCondition EventDequeued).
Proof.
  rewrite (backpressure_holds_worker bounded_config strict_scan base_callbacks
             full_outgoing 0 (world_with_outgoing full_outgoing)).
  - reflexivity.
  - reflexivity.
  - cbn. lia.
  - reflexivity.
  - cbn. lia.
Defined.

Lemma worker_returns_witness :
  _worker base_config strict_scan base_callbacks 1 disabled_world
  = (Return tt, disabled_world, [Log LDebug (Text "Event queue is in bad state")]).
Proof.
  apply (proj2 (worker_returns base_config strict_scan base_callbacks 0
                  disabled_world)).
  - reflexivity.
  - cbn. lia.
  - cbn. lia.
  - reflexivity.
Defined.


Lemma emit_event_reraises_witness :
  emit_event base_config strict_scan [] raising_kwargs fresh_world
  = (Raise (ValidationError "invalid event data"), fresh_world, []).
Proof.
  apply (emit_event_reraises base_config strict_scan [] raising_kwargs PTrue
           "invalid event data" fresh_world).
  - reflexivity.
  - reflexivity.
  - reflexivity.
Defined.

Lemma precheck_accept_sound_witness :
  errored (self fresh_world) = false
  /\ ("*" ∈ watched_now in_scope_config (self fresh_world)
      \/ "DNS_NAME" ∈ watched_now in_scope_config (self fresh_world)).
Proof.
  destruct (precheck_accept_sound in_scope_config (plain_event 1 "DNS_NAME" 0) ""
              fresh_world) as (_ & He & Hw & _).
  - discriminate.
  - reflexivity.
  - split; [exact He|exact Hw].
Defined.

Lemma filter_result_shapes_witness :
  result_of (_event_postcheck in_scope_config strict_scan picky_filter
               (plain_event 1 "DNS_NAME" 0) fresh_world)
  = Return (false, "it did not meet custom filter criteria: too noisy").
Proof.
  refine (proj1 (filter_result_shapes in_scope_config strict_scan picky_filter
                   (plain_event 1 "DNS_NAME" 0)
                   (PTuple [ABool false; AStr "too noisy"]) fresh_world _ _ _ _)
            (ABool false) (AStr "too noisy") eq_refl).
  - discriminate.
  - intros (H & _). cbn in H. set_solver.
  - reflexivity.
  - reflexivity.
Defined.

Lemma stats_recorded_once_witness :
  uid (plain_event 1 "DNS_NAME" 0)
  ∈ stats_recorded
      (state_of (_event_postcheck output_config strict_scan base_callbacks
                   (plain_event 1 "DNS_NAME" 0) fresh_world)).
Proof.
  apply (proj1 (proj2 (stats_recorded_once output_config strict_scan base_callbacks
                         (plain_event 1 "DNS_NAME" 0) fresh_world))).
  - reflexivity.
  - discriminate.
  - reflexivity.
Defined.

Lemma setup_other_results_witness :
  result_of (_setup base_config chatty_setup plain_repr fresh_world)
  = Return ("base", PAtom (AStr "ok"), "'ok'")
  /\ errored (state_of (_setup base_config chatty_setup plain_repr fresh_world))
     = true.
Proof.
  destruct (proj2 (setup_other_results base_config chatty_setup plain_repr
                     fresh_world) (PAtom (AStr "ok"))) as (Hr & He & _).
  - reflexivity.
  - discriminate.
  - reflexivity.
  - split; [exact Hr|exact He].
Defined.

Lemma spider_danger_by_default_witness :
  is_spider_danger default_scan_config None 0 = true.
Proof.
  apply (spider_danger_by_default default_scan_config None 0).
  - reflexivity.
  - cbn. lia.
Defined.

Lemma spider_danger_monotone_witness :
  is_spider_danger spider_scan_config (Some 1) 5 = true.
Proof.
  apply (spider_danger_monotone spider_scan_config (Some 0) (Some 1) 4 5).
  - lia.
  - cbn. lia.
  - reflexivity.
Defined.
